(** * Protei_Bulk (C++ edition): a shallow embedding of the core and protocol layer

    The first part embeds the program, module by module:

    - [Smpp]           include/protei/protocols/smpp_pdu.hpp: the command
                       identifiers, the header and the PDU classes
    - [PduCodec]       the codec smpp_pdu.hpp declares and the repository does
                       not define, after the specification
    - [SmppServer]     include/protei/protocols/smpp_server.hpp
    - [Config]         include/protei/core/config.hpp, src/core/config.cpp
    - [Redis]          include/protei/core/redis_client.hpp, src/core/redis_client.cpp
    - [Database]       include/protei/core/database.hpp, src/core/database.cpp
    - [WindowManager]  the submission window, after the specification
    - [Session]        the session states and the submission path, after the
                       specification
    - [HttpServer]     include/protei/api/http_server.hpp, src/api/http_server.cpp
    - [ProductionLogger] include/protei/core/production_logger.hpp,
                       src/core/production_logger.cpp, with the CDR manager
                       and the system monitor
    - [Logger]         include/protei/core/logger.hpp, src/core/logger.cpp

    The second part states and proves the properties.

    C++ exceptions are modelled by the [outcome] type: a call either returns a
    value or throws.  Mutable objects are modelled by explicit state passing.
    Unsigned 32-bit integers are integers of [Z] in the range [0, 2^32); octets
    are [Byte.byte]; a [std::string] holding wire data is a list of octets, one
    holding a name, a key or a configuration value is a [string]. *)

From Stdlib Require Import ZArith List Lia Bool Ascii String.
From Stdlib.Strings Require Byte.
From Stdlib.Floats Require SpecFloat.
From stdpp Require Import gmap strings list fin_maps.

Open Scope Z_scope.

(** ** Exceptions *)

(** What a C++ call that may throw produces. *)
Inductive outcome (E A : Type) : Type :=
| Returned (a : A)
| Thrown (e : E).
Arguments Returned {E A} a.
Arguments Thrown {E A} e.

Definition is_thrown {E A} (o : outcome E A) : bool :=
  match o with Thrown _ => true | Returned _ => false end.

(** ** SMPP command identifiers (smpp_pdu.hpp, [enum class SmppCommand]) *)

Module Smpp.

Inductive SmppCommand : Type :=
| BIND_RECEIVER
| BIND_TRANSMITTER
| BIND_TRANSCEIVER
| BIND_RECEIVER_RESP
| BIND_TRANSMITTER_RESP
| BIND_TRANSCEIVER_RESP
| SUBMIT_SM
| SUBMIT_SM_RESP
| DELIVER_SM
| DELIVER_SM_RESP
| UNBIND
| UNBIND_RESP
| ENQUIRE_LINK
| ENQUIRE_LINK_RESP
| SUBMIT_MULTI
| SUBMIT_MULTI_RESP
| QUERY_SM
| QUERY_SM_RESP
| CANCEL_SM
| CANCEL_SM_RESP.

(** The enumerators in declaration order. *)
Definition all_commands : list SmppCommand :=
  [ BIND_RECEIVER; BIND_TRANSMITTER; BIND_TRANSCEIVER;
    BIND_RECEIVER_RESP; BIND_TRANSMITTER_RESP; BIND_TRANSCEIVER_RESP;
    SUBMIT_SM; SUBMIT_SM_RESP; DELIVER_SM; DELIVER_SM_RESP;
    UNBIND; UNBIND_RESP; ENQUIRE_LINK; ENQUIRE_LINK_RESP;
    SUBMIT_MULTI; SUBMIT_MULTI_RESP; QUERY_SM; QUERY_SM_RESP;
    CANCEL_SM; CANCEL_SM_RESP ].

(** The underlying [uint32_t] of each enumerator. *)
Definition command_value (c : SmppCommand) : Z :=
  match c with
  | BIND_RECEIVER => 0x00000001
  | BIND_TRANSMITTER => 0x00000002
  | BIND_TRANSCEIVER => 0x00000009
  | BIND_RECEIVER_RESP => 0x80000001
  | BIND_TRANSMITTER_RESP => 0x80000002
  | BIND_TRANSCEIVER_RESP => 0x80000009
  | SUBMIT_SM => 0x00000004
  | SUBMIT_SM_RESP => 0x80000004
  | DELIVER_SM => 0x00000005
  | DELIVER_SM_RESP => 0x80000005
  | UNBIND => 0x00000006
  | UNBIND_RESP => 0x80000006
  | ENQUIRE_LINK => 0x00000015
  | ENQUIRE_LINK_RESP => 0x80000015
  | SUBMIT_MULTI => 0x00000021
  | SUBMIT_MULTI_RESP => 0x80000021
  | QUERY_SM => 0x00000003
  | QUERY_SM_RESP => 0x80000003
  | CANCEL_SM => 0x00000008
  | CANCEL_SM_RESP => 0x80000008
  end.

(** The set of command identifiers of the program, as numbers. *)
Definition command_ids : list Z := map command_value all_commands.

Definition is_command_id (v : Z) : bool :=
  existsb (Z.eqb v) command_ids.

(** The response bit of SMPP v3.4. *)
Definition RESPONSE_BIT : Z := 0x80000000.

Definition is_request (c : SmppCommand) : bool :=
  Z.eqb (Z.land (command_value c) RESPONSE_BIT) 0.

(** The identifier set the interface section of the specification enumerates:
    the three bind variants, submit_sm, deliver_sm, enquire_link and unbind,
    their responses, and generic_nack (0x80000000 in SMPP v3.4). *)
Definition GENERIC_NACK_ID : Z := 0x80000000.

Definition spec_request_ids : list Z :=
  [ 0x00000001; 0x00000002; 0x00000009; 0x00000004; 0x00000005; 0x00000015; 0x00000006 ].

Definition spec_command_ids : list Z :=
  spec_request_ids ++ map (fun v => Z.lor v RESPONSE_BIT) spec_request_ids ++ [GENERIC_NACK_ID].

(** Every request enumerator has its response enumerator, and the response's
    value is the request's value with the response bit set. *)
Definition response_of (c : SmppCommand) : SmppCommand :=
  match c with
  | BIND_RECEIVER => BIND_RECEIVER_RESP
  | BIND_TRANSMITTER => BIND_TRANSMITTER_RESP
  | BIND_TRANSCEIVER => BIND_TRANSCEIVER_RESP
  | SUBMIT_SM => SUBMIT_SM_RESP
  | DELIVER_SM => DELIVER_SM_RESP
  | UNBIND => UNBIND_RESP
  | ENQUIRE_LINK => ENQUIRE_LINK_RESP
  | SUBMIT_MULTI => SUBMIT_MULTI_RESP
  | QUERY_SM => QUERY_SM_RESP
  | CANCEL_SM => CANCEL_SM_RESP
  | r => r
  end.

(** *** PDU classes (smpp_pdu.hpp) *)

(** [uint8_t] and the octets of a [std::vector<uint8_t>] or of a
    [std::string]. *)
Definition uint8_of_Z (z : Z) : Byte.byte :=
  byte_of_ascii (ascii_of_N (Z.to_N (z mod 256))).

Definition Z_of_uint8 (b : Byte.byte) : Z := Z.of_N (Byte.to_N b).

(** [uint32_t]: an integer in [0, 2^32). *)
Definition is_uint32 (v : Z) : Prop := 0 <= v < 2 ^ 32.

(** [struct SmppHeader]. *)
Record SmppHeader : Type := mkSmppHeader {
  command_length : Z;
  command_id : Z;
  command_status : Z;
  sequence_number : Z
}.

(** [SmppHeader()]: all fields zero. *)
Definition default_header : SmppHeader :=
  {| command_length := 0; command_id := 0; command_status := 0; sequence_number := 0 |}.

(** The members [class BindPdu] adds to its base. *)
Record BindFields : Type := mkBindFields {
  bind_system_id : list Byte.byte;
  password : list Byte.byte;
  system_type : list Byte.byte;
  interface_version : Byte.byte;
  addr_ton : Byte.byte;
  addr_npi : Byte.byte;
  address_range : list Byte.byte
}.

(** The members [class SubmitSmPdu] and [class DeliverSmPdu] add to their
    base; the two classes declare the same members in the same order. *)
Record SmFields : Type := mkSmFields {
  service_type : list Byte.byte;
  source_addr_ton : Byte.byte;
  source_addr_npi : Byte.byte;
  source_addr : list Byte.byte;
  dest_addr_ton : Byte.byte;
  dest_addr_npi : Byte.byte;
  destination_addr : list Byte.byte;
  esm_class : Byte.byte;
  protocol_id : Byte.byte;
  priority_flag : Byte.byte;
  schedule_delivery_time : list Byte.byte;
  validity_period : list Byte.byte;
  registered_delivery : Byte.byte;
  replace_if_present_flag : Byte.byte;
  data_coding : Byte.byte;
  sm_default_msg_id : Byte.byte;
  sm_length : Byte.byte;
  short_message : list Byte.byte
}.

(** The concrete classes derived from [class SmppPdu], each with the header
    of its base. *)
Inductive SmppPdu : Type :=
| BindPdu (header : SmppHeader) (fields : BindFields)
| BindRespPdu (header : SmppHeader) (system_id : list Byte.byte)
| SubmitSmPdu (header : SmppHeader) (fields : SmFields)
| SubmitSmRespPdu (header : SmppHeader) (message_id : list Byte.byte)
| DeliverSmPdu (header : SmppHeader) (fields : SmFields)
| EnquireLinkPdu (header : SmppHeader)
| EnquireLinkRespPdu (header : SmppHeader)
| UnbindPdu (header : SmppHeader)
| UnbindRespPdu (header : SmppHeader).

Definition header (p : SmppPdu) : SmppHeader :=
  match p with
  | BindPdu h _ | BindRespPdu h _ | SubmitSmPdu h _ | SubmitSmRespPdu h _
  | DeliverSmPdu h _ | EnquireLinkPdu h | EnquireLinkRespPdu h | UnbindPdu h
  | UnbindRespPdu h => h
  end.

(** The overrides of [get_command]. *)
Definition get_command (p : SmppPdu) : SmppCommand :=
  match p with
  | BindPdu _ _ => BIND_TRANSCEIVER
  | BindRespPdu _ _ => BIND_TRANSCEIVER_RESP
  | SubmitSmPdu _ _ => SUBMIT_SM
  | SubmitSmRespPdu _ _ => SUBMIT_SM_RESP
  | DeliverSmPdu _ _ => DELIVER_SM
  | EnquireLinkPdu _ => ENQUIRE_LINK
  | EnquireLinkRespPdu _ => ENQUIRE_LINK_RESP
  | UnbindPdu _ => UNBIND
  | UnbindRespPdu _ => UNBIND_RESP
  end.

(** The members after the constructors [BindPdu()], [SubmitSmPdu()] and
    [DeliverSmPdu()]. *)
Definition default_BindFields : BindFields :=
  {| bind_system_id := []; password := []; system_type := [];
     interface_version := Byte.x34; addr_ton := Byte.x00; addr_npi := Byte.x00;
     address_range := [] |}.

Definition default_SubmitSmFields : SmFields :=
  {| service_type := []; source_addr_ton := Byte.x00; source_addr_npi := Byte.x00;
     source_addr := []; dest_addr_ton := Byte.x01; dest_addr_npi := Byte.x01;
     destination_addr := []; esm_class := Byte.x00; protocol_id := Byte.x00;
     priority_flag := Byte.x00; schedule_delivery_time := []; validity_period := [];
     registered_delivery := Byte.x01; replace_if_present_flag := Byte.x00;
     data_coding := Byte.x00; sm_default_msg_id := Byte.x00; sm_length := Byte.x00;
     short_message := [] |}.

Definition default_DeliverSmFields : SmFields :=
  {| service_type := []; source_addr_ton := Byte.x01; source_addr_npi := Byte.x01;
     source_addr := []; dest_addr_ton := Byte.x00; dest_addr_npi := Byte.x00;
     destination_addr := []; esm_class := Byte.x00; protocol_id := Byte.x00;
     priority_flag := Byte.x00; schedule_delivery_time := []; validity_period := [];
     registered_delivery := Byte.x00; replace_if_present_flag := Byte.x00;
     data_coding := Byte.x00; sm_default_msg_id := Byte.x00; sm_length := Byte.x00;
     short_message := [] |}.

End Smpp.

(** ** The PDU codec *)

(** smpp_pdu.hpp declares [encode], [SmppPduParser::decode], [read_header],
    the three [read_*] helpers and the three [encode_*] utilities; the
    repository defines none of them.  This module gives them the behaviour
    section 4.1 and section 6 of the specification describe. *)
Module PduCodec.
Import Smpp.

Open Scope list_scope.

(** Modelled from the spec: the failures of the codec ([PduError]). *)
Inductive PduError : Type :=
| Truncated
| LengthMismatch
| UnknownCommand (header : SmppHeader)
| MalformedTlv
| FieldTooLong.

(** Modelled from the spec: what [encode] gives, octets or a failure. *)
Inductive result (A : Type) : Type :=
| Ok (a : A)
| Err (e : PduError).
Arguments Ok {A} a.
Arguments Err {A} e.

#[export] Instance result_ret : MRet result := fun A a => Ok a.
#[export] Instance result_bind : MBind result := fun A B k m =>
  match m with
  | Ok a => k a
  | Err e => Err e
  end.

(** *** Encoding *)

(** Modelled from the spec: [encode_uint8] is declared and not defined; one
    octet. *)
Definition encode_uint8 (value : Byte.byte) : list Byte.byte := [value].

(** Modelled from the spec: [encode_uint32] is declared and not defined; four
    octets in big-endian network byte order. *)
Definition encode_uint32 (value : Z) : list Byte.byte :=
  [ uint8_of_Z (Z.land (Z.shiftr value 24) 0xFF);
    uint8_of_Z (Z.land (Z.shiftr value 16) 0xFF);
    uint8_of_Z (Z.land (Z.shiftr value 8) 0xFF);
    uint8_of_Z (Z.land value 0xFF) ].

(** Modelled from the spec: [encode_c_string] is declared and not defined;
    the octets of the string and a NUL terminator. *)
Definition encode_c_string (str : list Byte.byte) : list Byte.byte := str ++ [Byte.x00].

(** The maximum widths of the string fields count the NUL terminator.  The
    specification quotes 16 for [system_id], 9 for [password], 21 for
    [source_addr] and [destination_addr] and 254 for [short_message]; for the
    other fields it refers to SMPP v3.4. *)

(** Modelled from the spec: the width of [system_id]. *)
Definition MAX_SYSTEM_ID : nat := 16.
(** Modelled from the spec: the width of [password]. *)
Definition MAX_PASSWORD : nat := 9.
(** Modelled from the spec: the width of [system_type] in SMPP v3.4. *)
Definition MAX_SYSTEM_TYPE : nat := 13.
(** Modelled from the spec: the width of [address_range] in SMPP v3.4. *)
Definition MAX_ADDRESS_RANGE : nat := 41.
(** Modelled from the spec: the width of [service_type] in SMPP v3.4. *)
Definition MAX_SERVICE_TYPE : nat := 6.
(** Modelled from the spec: the width of [source_addr] and of
    [destination_addr]. *)
Definition MAX_ADDR : nat := 21.
(** Modelled from the spec: the width of [schedule_delivery_time] and of
    [validity_period] in SMPP v3.4. *)
Definition MAX_TIME : nat := 17.
(** Modelled from the spec: the width of [message_id] in SMPP v3.4. *)
Definition MAX_MESSAGE_ID : nat := 65.
(** Modelled from the spec: the most octets [short_message] carries inline. *)
Definition MAX_SHORT_MESSAGE : nat := 254.

(** Modelled from the spec: a string field fails with [FieldTooLong] when it
    exceeds its maximum width. *)
Definition c_string_field (max : nat) (str : list Byte.byte) : result (list Byte.byte) :=
  if (length (encode_c_string str) <=? max)%nat then Ok (encode_c_string str)
  else Err FieldTooLong.

(** Modelled from the spec: [short_message] is prefixed by the one-byte
    [sm_length], its length; more than 254 octets are not representable. *)
Definition short_message_field (msg : list Byte.byte) : result (list Byte.byte) :=
  if (length msg <=? MAX_SHORT_MESSAGE)%nat
  then Ok (encode_uint8 (uint8_of_Z (Z.of_nat (length msg))) ++ msg)
  else Err FieldTooLong.

(** Modelled from the spec: the body of a bind request, the fields of
    [BindPdu] in the order of SMPP v3.4. *)
Definition encode_bind_fields (f : BindFields) : result (list Byte.byte) :=
  system_id ← c_string_field MAX_SYSTEM_ID (bind_system_id f);
  password ← c_string_field MAX_PASSWORD (password f);
  system_type ← c_string_field MAX_SYSTEM_TYPE (system_type f);
  address_range ← c_string_field MAX_ADDRESS_RANGE (address_range f);
  mret (system_id ++ password ++ system_type ++
        encode_uint8 (interface_version f) ++ encode_uint8 (addr_ton f) ++
        encode_uint8 (addr_npi f) ++ address_range).

(** Modelled from the spec: the body of [submit_sm] and of [deliver_sm], the
    fields in the order of SMPP v3.4. *)
Definition encode_sm_fields (f : SmFields) : result (list Byte.byte) :=
  service_type ← c_string_field MAX_SERVICE_TYPE (service_type f);
  source_addr ← c_string_field MAX_ADDR (source_addr f);
  destination_addr ← c_string_field MAX_ADDR (destination_addr f);
  schedule_delivery_time ← c_string_field MAX_TIME (schedule_delivery_time f);
  validity_period ← c_string_field MAX_TIME (validity_period f);
  short_message ← short_message_field (short_message f);
  mret (service_type ++
        encode_uint8 (source_addr_ton f) ++ encode_uint8 (source_addr_npi f) ++
        source_addr ++
        encode_uint8 (dest_addr_ton f) ++ encode_uint8 (dest_addr_npi f) ++
        destination_addr ++
        encode_uint8 (esm_class f) ++ encode_uint8 (protocol_id f) ++
        encode_uint8 (priority_flag f) ++
        schedule_delivery_time ++ validity_period ++
        encode_uint8 (registered_delivery f) ++
        encode_uint8 (replace_if_present_flag f) ++
        encode_uint8 (data_coding f) ++ encode_uint8 (sm_default_msg_id f) ++
        short_message).

(** Modelled from the spec: the body of each PDU class, its fields in the
    order of SMPP v3.4 (the order of the members of the class). *)
Definition encode_body (p : SmppPdu) : result (list Byte.byte) :=
  match p with
  | BindPdu _ f => encode_bind_fields f
  | BindRespPdu _ system_id => c_string_field MAX_SYSTEM_ID system_id
  | SubmitSmPdu _ f => encode_sm_fields f
  | SubmitSmRespPdu _ message_id => c_string_field MAX_MESSAGE_ID message_id
  | DeliverSmPdu _ f => encode_sm_fields f
  | EnquireLinkPdu _ | EnquireLinkRespPdu _ | UnbindPdu _ | UnbindRespPdu _ => Ok []
  end.

(** Modelled from the spec: [SmppPdu::encode] is declared and not defined.
    The header fields come first, then the body; [command_length] is
    recomputed from the serialized size and never taken from the header of the
    object, the other three fields are the members of the header. *)
Definition encode (p : SmppPdu) : result (list Byte.byte) :=
  body ← encode_body p;
  mret (encode_uint32 (16 + Z.of_nat (length body)) ++
        encode_uint32 (command_id (header p)) ++
        encode_uint32 (command_status (header p)) ++
        encode_uint32 (sequence_number (header p)) ++
        body).

(** *** Decoding *)

(** Modelled from the spec: what reading at an offset of a buffer gives, a
    value and the offset behind it, a failure of the codec, or an access
    outside the buffer. *)
Inductive read_result (A : Type) : Type :=
| ReadOk (a : A) (offset : nat)
| ReadErr (e : PduError)
| OutOfBounds.
Arguments ReadOk {A} a offset.
Arguments ReadErr {A} e.
Arguments OutOfBounds {A}.

(** A reader takes the buffer and the offset, as the declarations of the
    helpers do ([const std::vector<uint8_t>& data, size_t& offset]). *)
Definition Reader (A : Type) : Type := list Byte.byte -> nat -> read_result A.

#[export] Instance Reader_ret : MRet Reader := fun A a _ offset => ReadOk a offset.
#[export] Instance Reader_bind : MBind Reader := fun A B k m data offset =>
  match m data offset with
  | ReadOk a offset' => k a data offset'
  | ReadErr e => ReadErr e
  | OutOfBounds => OutOfBounds
  end.

(** [data[i]]: defined inside the buffer only. *)
Definition at_ (data : list Byte.byte) (i : nat) : read_result Byte.byte :=
  match data !! i with
  | Some b => ReadOk b (S i)
  | None => OutOfBounds
  end.

(** Modelled from the spec: [read_uint8] is declared and not defined; it
    fails with [Truncated] when no octet is left. *)
Definition read_uint8 : Reader Byte.byte := fun data offset =>
  if (offset <? length data)%nat then at_ data offset else ReadErr Truncated.

(** Modelled from the spec: [read_uint32] is declared and not defined; an
    unsigned big-endian integer of four octets, [Truncated] when fewer are
    left. *)
Definition read_uint32 : Reader Z := fun data offset =>
  if (offset + 4 <=? length data)%nat then
    match at_ data offset, at_ data (offset + 1), at_ data (offset + 2),
          at_ data (offset + 3) with
    | ReadOk b0 _, ReadOk b1 _, ReadOk b2 _, ReadOk b3 _ =>
        ReadOk (Z.lor (Z.shiftl (Z_of_uint8 b0) 24)
                 (Z.lor (Z.shiftl (Z_of_uint8 b1) 16)
                   (Z.lor (Z.shiftl (Z_of_uint8 b2) 8) (Z_of_uint8 b3))))
               (offset + 4)
    | _, _, _, _ => OutOfBounds
    end
  else ReadErr Truncated.

Definition is_nul (b : Byte.byte) : bool := Byte.eqb b Byte.x00.

(** Modelled from the spec: the loop of [read_c_string]; [fuel] octets are
    left in the buffer. *)
Fixpoint read_c_string_loop (fuel : nat) (acc : list Byte.byte) : Reader (list Byte.byte) :=
  fun data offset =>
    match fuel with
    | O => ReadErr Truncated
    | S fuel' =>
        match at_ data offset with
        | ReadOk b next =>
            if is_nul b then ReadOk (rev acc) next
            else read_c_string_loop fuel' (b :: acc) data next
        | ReadErr e => ReadErr e
        | OutOfBounds => OutOfBounds
        end
    end.

(** Modelled from the spec: [read_c_string] is declared and not defined; the
    octets up to the NUL terminator, [Truncated] when the buffer ends before
    one. *)
Definition read_c_string : Reader (list Byte.byte) := fun data offset =>
  read_c_string_loop (length data - offset) [] data offset.

(** Modelled from the spec: the [sm_length] octets of [short_message]. *)
Definition read_octets (n : nat) : Reader (list Byte.byte) := fun data offset =>
  if (offset + n <=? length data)%nat then ReadOk (take n (drop offset data)) (offset + n)
  else ReadErr Truncated.

(** Modelled from the spec: [SmppPduParser::read_header] is declared and not
    defined; the four header fields from the start of the buffer. *)
Definition read_header_fields : Reader SmppHeader :=
  command_length ← read_uint32;
  command_id ← read_uint32;
  command_status ← read_uint32;
  sequence_number ← read_uint32;
  mret {| command_length := command_length; command_id := command_id;
          command_status := command_status; sequence_number := sequence_number |}.

(** Modelled from the spec: [read_header(data)] reads at offset 0. *)
Definition read_header (data : list Byte.byte) : read_result SmppHeader :=
  read_header_fields data 0%nat.

(** Modelled from the spec: the body of a bind request. *)
Definition read_bind_fields : Reader BindFields :=
  system_id ← read_c_string;
  password ← read_c_string;
  system_type ← read_c_string;
  interface_version ← read_uint8;
  addr_ton ← read_uint8;
  addr_npi ← read_uint8;
  address_range ← read_c_string;
  mret {| bind_system_id := system_id; password := password; system_type := system_type;
          interface_version := interface_version; addr_ton := addr_ton;
          addr_npi := addr_npi; address_range := address_range |}.

(** Modelled from the spec: the body of [submit_sm] and of [deliver_sm];
    [short_message] takes the [sm_length] octets behind the length octet. *)
Definition read_sm_fields : Reader SmFields :=
  service_type ← read_c_string;
  source_addr_ton ← read_uint8;
  source_addr_npi ← read_uint8;
  source_addr ← read_c_string;
  dest_addr_ton ← read_uint8;
  dest_addr_npi ← read_uint8;
  destination_addr ← read_c_string;
  esm_class ← read_uint8;
  protocol_id ← read_uint8;
  priority_flag ← read_uint8;
  schedule_delivery_time ← read_c_string;
  validity_period ← read_c_string;
  registered_delivery ← read_uint8;
  replace_if_present_flag ← read_uint8;
  data_coding ← read_uint8;
  sm_default_msg_id ← read_uint8;
  sm_length ← read_uint8;
  short_message ← read_octets (Z.to_nat (Z_of_uint8 sm_length));
  mret {| service_type := service_type; source_addr_ton := source_addr_ton;
          source_addr_npi := source_addr_npi; source_addr := source_addr;
          dest_addr_ton := dest_addr_ton; dest_addr_npi := dest_addr_npi;
          destination_addr := destination_addr; esm_class := esm_class;
          protocol_id := protocol_id; priority_flag := priority_flag;
          schedule_delivery_time := schedule_delivery_time;
          validity_period := validity_period;
          registered_delivery := registered_delivery;
          replace_if_present_flag := replace_if_present_flag;
          data_coding := data_coding; sm_default_msg_id := sm_default_msg_id;
          sm_length := sm_length; short_message := short_message |}.

(** Modelled from the spec: the body of the class a command identifier
    selects; the three bind requests and the three bind responses share a
    class.  Identifiers for which the header file declares no PDU class have no
    typed representation and are reported like unrecognized ones. *)
Definition read_body (h : SmppHeader) : option (Reader SmppPdu) :=
  let id := command_id h in
  if (id =? 0x00000001) || (id =? 0x00000002) || (id =? 0x00000009) then
    Some (f ← read_bind_fields; mret (BindPdu h f))
  else if (id =? 0x80000001) || (id =? 0x80000002) || (id =? 0x80000009) then
    Some (system_id ← read_c_string; mret (BindRespPdu h system_id))
  else if id =? 0x00000004 then Some (f ← read_sm_fields; mret (SubmitSmPdu h f))
  else if id =? 0x80000004 then
    Some (message_id ← read_c_string; mret (SubmitSmRespPdu h message_id))
  else if id =? 0x00000005 then Some (f ← read_sm_fields; mret (DeliverSmPdu h f))
  else if id =? 0x00000015 then Some (mret (EnquireLinkPdu h))
  else if id =? 0x80000015 then Some (mret (EnquireLinkRespPdu h))
  else if id =? 0x00000006 then Some (mret (UnbindPdu h))
  else if id =? 0x80000006 then Some (mret (UnbindRespPdu h))
  else None.

(** Modelled from the spec: the tag and the length of an optional parameter,
    unsigned big-endian integers of two octets. *)
Definition read_uint16 : Reader Z := fun data offset =>
  if (offset + 2 <=? length data)%nat then
    match at_ data offset, at_ data (offset + 1) with
    | ReadOk b0 _, ReadOk b1 _ =>
        ReadOk (Z.lor (Z.shiftl (Z_of_uint8 b0) 8) (Z_of_uint8 b1)) (offset + 2)
    | _, _ => OutOfBounds
    end
  else ReadErr Truncated.

(** Modelled from the spec: the optional parameters behind the fixed body,
    entries of tag (u16), length (u16) and value, read until the declared
    length is consumed; an entry that runs past it fails with [MalformedTlv].
    The PDU classes have no member for optional parameters: they are checked
    and skipped.  [fuel] bounds the number of entries. *)
Fixpoint skip_tlvs (fuel : nat) : Reader unit := fun data offset =>
  if (length data <=? offset)%nat then ReadOk tt offset
  else
    match fuel with
    | O => ReadErr MalformedTlv
    | S fuel' =>
        if (offset + 4 <=? length data)%nat then
          match read_uint16 data offset with
          | ReadOk _tag offset1 =>
              match read_uint16 data offset1 with
              | ReadOk len offset2 =>
                  if (offset2 + Z.to_nat len <=? length data)%nat
                  then skip_tlvs fuel' data (offset2 + Z.to_nat len)%nat
                  else ReadErr MalformedTlv
              | ReadErr e => ReadErr e
              | OutOfBounds => OutOfBounds
              end
          | ReadErr e => ReadErr e
          | OutOfBounds => OutOfBounds
          end
        else ReadErr MalformedTlv
    end.

(** Modelled from the spec: what [decode] gives, a PDU, a failure, or
    undefined behaviour (an access outside the buffer). *)
Inductive decode_result : Type :=
| Decoded (p : SmppPdu)
| Failed (e : PduError)
| UndefinedBehaviour.

Definition finish (r : read_result SmppPdu) : decode_result :=
  match r with
  | ReadOk p _ => Decoded p
  | ReadErr e => Failed e
  | OutOfBounds => UndefinedBehaviour
  end.

(** Modelled from the spec: [SmppPduParser::decode] is declared and not
    defined.  It reads the header, [Truncated] when fewer than 16 octets are
    supplied or when the declared length exceeds the supplied count; compares
    the declared length with the supplied count, [LengthMismatch] otherwise;
    looks the command up, [UnknownCommand] with the header when there is none;
    reads the body and the optional parameters behind it. *)
Definition decode (data : list Byte.byte) : decode_result :=
  if (length data <? 16)%nat then Failed Truncated
  else
    match read_header data with
    | ReadOk h _ =>
        if Z.of_nat (length data) <? command_length h then Failed Truncated
        else if negb (command_length h =? Z.of_nat (length data)) then Failed LengthMismatch
        else
          match read_body h with
          | None => Failed (UnknownCommand h)
          | Some body =>
              finish ((p ← body; _ ← skip_tlvs (length data); mret p) data 16%nat)
          end
    | ReadErr e => Failed e
    | OutOfBounds => UndefinedBehaviour
    end.

(** *** Canonical PDUs *)

Definition nul_free (str : list Byte.byte) : bool := forallb (fun b => negb (is_nul b)) str.

(** The string members of a PDU. *)
Definition strings (p : SmppPdu) : list (list Byte.byte) :=
  match p with
  | BindPdu _ f => [bind_system_id f; password f; system_type f; address_range f]
  | BindRespPdu _ system_id => [system_id]
  | SubmitSmPdu _ f | DeliverSmPdu _ f =>
      [service_type f; source_addr f; destination_addr f; schedule_delivery_time f;
       validity_period f]
  | SubmitSmRespPdu _ message_id => [message_id]
  | EnquireLinkPdu _ | EnquireLinkRespPdu _ | UnbindPdu _ | UnbindRespPdu _ => []
  end.

Definition is_uint32b (v : Z) : bool := (0 <=? v) && (v <? 2 ^ 32).

Definition sm_length_matches (p : SmppPdu) : bool :=
  match p with
  | SubmitSmPdu _ f | DeliverSmPdu _ f =>
      Z_of_uint8 (sm_length f) =? Z.of_nat (length (short_message f))
  | _ => true
  end.

(** The command identifiers that [read_body] reads into each class: the three
    bind requests share a class, as do the three bind responses. *)
Definition class_command_ids (p : SmppPdu) : list Z :=
  match p with
  | BindPdu _ _ => [0x00000001; 0x00000002; 0x00000009]
  | BindRespPdu _ _ => [0x80000001; 0x80000002; 0x80000009]
  | SubmitSmPdu _ _ => [0x00000004]
  | SubmitSmRespPdu _ _ => [0x80000004]
  | DeliverSmPdu _ _ => [0x00000005]
  | EnquireLinkPdu _ => [0x00000015]
  | EnquireLinkRespPdu _ => [0x80000015]
  | UnbindPdu _ => [0x00000006]
  | UnbindRespPdu _ => [0x80000006]
  end.

Definition command_id_of_class (p : SmppPdu) : bool :=
  existsb (Z.eqb (command_id (header p))) (class_command_ids p).

(** The header of the object already holds what the wire will carry: the
    serialized size, a command identifier of the class of the object, and
    two values of 32 bits. *)
Definition header_matches (p : SmppPdu) : bool :=
  match encode_body p with
  | Ok body => command_length (header p) =? 16 + Z.of_nat (length body)
  | Err _ => false
  end
  && command_id_of_class p
  && is_uint32b (command_status (header p))
  && is_uint32b (sequence_number (header p)).

(** A PDU is canonical when its header matches, no string member holds a NUL
    octet, and [sm_length] is the length of [short_message].  A canonical PDU
    can be encoded. *)
Definition canonical (p : SmppPdu) : bool :=
  header_matches p && forallb nul_free (strings p) && sm_length_matches p.

(** The PDU with another header, and the header the wire carries for a PDU
    whose body has been encoded. *)
Definition with_header (h : SmppHeader) (p : SmppPdu) : SmppPdu :=
  match p with
  | BindPdu _ f => BindPdu h f
  | BindRespPdu _ system_id => BindRespPdu h system_id
  | SubmitSmPdu _ f => SubmitSmPdu h f
  | SubmitSmRespPdu _ message_id => SubmitSmRespPdu h message_id
  | DeliverSmPdu _ f => DeliverSmPdu h f
  | EnquireLinkPdu _ => EnquireLinkPdu h
  | EnquireLinkRespPdu _ => EnquireLinkRespPdu h
  | UnbindPdu _ => UnbindPdu h
  | UnbindRespPdu _ => UnbindRespPdu h
  end.

Definition wire_header (p : SmppPdu) (body : list Byte.byte) : SmppHeader :=
  {| command_length := 16 + Z.of_nat (length body);
     command_id := command_id (header p);
     command_status := command_status (header p);
     sequence_number := sequence_number (header p) |}.

(** [decode(encode(p))]. *)
Definition decode_encode (p : SmppPdu) : decode_result :=
  match encode p with
  | Ok bytes => decode bytes
  | Err e => Failed e
  end.

(** The first four octets of a buffer: the declared [command_length]. *)
Definition declared_length (data : list Byte.byte) : option Z :=
  match read_uint32 data 0%nat with
  | ReadOk v _ => Some v
  | _ => None
  end.

(** [reads r enc v]: wherever the octets [enc] stand in a buffer, the reader
    started at their first octet returns [v] and stops behind their last. *)
Definition reads {A : Type} (r : Reader A) (enc : list Byte.byte) (v : A) : Prop :=
  forall pre post,
    r (pre ++ enc ++ post) (length pre) = ReadOk v (length pre + length enc)%nat.

(** [in_bounds r]: the reader never accesses an octet outside the buffer, and
    never moves the offset backwards. *)
Definition in_bounds {A : Type} (r : Reader A) : Prop :=
  forall data offset,
    match r data offset with
    | ReadOk _ offset' => (offset <= offset')%nat
    | ReadErr _ => True
    | OutOfBounds => False
    end.

End PduCodec.

(** *** Example PDUs *)

Module PduExamples.
Import Smpp PduCodec.

Definition octets (n : nat) (b : Byte.byte) : list Byte.byte := repeat b n.



(** String members at their maximum width (one less than the field width,
    which counts the terminator). *)
Definition wide_sm_fields (msg : list Byte.byte) : SmFields :=
  {| service_type := octets 5 Byte.x43;
     source_addr_ton := Byte.x01; source_addr_npi := Byte.x01;
     source_addr := octets 20 Byte.x31;
     dest_addr_ton := Byte.x01; dest_addr_npi := Byte.x01;
     destination_addr := octets 20 Byte.x32;
     esm_class := Byte.x00; protocol_id := Byte.x00; priority_flag := Byte.x00;
     schedule_delivery_time := octets 16 Byte.x30;
     validity_period := octets 16 Byte.x30;
     registered_delivery := Byte.x01; replace_if_present_flag := Byte.x00;
     data_coding := Byte.x00; sm_default_msg_id := Byte.x00;
     sm_length := uint8_of_Z (Z.of_nat (length msg));
     short_message := msg |}.






(** An [UnbindPdu] whose header holds the identifier of [enquire_link]. *)
Definition unbind_as_enquire_link : SmppPdu :=
  UnbindPdu {| command_length := 16; command_id := 0x00000015; command_status := 0;
               sequence_number := 1 |}.

(** A [BindRespPdu] whose [system_id] holds a NUL octet in the middle. *)
Definition bind_resp_embedded_nul : SmppPdu :=
  BindRespPdu {| command_length := 20; command_id := 0x80000009; command_status := 0;
                 sequence_number := 1 |}
              [Byte.x61; Byte.x00; Byte.x62].

(** A [SubmitSmPdu] whose [sm_length] member is 0 while [short_message] holds
    one octet. *)
Definition submit_sm_stale_length : SmppPdu :=
  SubmitSmPdu {| command_length := 34; command_id := 0x00000004; command_status := 0;
                 sequence_number := 1 |}
              {| service_type := []; source_addr_ton := Byte.x00;
                 source_addr_npi := Byte.x00; source_addr := [];
                 dest_addr_ton := Byte.x01; dest_addr_npi := Byte.x01;
                 destination_addr := []; esm_class := Byte.x00; protocol_id := Byte.x00;
                 priority_flag := Byte.x00; schedule_delivery_time := [];
                 validity_period := []; registered_delivery := Byte.x01;
                 replace_if_present_flag := Byte.x00; data_coding := Byte.x00;
                 sm_default_msg_id := Byte.x00; sm_length := Byte.x00;
                 short_message := [Byte.x41] |}.

(** The header of an [enquire_link] that declares 32 octets, with nothing
    behind it. *)
Definition header_declaring_32 : list Byte.byte :=
  [ Byte.x00; Byte.x00; Byte.x00; Byte.x20;  Byte.x00; Byte.x00; Byte.x00; Byte.x15;
    Byte.x00; Byte.x00; Byte.x00; Byte.x00;  Byte.x00; Byte.x00; Byte.x00; Byte.x01 ].

End PduExamples.

(** ** The SMPP server (smpp_server.hpp) *)

Module SmppServer.

(** [std::shared_ptr<services::RoutingService>]: null, or a handle on a
    routing service object. *)
Definition RoutingServicePtr : Type := option nat.

Record SmppServer : Type := mkSmppServer {
  host_ : list Byte.byte;
  port_ : Z;
  routing_service_ : RoutingServicePtr
}.

(** What the process can observe of a server besides its fields. *)
Inductive Event : Type :=
| SocketOpen (host : list Byte.byte) (port : Z)
| SocketClose
| SocketWrite (bytes : list Byte.byte)
| SocketRead (bytes : list Byte.byte)
| PduHandled (command_id : Z).

(** A server object together with the trace of I/O of the process. *)
Record World : Type := mkWorld {
  server : SmppServer;
  trace : list Event
}.

(** [SmppServer(const std::string& host, int port) : host_(host), port_(port) {}] *)
Definition construct (host : list Byte.byte) (port : Z) : SmppServer :=
  {| host_ := host; port_ := port; routing_service_ := None |}.

(** [void start() {}] *)
Definition start (w : World) : World := w.

(** [void stop() {}] *)
Definition stop (w : World) : World := w.

(** [void set_routing_service(std::shared_ptr<...> service) { routing_service_ = service; }] *)
Definition set_routing_service (service : RoutingServicePtr) (w : World) : World :=
  {| server := {| host_ := host_ (server w); port_ := port_ (server w);
                  routing_service_ := service |};
     trace := trace w |}.

(** The calls of the public interface. *)
Inductive Call : Type :=
| CallStart
| CallStop
| CallSetRoutingService (service : RoutingServicePtr).

Definition step (w : World) (c : Call) : World :=
  match c with
  | CallStart => start w
  | CallStop => stop w
  | CallSetRoutingService s => set_routing_service s w
  end.

Definition run (w : World) (cs : list Call) : World := fold_left step cs w.

Definition is_lifecycle (c : Call) : bool :=
  match c with CallStart | CallStop => true | CallSetRoutingService _ => false end.

(** PDUs handled so far, as recorded in the trace. *)
Definition pdus_handled (w : World) : list Z :=
  flat_map (fun e => match e with PduHandled c => [c] | _ => [] end) (trace w).

End SmppServer.

(** ** Exceptions of the core layer *)

(** [std::exception] with its [what()] text, or an exception that does not
    derive from it (caught by [catch (...)] only). *)
Inductive exception : Type :=
| std_exception (what : string)
| foreign_exception.

Definition what (e : exception) : string :=
  match e with std_exception w => w | foreign_exception => "" end.

(** ** Decimal text of integers *)

Module Format.

Open Scope string_scope.

Definition dec_digit (d : Z) : ascii :=
  match d with
  | 0 => "0" | 1 => "1" | 2 => "2" | 3 => "3" | 4 => "4" | 5 => "5" | 6 => "6" | 7 => "7"
  | 8 => "8" | _ => "9"
  end%char.

(** The decimal digits of [n], most significant first, at least one digit;
    [fuel] bounds the number of digits (20 for a 64-bit value). *)
Fixpoint dec_digits (fuel : nat) (n : Z) (acc : string) : string :=
  match fuel with
  | O => acc
  | S fuel' =>
      let acc' := String (dec_digit (n mod 10)) acc in
      if (n / 10 =? 0)%Z then acc' else dec_digits fuel' (n / 10) acc'
  end.

(** [std::to_string] of an [int] or a [long], and [operator<<] of such a
    value on a stream in its default state: a minus sign for a negative value,
    then the decimal digits. *)
Definition to_string (v : Z) : string :=
  if (v <? 0)%Z then String "-"%char (dec_digits 20 (- v) "") else dec_digits 20 v "".

End Format.

(** ** Configuration (config.hpp, config.cpp) *)

Module Config.

Open Scope string_scope.

Record DatabaseConfig : Type := mkDatabaseConfig {
  db_host : string;
  db_port : Z;
  db_database : string;
  db_username : string;
  db_password : string;
  db_pool_size : Z;
  db_max_connections : Z;
  db_timeout_seconds : Z
}.

Record RedisConfig : Type := mkRedisConfig {
  redis_enabled : bool;
  redis_host : string;
  redis_port : Z;
  redis_password : string;
  redis_database : Z;
  redis_pool_size : Z;
  redis_timeout_ms : Z
}.

Record SmppConfig : Type := mkSmppConfig {
  smpp_enabled : bool;
  smpp_bind_address : string;
  smpp_bind_port : Z;
  smpp_system_id : string;
  smpp_max_connections : Z;
  enquire_link_interval : Z;
  window_size : Z
}.

Record ApiConfig : Type := mkApiConfig {
  api_enabled : bool;
  api_bind_address : string;
  api_bind_port : Z;
  enable_https : bool;
  ssl_cert_file : string;
  ssl_key_file : string;
  enable_cors : bool;
  max_body_size_mb : Z;
  thread_pool_size : Z
}.

Record AppConfig : Type := mkAppConfig {
  app_name : string;
  version : string;
  build : string;
  environment : string;
  base_dir : string;
  max_workers : Z;
  queue_size : Z;
  enable_monitoring : bool
}.

Record SecurityConfig : Type := mkSecurityConfig {
  secret_key : string;
  jwt_algorithm : string;
  access_token_expire_minutes : Z;
  refresh_token_expire_days : Z;
  password_min_length : Z;
  password_expiry_days : Z;
  max_failed_attempts : Z;
  lockout_duration_minutes : Z;
  enable_2fa : bool
}.

(** The member initialisers of the structs. *)
Definition default_DatabaseConfig : DatabaseConfig :=
  {| db_host := "localhost"; db_port := 5432; db_database := "protei_bulk";
     db_username := "protei"; db_password := "elephant"; db_pool_size := 20;
     db_max_connections := 50; db_timeout_seconds := 30 |}.

Definition default_RedisConfig : RedisConfig :=
  {| redis_enabled := true; redis_host := "localhost"; redis_port := 6379;
     redis_password := ""; redis_database := 0; redis_pool_size := 10;
     redis_timeout_ms := 1000 |}.

Definition default_SmppConfig : SmppConfig :=
  {| smpp_enabled := true; smpp_bind_address := "0.0.0.0"; smpp_bind_port := 2775;
     smpp_system_id := "PROTEI_BULK"; smpp_max_connections := 100;
     enquire_link_interval := 30; window_size := 10 |}.

Definition default_ApiConfig : ApiConfig :=
  {| api_enabled := true; api_bind_address := "0.0.0.0"; api_bind_port := 8080;
     enable_https := false; ssl_cert_file := ""; ssl_key_file := "";
     enable_cors := true; max_body_size_mb := 100; thread_pool_size := 8 |}.

Definition default_AppConfig : AppConfig :=
  {| app_name := "Protei_Bulk"; version := "1.0.0"; build := "001";
     environment := "production"; base_dir := "/opt/protei_bulk";
     max_workers := 10; queue_size := 10000; enable_monitoring := true |}.

Definition default_SecurityConfig : SecurityConfig :=
  {| secret_key := ""; jwt_algorithm := "HS256"; access_token_expire_minutes := 60;
     refresh_token_expire_days := 7; password_min_length := 12;
     password_expiry_days := 90; max_failed_attempts := 5;
     lockout_duration_minutes := 30; enable_2fa := true |}.

(** The data members of [class Config]. *)
Record Config : Type := mkConfig {
  app_config_ : AppConfig;
  db_config_ : DatabaseConfig;
  redis_config_ : RedisConfig;
  smpp_config_ : SmppConfig;
  api_config_ : ApiConfig;
  security_config_ : SecurityConfig
}.

Definition default_members : Config :=
  {| app_config_ := default_AppConfig; db_config_ := default_DatabaseConfig;
     redis_config_ := default_RedisConfig; smpp_config_ := default_SmppConfig;
     api_config_ := default_ApiConfig; security_config_ := default_SecurityConfig |}.

(** Field updates, one per assignment form of config.cpp. *)
Definition set_db (f : DatabaseConfig -> DatabaseConfig) (c : Config) : Config :=
  {| app_config_ := app_config_ c; db_config_ := f (db_config_ c);
     redis_config_ := redis_config_ c; smpp_config_ := smpp_config_ c;
     api_config_ := api_config_ c; security_config_ := security_config_ c |}.

Definition set_redis (f : RedisConfig -> RedisConfig) (c : Config) : Config :=
  {| app_config_ := app_config_ c; db_config_ := db_config_ c;
     redis_config_ := f (redis_config_ c); smpp_config_ := smpp_config_ c;
     api_config_ := api_config_ c; security_config_ := security_config_ c |}.

Definition set_app (f : AppConfig -> AppConfig) (c : Config) : Config :=
  {| app_config_ := f (app_config_ c); db_config_ := db_config_ c;
     redis_config_ := redis_config_ c; smpp_config_ := smpp_config_ c;
     api_config_ := api_config_ c; security_config_ := security_config_ c |}.

Definition set_smpp (f : SmppConfig -> SmppConfig) (c : Config) : Config :=
  {| app_config_ := app_config_ c; db_config_ := db_config_ c;
     redis_config_ := redis_config_ c; smpp_config_ := f (smpp_config_ c);
     api_config_ := api_config_ c; security_config_ := security_config_ c |}.

Definition set_api (f : ApiConfig -> ApiConfig) (c : Config) : Config :=
  {| app_config_ := app_config_ c; db_config_ := db_config_ c;
     redis_config_ := redis_config_ c; smpp_config_ := smpp_config_ c;
     api_config_ := f (api_config_ c); security_config_ := security_config_ c |}.

Definition set_security (f : SecurityConfig -> SecurityConfig) (c : Config) : Config :=
  {| app_config_ := app_config_ c; db_config_ := db_config_ c;
     redis_config_ := redis_config_ c; smpp_config_ := smpp_config_ c;
     api_config_ := api_config_ c; security_config_ := f (security_config_ c) |}.

Definition with_db_host v (d : DatabaseConfig) :=
  {| db_host := v; db_port := db_port d; db_database := db_database d;
     db_username := db_username d; db_password := db_password d;
     db_pool_size := db_pool_size d; db_max_connections := db_max_connections d;
     db_timeout_seconds := db_timeout_seconds d |}.
Definition with_db_port v (d : DatabaseConfig) :=
  {| db_host := db_host d; db_port := v; db_database := db_database d;
     db_username := db_username d; db_password := db_password d;
     db_pool_size := db_pool_size d; db_max_connections := db_max_connections d;
     db_timeout_seconds := db_timeout_seconds d |}.
Definition with_db_database v (d : DatabaseConfig) :=
  {| db_host := db_host d; db_port := db_port d; db_database := v;
     db_username := db_username d; db_password := db_password d;
     db_pool_size := db_pool_size d; db_max_connections := db_max_connections d;
     db_timeout_seconds := db_timeout_seconds d |}.
Definition with_db_username v (d : DatabaseConfig) :=
  {| db_host := db_host d; db_port := db_port d; db_database := db_database d;
     db_username := v; db_password := db_password d;
     db_pool_size := db_pool_size d; db_max_connections := db_max_connections d;
     db_timeout_seconds := db_timeout_seconds d |}.
Definition with_db_password v (d : DatabaseConfig) :=
  {| db_host := db_host d; db_port := db_port d; db_database := db_database d;
     db_username := db_username d; db_password := v;
     db_pool_size := db_pool_size d; db_max_connections := db_max_connections d;
     db_timeout_seconds := db_timeout_seconds d |}.
Definition with_redis_host v (r : RedisConfig) :=
  {| redis_enabled := redis_enabled r; redis_host := v; redis_port := redis_port r;
     redis_password := redis_password r; redis_database := redis_database r;
     redis_pool_size := redis_pool_size r; redis_timeout_ms := redis_timeout_ms r |}.
Definition with_redis_port v (r : RedisConfig) :=
  {| redis_enabled := redis_enabled r; redis_host := redis_host r; redis_port := v;
     redis_password := redis_password r; redis_database := redis_database r;
     redis_pool_size := redis_pool_size r; redis_timeout_ms := redis_timeout_ms r |}.
Definition with_redis_password v (r : RedisConfig) :=
  {| redis_enabled := redis_enabled r; redis_host := redis_host r; redis_port := redis_port r;
     redis_password := v; redis_database := redis_database r;
     redis_pool_size := redis_pool_size r; redis_timeout_ms := redis_timeout_ms r |}.
Definition with_redis_database v (r : RedisConfig) :=
  {| redis_enabled := redis_enabled r; redis_host := redis_host r; redis_port := redis_port r;
     redis_password := redis_password r; redis_database := v;
     redis_pool_size := redis_pool_size r; redis_timeout_ms := redis_timeout_ms r |}.
Definition with_environment v (a : AppConfig) :=
  {| app_name := app_name a; version := version a; build := build a;
     environment := v; base_dir := base_dir a; max_workers := max_workers a;
     queue_size := queue_size a; enable_monitoring := enable_monitoring a |}.

Definition with_secret_key v (s : SecurityConfig) :=
  {| secret_key := v; jwt_algorithm := jwt_algorithm s;
     access_token_expire_minutes := access_token_expire_minutes s;
     refresh_token_expire_days := refresh_token_expire_days s;
     password_min_length := password_min_length s;
     password_expiry_days := password_expiry_days s;
     max_failed_attempts := max_failed_attempts s;
     lockout_duration_minutes := lockout_duration_minutes s;
     enable_2fa := enable_2fa s |}.

(** *** The process environment and the parsed INI file *)

(** [std::getenv]: the environment maps a name to its value, or to nothing. *)
Definition getenv (env : gmap string string) (name : string) : option string :=
  env !! name.

(** A [boost::property_tree::ptree] read from an INI file: sections of
    key/value pairs ([read_ini] rejects duplicate sections and keys). *)
Definition get_child_optional (pt : gmap string (gmap string string)) (section : string)
  : option (gmap string string) :=
  pt !! section.

(** [node.get<std::string>(key, default)]. *)
Definition get_string (node : gmap string string) (key default : string) : string :=
  match node !! key with
  | Some v => v
  | None => default
  end.

(** [if (const char* v = std::getenv(name)) { field = v; }] *)
Definition assign_if {A : Type} (o : option A) (assign : A -> Config -> Config) (c : Config)
  : Config :=
  match o with
  | Some v => assign v c
  | None => c
  end.

(** *** Rendering of the secret key *)

Definition hex_digit (d : Z) : ascii :=
  match d with
  | 0 => "0" | 1 => "1" | 2 => "2" | 3 => "3" | 4 => "4" | 5 => "5" | 6 => "6" | 7 => "7"
  | 8 => "8" | 9 => "9" | 10 => "a" | 11 => "b" | 12 => "c" | 13 => "d" | 14 => "e"
  | _ => "f"
  end%char.

(** The hexadecimal digits of [n], most significant first, at least one digit;
    [fuel] bounds the number of digits (8 for a 32-bit value). *)
Fixpoint hex_digits (fuel : nat) (n : Z) (acc : string) : string :=
  match fuel with
  | O => acc
  | S fuel' =>
      let acc' := String (hex_digit (n mod 16)) acc in
      if (n / 16 =? 0)%Z then acc' else hex_digits fuel' (n / 16) acc'
  end.

(** [oss << std::hex << v] for an [int]: the digits of the value read as a
    32-bit unsigned number, in lowercase, without prefix. *)
Definition hex_of_int (v : Z) : string := hex_digits 8 (v mod 2 ^ 32) "".

Fixpoint fill_string (n : nat) (fill : ascii) : string :=
  match n with
  | O => ""
  | S n' => String fill (fill_string n' fill)
  end.

(** [std::setw(width) << std::setfill(fill)]: right-aligned in a field of at
    least [width] characters. *)
Definition pad_left (width : nat) (fill : ascii) (s : string) : string :=
  fill_string (width - String.length s) fill +:+ s.

(** One iteration of the loop of [generate_secret_key]:
    [oss << std::hex << std::setw(2) << std::setfill('0') << dis(gen)]. *)
Definition render_draw (v : Z) : string := pad_left 2 "0"%char (hex_of_int v).

(** The stream after the iterations [i, i + n). *)
Fixpoint render_draws (draw : nat -> Z) (i n : nat) : string :=
  match n with
  | O => ""
  | S n' => render_draw (draw i) +:+ render_draws draw (S i) n'
  end.

(** [generate_secret_key]: [draw i] is the value of [dis(gen)] in iteration
    [i] of the loop. *)
Definition generate_secret_key (draw : nat -> Z) (c : Config) : Config :=
  set_security (with_secret_key (render_draws draw 0 32)) c.

Definition is_lower_hex (a : ascii) : bool :=
  existsb (Ascii.eqb a) (list_ascii_of_string "0123456789abcdef").

(** Two lowercase hexadecimal digits. *)
Definition two_lower_hex (s : string) : bool :=
  Nat.eqb (String.length s) 2 && forallb is_lower_hex (list_ascii_of_string s).

(** A reader of the key: the value of a lowercase hexadecimal digit, and the
    byte that the two characters at positions [2 * i] and [2 * i + 1] of a
    text spell, high digit first. *)
Fixpoint position_from (i : Z) (a : ascii) (digits : list ascii) : option Z :=
  match digits with
  | [] => None
  | d :: rest => if Ascii.eqb a d then Some i else position_from (i + 1) a rest
  end.

Definition hex_value (a : ascii) : option Z :=
  position_from 0 a (list_ascii_of_string "0123456789abcdef").

Definition read_byte (s : string) (i : nat) : option Z :=
  match String.get (2 * i) s, String.get (2 * i + 1) s with
  | Some high, Some low =>
      match hex_value high, hex_value low with
      | Some h, Some l => Some (16 * h + l)
      | _, _ => None
      end
  | _, _ => None
  end.

(** Whether a text is two lowercase hexadecimal digits that spell [v], the
    high digit first. *)
Definition spells (v : Z) (s : string) : bool :=
  match s with
  | String high (String low EmptyString) =>
      match hex_value high, hex_value low with
      | Some h, Some l => (h =? v / 16)%Z && (l =? v mod 16)%Z
      | _, _ => false
      end
  | _ => false
  end.

(** *** Loading *)

(** [Config::load_from_env]. *)
Section Env.
(** The C library's [atoi]. *)
Variable atoi : string -> Z.

Definition load_from_env (env : gmap string string) (c : Config) : Config :=
  let c := assign_if (getenv env "DB_HOST") (fun v => set_db (with_db_host v)) c in
  let c := assign_if (getenv env "DB_PORT") (fun v => set_db (with_db_port (atoi v))) c in
  let c := assign_if (getenv env "DB_NAME") (fun v => set_db (with_db_database v)) c in
  let c := assign_if (getenv env "DB_USER") (fun v => set_db (with_db_username v)) c in
  let c := assign_if (getenv env "DB_PASSWORD") (fun v => set_db (with_db_password v)) c in
  let c := assign_if (getenv env "REDIS_HOST") (fun v => set_redis (with_redis_host v)) c in
  let c := assign_if (getenv env "REDIS_PORT") (fun v => set_redis (with_redis_port (atoi v))) c in
  let c := assign_if (getenv env "REDIS_PASSWORD")
             (fun v => set_redis (with_redis_password v)) c in
  let c := assign_if (getenv env "REDIS_DB")
             (fun v => set_redis (with_redis_database (atoi v))) c in
  let c := assign_if (getenv env "APP_ENV") (fun v => set_app (with_environment v)) c in
  let c := assign_if (getenv env "LOG_LEVEL") (fun _ c => c) c in
  c.

(** The constructor [Config::Config()]; the members start from their default
    initialisers. *)
Definition construct (env : gmap string string) (draw : nat -> Z) : Config :=
  let c := load_from_env env default_members in
  if String.eqb (secret_key (security_config_ c)) ""
  then generate_secret_key draw c
  else c.

End Env.

Section File.
(** Boost.PropertyTree's stream translators for [int] and [bool], and
    [read_ini] on the file system of the process. *)
Variable parse_int : string -> option Z.
Variable parse_bool : string -> option bool.
Variable read_ini : string -> outcome exception (gmap string (gmap string string)).

(** [node.get<int>(key, default)]: the default when the key is absent or its
    text does not translate. *)
Definition get_int (node : gmap string string) (key : string) (default : Z) : Z :=
  match node !! key with
  | Some v => match parse_int v with Some n => n | None => default end
  | None => default
  end.

(** [node.get<bool>(key, default)]. *)
Definition get_bool (node : gmap string string) (key : string) (default : bool) : bool :=
  match node !! key with
  | Some v => match parse_bool v with Some b => b | None => default end
  | None => default
  end.

Definition load_app_config (pt : gmap string (gmap string string)) (c : Config) : Config :=
  let c :=
    match get_child_optional pt "Application" with
    | Some app =>
        set_app (fun a =>
          {| app_name := get_string app "app_name" (app_name a);
             version := get_string app "version" (version a);
             build := get_string app "build" (build a);
             environment := get_string app "environment" (environment a);
             base_dir := base_dir a; max_workers := max_workers a;
             queue_size := queue_size a; enable_monitoring := enable_monitoring a |}) c
    | None => c
    end in
  let c :=
    match get_child_optional pt "Runtime" with
    | Some runtime =>
        set_app (fun a =>
          {| app_name := app_name a; version := version a; build := build a;
             environment := environment a; base_dir := base_dir a;
             max_workers := get_int runtime "max_workers" (max_workers a);
             queue_size := get_int runtime "queue_size" (queue_size a);
             enable_monitoring := enable_monitoring a |}) c
    | None => c
    end in
  match get_child_optional pt "Performance" with
  | Some perf =>
      set_app (fun a =>
        {| app_name := app_name a; version := version a; build := build a;
           environment := environment a; base_dir := base_dir a;
           max_workers := max_workers a; queue_size := queue_size a;
           enable_monitoring := get_bool perf "enable_monitoring" (enable_monitoring a) |}) c
  | None => c
  end.

(** [Config::load_db_config]; [env] is the environment at the time of the
    call. *)
Definition load_db_config (env : gmap string string) (pt : gmap string (gmap string string))
    (c : Config) : Config :=
  let has_env_db := bool_decide (is_Some (getenv env "DB_HOST")) in
  let c :=
    match get_child_optional pt "PostgreSQL" with
    | Some db =>
        set_db (fun d =>
          let d :=
            if negb has_env_db then
              {| db_host := get_string db "host" (db_host d);
                 db_port := get_int db "port" (db_port d);
                 db_database := get_string db "database" (db_database d);
                 db_username := get_string db "username" (db_username d);
                 db_password := get_string db "password" (db_password d);
                 db_pool_size := db_pool_size d;
                 db_max_connections := db_max_connections d;
                 db_timeout_seconds := db_timeout_seconds d |}
            else d in
          {| db_host := db_host d; db_port := db_port d; db_database := db_database d;
             db_username := db_username d; db_password := db_password d;
             db_pool_size := get_int db "pool_size" (db_pool_size d);
             db_max_connections := get_int db "max_connections" (db_max_connections d);
             db_timeout_seconds := db_timeout_seconds d |}) c
    | None => c
    end in
  let has_env_redis := bool_decide (is_Some (getenv env "REDIS_HOST")) in
  match get_child_optional pt "Redis" with
  | Some redis =>
      set_redis (fun r =>
        let enabled := get_bool redis "enabled" (redis_enabled r) in
        let r :=
          if negb has_env_redis then
            {| redis_enabled := enabled;
               redis_host := get_string redis "host" (redis_host r);
               redis_port := get_int redis "port" (redis_port r);
               redis_password := get_string redis "password" (redis_password r);
               redis_database := get_int redis "database" (redis_database r);
               redis_pool_size := redis_pool_size r;
               redis_timeout_ms := redis_timeout_ms r |}
          else
            {| redis_enabled := enabled; redis_host := redis_host r;
               redis_port := redis_port r; redis_password := redis_password r;
               redis_database := redis_database r; redis_pool_size := redis_pool_size r;
               redis_timeout_ms := redis_timeout_ms r |} in
        {| redis_enabled := redis_enabled r; redis_host := redis_host r;
           redis_port := redis_port r; redis_password := redis_password r;
           redis_database := redis_database r;
           redis_pool_size := get_int redis "pool_size" (redis_pool_size r);
           redis_timeout_ms := redis_timeout_ms r |}) c
  | None => c
  end.

Definition load_protocol_config (pt : gmap string (gmap string string)) (c : Config) : Config :=
  let c :=
    match get_child_optional pt "SMPP" with
    | Some smpp =>
        set_smpp (fun s =>
          {| smpp_enabled := get_bool smpp "enabled" (smpp_enabled s);
             smpp_bind_address := get_string smpp "bind_address" (smpp_bind_address s);
             smpp_bind_port := get_int smpp "bind_port" (smpp_bind_port s);
             smpp_system_id := get_string smpp "system_id" (smpp_system_id s);
             smpp_max_connections := get_int smpp "max_connections" (smpp_max_connections s);
             enquire_link_interval :=
               get_int smpp "enquire_link_interval" (enquire_link_interval s);
             window_size := window_size s |}) c
    | None => c
    end in
  match get_child_optional pt "HTTP" with
  | Some http =>
      set_api (fun a =>
        {| api_enabled := get_bool http "enabled" (api_enabled a);
           api_bind_address := get_string http "bind_address" (api_bind_address a);
           api_bind_port := get_int http "bind_port" (api_bind_port a);
           enable_https := get_bool http "enable_https" (enable_https a);
           ssl_cert_file := get_string http "ssl_cert_file" (ssl_cert_file a);
           ssl_key_file := get_string http "ssl_key_file" (ssl_key_file a);
           enable_cors := enable_cors a; max_body_size_mb := max_body_size_mb a;
           thread_pool_size := thread_pool_size a |}) c
  | None => c
  end.

Definition load_security_config (pt : gmap string (gmap string string)) (c : Config) : Config :=
  let c :=
    match get_child_optional pt "Authentication" with
    | Some auth =>
        set_security (fun s =>
          {| secret_key := secret_key s; jwt_algorithm := jwt_algorithm s;
             access_token_expire_minutes :=
               get_int auth "session_timeout" (access_token_expire_minutes s);
             refresh_token_expire_days := refresh_token_expire_days s;
             password_min_length := password_min_length s;
             password_expiry_days := password_expiry_days s;
             max_failed_attempts := max_failed_attempts s;
             lockout_duration_minutes := lockout_duration_minutes s;
             enable_2fa := enable_2fa s |}) c
    | None => c
    end in
  match get_child_optional pt "Password_Policy" with
  | Some pwd =>
      set_security (fun s =>
        {| secret_key := secret_key s; jwt_algorithm := jwt_algorithm s;
           access_token_expire_minutes := access_token_expire_minutes s;
           refresh_token_expire_days := refresh_token_expire_days s;
           password_min_length := get_int pwd "min_length" (password_min_length s);
           password_expiry_days := get_int pwd "password_expiry_days" (password_expiry_days s);
           max_failed_attempts := max_failed_attempts s;
           lockout_duration_minutes := lockout_duration_minutes s;
           enable_2fa := enable_2fa s |}) c
  | None => c
  end.

(** [Config::load_from_file]: the outcome of the call and the members after
    it.  Only [read_ini] throws; it does so before any member is assigned.  The
    handler catches [const std::exception&] and rethrows a [runtime_error]. *)
Definition load_from_file (env : gmap string string) (config_file : string) (c : Config)
  : outcome exception unit * Config :=
  match read_ini config_file with
  | Returned pt =>
      let c := load_app_config pt c in
      let c := load_db_config env pt c in
      let c := load_protocol_config pt c in
      let c := load_security_config pt c in
      (Returned tt, c)
  | Thrown (std_exception w) =>
      (Thrown (std_exception ("Failed to load config file: " +:+ w)), c)
  | Thrown foreign_exception => (Thrown foreign_exception, c)
  end.

End File.

(** *** What a file can and cannot assign *)

(** The section names [load_from_file] looks for. *)
Definition known_sections : list string :=
  [ "Application"; "Runtime"; "Performance"; "PostgreSQL"; "Redis"; "SMPP"; "HTTP";
    "Authentication"; "Password_Policy" ].

(** The members none of the four loaders of [load_from_file] assigns. *)
Definition members_no_file_assigns (c : Config)
  : string * Z * Z * Z * (bool * Z * Z) * (string * string * Z * Z * Z * bool) :=
  (base_dir (app_config_ c),
   db_timeout_seconds (db_config_ c),
   redis_timeout_ms (redis_config_ c),
   window_size (smpp_config_ c),
   (enable_cors (api_config_ c), max_body_size_mb (api_config_ c),
    thread_pool_size (api_config_ c)),
   (secret_key (security_config_ c), jwt_algorithm (security_config_ c),
    refresh_token_expire_days (security_config_ c),
    max_failed_attempts (security_config_ c),
    lockout_duration_minutes (security_config_ c), enable_2fa (security_config_ c))).

(** The variables [load_from_env] assigns a member from. *)
Definition environment_names : list string :=
  [ "DB_HOST"; "DB_PORT"; "DB_NAME"; "DB_USER"; "DB_PASSWORD";
    "REDIS_HOST"; "REDIS_PORT"; "REDIS_PASSWORD"; "REDIS_DB"; "APP_ENV" ].

Section FileSequence.
Variable parse_int : string -> option Z.
Variable parse_bool : string -> option bool.
Variable read_ini : string -> outcome exception (gmap string (gmap string string)).

(** Calls of [load_from_file] one after the other, each with the environment
    of its time and its file name; a call that throws is caught by the caller
    and the next one is made. *)
Definition load_files (loads : list (gmap string string * string)) (c : Config) : Config :=
  fold_left (fun c load => snd (load_from_file parse_int parse_bool read_ini
                                   (fst load) (snd load) c)) loads c.

End FileSequence.

(** [DatabaseConfig::get_connection_string]. *)
Definition get_connection_string (d : DatabaseConfig) : string :=
  "host=" +:+ db_host d +:+
  " port=" +:+ Format.to_string (db_port d) +:+
  " dbname=" +:+ db_database d +:+
  " user=" +:+ db_username d +:+
  " password=" +:+ db_password d +:+
  " connect_timeout=" +:+ Format.to_string (db_timeout_seconds d).

End Config.


(** ** The cache client (redis_client.hpp, redis_client.cpp) *)

Module Redis.

Open Scope string_scope.

(** The connection object of the client library, [sw::redis::Redis]: what each
    of its commands returns, or throws, when issued.  A [long long] is a [Z], a
    [std::chrono::seconds] a number of seconds, a [double] an IEEE 754 value. *)
Record Redis : Type := mkRedis {
  redis_set : string -> string -> outcome exception bool;
  redis_set_ttl : string -> string -> Z -> outcome exception bool;
  redis_get : string -> outcome exception (option string);
  redis_del : string -> outcome exception Z;
  redis_exists : string -> outcome exception Z;
  redis_hset : string -> string -> string -> outcome exception bool;
  redis_hget : string -> string -> outcome exception (option string);
  redis_hgetall : string -> outcome exception (list (string * string));
  redis_hdel : string -> string -> outcome exception Z;
  redis_lpush : string -> string -> outcome exception Z;
  redis_rpush : string -> string -> outcome exception Z;
  redis_lpop : string -> outcome exception (option string);
  redis_rpop : string -> outcome exception (option string);
  redis_llen : string -> outcome exception Z;
  redis_sadd : string -> string -> outcome exception Z;
  redis_sismember : string -> string -> outcome exception bool;
  redis_smembers : string -> outcome exception (list string);
  redis_zadd : string -> string -> SpecFloat.spec_float -> outcome exception Z;
  redis_zrange : string -> Z -> Z -> outcome exception (list string);
  redis_ping : outcome exception string;
  redis_incr : string -> outcome exception Z;
  redis_decr : string -> outcome exception Z;
  redis_expire : string -> Z -> outcome exception bool;
  redis_publish : string -> string -> outcome exception Z
}.

(** The data members of [class RedisClient]; [redis_] is a [std::unique_ptr],
    null or owning a connection object. *)
Record RedisClient : Type := mkRedisClient {
  redis_ : option Redis;
  initialized_ : bool
}.

(** The members after the defaulted constructor. *)
Definition fresh : RedisClient := {| redis_ := None; initialized_ := false |}.

(** How a member function ends: it returns, it lets an exception escape to
    its caller, or it has undefined behaviour (a null [redis_] dereferenced). *)
Inductive behaviour (A : Type) : Type :=
| Returns (a : A)
| Propagates (e : exception)
| Undefined.
Arguments Returns {A} a.
Arguments Propagates {A} e.
Arguments Undefined {A}.

#[export] Instance behaviour_bind : MBind behaviour := fun A B k m =>
  match m with
  | Returns a => k a
  | Propagates e => Propagates e
  | Undefined => Undefined
  end.

(** [redis_->]: dereferencing the pointer. *)
Definition deref (p : option Redis) : behaviour Redis :=
  match p with
  | Some r => Returns r
  | None => Undefined
  end.

(** A library call made from the client. *)
Definition call {A : Type} (o : outcome exception A) : behaviour A :=
  match o with
  | Returned a => Returns a
  | Thrown e => Propagates e
  end.

(** [try { body } catch (...) { handler }]. *)
Definition try_catch_all {A : Type} (body : behaviour A) (handler : behaviour A)
  : behaviour A :=
  match body with
  | Propagates _ => handler
  | _ => body
  end.

(** [std::inserter] into an empty [std::unordered_map]: the first pair of a
    key is kept. *)
Definition insert_pairs (l : list (string * string)) : gmap string string :=
  list_to_map l.

Definition insert_members (l : list string) : gset string := list_to_set l.

(** *** String operations *)

Definition set (c : RedisClient) (key value : string) : behaviour bool :=
  if negb (initialized_ c) then Returns false
  else
    try_catch_all (r ← deref (redis_ c); _ ← call (redis_set r key value); Returns true)
      (Returns false).

Definition set_ttl (c : RedisClient) (key value : string) (ttl : Z) : behaviour bool :=
  if negb (initialized_ c) then Returns false
  else
    try_catch_all (r ← deref (redis_ c); _ ← call (redis_set_ttl r key value ttl); Returns true)
      (Returns false).

Definition get (c : RedisClient) (key : string) : behaviour (option string) :=
  if negb (initialized_ c) then Returns None
  else
    try_catch_all (r ← deref (redis_ c); val ← call (redis_get r key);
         match val with Some v => Returns (Some v) | None => Returns None end)
      (Returns None).

Definition del (c : RedisClient) (key : string) : behaviour bool :=
  if negb (initialized_ c) then Returns false
  else
    try_catch_all (r ← deref (redis_ c); n ← call (redis_del r key); Returns (0 <? n)%Z)
      (Returns false).

Definition exists_ (c : RedisClient) (key : string) : behaviour bool :=
  if negb (initialized_ c) then Returns false
  else
    try_catch_all (r ← deref (redis_ c); n ← call (redis_exists r key); Returns (0 <? n)%Z)
      (Returns false).

(** *** Hash operations *)

Definition hset (c : RedisClient) (key field value : string) : behaviour bool :=
  if negb (initialized_ c) then Returns false
  else
    try_catch_all (r ← deref (redis_ c); b ← call (redis_hset r key field value); Returns b)
      (Returns false).

Definition hget (c : RedisClient) (key field : string) : behaviour (option string) :=
  if negb (initialized_ c) then Returns None
  else
    try_catch_all (r ← deref (redis_ c); val ← call (redis_hget r key field);
         match val with Some v => Returns (Some v) | None => Returns None end)
      (Returns None).

Definition hgetall (c : RedisClient) (key : string) : behaviour (gmap string string) :=
  if negb (initialized_ c) then Returns ∅
  else
    try_catch_all (r ← deref (redis_ c); l ← call (redis_hgetall r key);
         Returns (insert_pairs l))
      (Returns ∅).

Definition hdel (c : RedisClient) (key field : string) : behaviour bool :=
  if negb (initialized_ c) then Returns false
  else
    try_catch_all (r ← deref (redis_ c); n ← call (redis_hdel r key field); Returns (0 <? n)%Z)
      (Returns false).

(** *** List operations *)

Definition lpush (c : RedisClient) (key value : string) : behaviour Z :=
  if negb (initialized_ c) then Returns 0
  else
    try_catch_all (r ← deref (redis_ c); n ← call (redis_lpush r key value); Returns n)
      (Returns 0).

Definition rpush (c : RedisClient) (key value : string) : behaviour Z :=
  if negb (initialized_ c) then Returns 0
  else
    try_catch_all (r ← deref (redis_ c); n ← call (redis_rpush r key value); Returns n)
      (Returns 0).

Definition lpop (c : RedisClient) (key : string) : behaviour (option string) :=
  if negb (initialized_ c) then Returns None
  else
    try_catch_all (r ← deref (redis_ c); val ← call (redis_lpop r key);
         match val with Some v => Returns (Some v) | None => Returns None end)
      (Returns None).

Definition rpop (c : RedisClient) (key : string) : behaviour (option string) :=
  if negb (initialized_ c) then Returns None
  else
    try_catch_all (r ← deref (redis_ c); val ← call (redis_rpop r key);
         match val with Some v => Returns (Some v) | None => Returns None end)
      (Returns None).

Definition llen (c : RedisClient) (key : string) : behaviour Z :=
  if negb (initialized_ c) then Returns 0
  else
    try_catch_all (r ← deref (redis_ c); n ← call (redis_llen r key); Returns n)
      (Returns 0).

(** *** Set operations *)

Definition sadd (c : RedisClient) (key member : string) : behaviour bool :=
  if negb (initialized_ c) then Returns false
  else
    try_catch_all (r ← deref (redis_ c); n ← call (redis_sadd r key member); Returns (0 <? n)%Z)
      (Returns false).

Definition sismember (c : RedisClient) (key member : string) : behaviour bool :=
  if negb (initialized_ c) then Returns false
  else
    try_catch_all (r ← deref (redis_ c); b ← call (redis_sismember r key member); Returns b)
      (Returns false).

Definition smembers (c : RedisClient) (key : string) : behaviour (gset string) :=
  if negb (initialized_ c) then Returns ∅
  else
    try_catch_all (r ← deref (redis_ c); l ← call (redis_smembers r key);
         Returns (insert_members l))
      (Returns ∅).

(** *** Sorted set operations *)

Definition zadd (c : RedisClient) (key : string) (score : SpecFloat.spec_float)
    (member : string) : behaviour bool :=
  if negb (initialized_ c) then Returns false
  else
    try_catch_all (r ← deref (redis_ c); n ← call (redis_zadd r key member score);
         Returns (0 <? n)%Z)
      (Returns false).

Definition zrange (c : RedisClient) (key : string) (start stop : Z)
  : behaviour (list string) :=
  if negb (initialized_ c) then Returns []
  else
    try_catch_all (r ← deref (redis_ c); l ← call (redis_zrange r key start stop); Returns l)
      (Returns []).

(** *** Utility *)

Definition ping (c : RedisClient) : behaviour bool :=
  if negb (initialized_ c) then Returns false
  else
    try_catch_all (r ← deref (redis_ c); _ ← call (redis_ping r); Returns true)
      (Returns false).

Definition incr (c : RedisClient) (key : string) : behaviour Z :=
  if negb (initialized_ c) then Returns 0
  else
    try_catch_all (r ← deref (redis_ c); n ← call (redis_incr r key); Returns n)
      (Returns 0).

Definition decr (c : RedisClient) (key : string) : behaviour Z :=
  if negb (initialized_ c) then Returns 0
  else
    try_catch_all (r ← deref (redis_ c); n ← call (redis_decr r key); Returns n)
      (Returns 0).

Definition expire (c : RedisClient) (key : string) (ttl : Z) : behaviour bool :=
  if negb (initialized_ c) then Returns false
  else
    try_catch_all (r ← deref (redis_ c); b ← call (redis_expire r key ttl); Returns b)
      (Returns false).

(** *** Pub/Sub *)

Definition publish (c : RedisClient) (channel message : string) : behaviour unit :=
  if negb (initialized_ c) then Returns tt
  else
    try_catch_all (r ← deref (redis_ c); _ ← call (redis_publish r channel message); Returns tt)
      (Returns tt).

(** *** Life cycle *)

(** The handler of [initialize]: [catch (const std::exception& e)] rethrows a
    [runtime_error]; any other exception passes through. *)
Definition initialize_rethrow (e : exception) : exception :=
  match e with
  | std_exception w => std_exception ("Failed to initialize Redis: " +:+ w)
  | foreign_exception => foreign_exception
  end.

(** [RedisClient::initialize]; [make_redis] is the constructor of the
    connection object from the options filled in from the configuration. *)
Definition initialize (make_redis : Config.RedisConfig -> outcome exception Redis)
    (config : Config.RedisConfig) (c : RedisClient) : outcome exception unit * RedisClient :=
  if initialized_ c then (Returned tt, c)
  else if negb (Config.redis_enabled config) then (Returned tt, c)
  else
    match make_redis config with
    | Thrown e => (Thrown (initialize_rethrow e), c)
    | Returned r =>
        let c := {| redis_ := Some r; initialized_ := initialized_ c |} in
        match redis_ping r with
        | Thrown e => (Thrown (initialize_rethrow e), c)
        | Returned _ => (Returned tt, {| redis_ := redis_ c; initialized_ := true |})
        end
    end.

(** [RedisClient::shutdown]. *)
Definition shutdown (c : RedisClient) : RedisClient :=
  {| redis_ := None; initialized_ := false |}.

(** The class invariant: an initialized client owns a connection object. *)
Definition connected_if_initialized (c : RedisClient) : Prop :=
  initialized_ c = true -> is_Some (redis_ c).

(** *** Callers of the life cycle *)

(** A call of one of the two member functions that change the client;
    [make_redis] says what the constructor of the connection object does at
    the time of the call. *)
Inductive LifeCycleCall : Type :=
| CallInitialize (make_redis : Config.RedisConfig -> outcome exception Redis)
    (config : Config.RedisConfig)
| CallShutdown.

(** The client after a call; the caller catches what [initialize] throws. *)
Definition after_call (c : RedisClient) (member : LifeCycleCall) : RedisClient :=
  match member with
  | CallInitialize make_redis config => snd (initialize make_redis config c)
  | CallShutdown => shutdown c
  end.

Definition after_calls (calls : list LifeCycleCall) (c : RedisClient) : RedisClient :=
  fold_left after_call calls c.

(** *** The operations as one interface *)

Inductive Request : Type :=
| ReqSet (key value : string)
| ReqSetTtl (key value : string) (ttl : Z)
| ReqGet (key : string)
| ReqDel (key : string)
| ReqExists (key : string)
| ReqHSet (key field value : string)
| ReqHGet (key field : string)
| ReqHGetAll (key : string)
| ReqHDel (key field : string)
| ReqLPush (key value : string)
| ReqRPush (key value : string)
| ReqLPop (key : string)
| ReqRPop (key : string)
| ReqLLen (key : string)
| ReqSAdd (key member : string)
| ReqSIsMember (key member : string)
| ReqSMembers (key : string)
| ReqZAdd (key : string) (score : SpecFloat.spec_float) (member : string)
| ReqZRange (key : string) (start stop : Z)
| ReqPing
| ReqIncr (key : string)
| ReqDecr (key : string)
| ReqExpire (key : string) (ttl : Z)
| ReqPublish (channel message : string).

(** The values of the return types of the operations. *)
Inductive Value : Type :=
| VBool (b : bool)
| VOptional (o : option string)
| VLongLong (n : Z)
| VMap (m : gmap string string)
| VSet (s : gset string)
| VVector (l : list string)
| VVoid.

Definition fmap_behaviour {A B : Type} (f : A -> B) (m : behaviour A) : behaviour B :=
  match m with
  | Returns a => Returns (f a)
  | Propagates e => Propagates e
  | Undefined => Undefined
  end.

Definition perform (c : RedisClient) (req : Request) : behaviour Value :=
  match req with
  | ReqSet k v => fmap_behaviour VBool (set c k v)
  | ReqSetTtl k v ttl => fmap_behaviour VBool (set_ttl c k v ttl)
  | ReqGet k => fmap_behaviour VOptional (get c k)
  | ReqDel k => fmap_behaviour VBool (del c k)
  | ReqExists k => fmap_behaviour VBool (exists_ c k)
  | ReqHSet k f v => fmap_behaviour VBool (hset c k f v)
  | ReqHGet k f => fmap_behaviour VOptional (hget c k f)
  | ReqHGetAll k => fmap_behaviour VMap (hgetall c k)
  | ReqHDel k f => fmap_behaviour VBool (hdel c k f)
  | ReqLPush k v => fmap_behaviour VLongLong (lpush c k v)
  | ReqRPush k v => fmap_behaviour VLongLong (rpush c k v)
  | ReqLPop k => fmap_behaviour VOptional (lpop c k)
  | ReqRPop k => fmap_behaviour VOptional (rpop c k)
  | ReqLLen k => fmap_behaviour VLongLong (llen c k)
  | ReqSAdd k m => fmap_behaviour VBool (sadd c k m)
  | ReqSIsMember k m => fmap_behaviour VBool (sismember c k m)
  | ReqSMembers k => fmap_behaviour VSet (smembers c k)
  | ReqZAdd k score m => fmap_behaviour VBool (zadd c k score m)
  | ReqZRange k start stop => fmap_behaviour VVector (zrange c k start stop)
  | ReqPing => fmap_behaviour VBool (ping c)
  | ReqIncr k => fmap_behaviour VLongLong (incr c k)
  | ReqDecr k => fmap_behaviour VLongLong (decr c k)
  | ReqExpire k ttl => fmap_behaviour VBool (expire c k ttl)
  | ReqPublish ch msg => fmap_behaviour (fun _ => VVoid) (publish c ch msg)
  end.

(** The failure default of the return type of each operation: [false],
    [std::nullopt], [0], an empty container, or nothing for [void]. *)
Definition failure_default (req : Request) : Value :=
  match req with
  | ReqSet _ _ | ReqSetTtl _ _ _ | ReqDel _ | ReqExists _ | ReqHSet _ _ _ | ReqHDel _ _
  | ReqSAdd _ _ | ReqSIsMember _ _ | ReqZAdd _ _ _ | ReqPing | ReqExpire _ _ => VBool false
  | ReqGet _ | ReqHGet _ _ | ReqLPop _ | ReqRPop _ => VOptional None
  | ReqLPush _ _ | ReqRPush _ _ | ReqLLen _ | ReqIncr _ | ReqDecr _ => VLongLong 0
  | ReqHGetAll _ => VMap ∅
  | ReqSMembers _ => VSet ∅
  | ReqZRange _ _ _ => VVector []
  | ReqPublish _ _ => VVoid
  end.

(** Whether the library call the operation makes throws. *)
Definition library_throws (r : Redis) (req : Request) : bool :=
  match req with
  | ReqSet k v => is_thrown (redis_set r k v)
  | ReqSetTtl k v ttl => is_thrown (redis_set_ttl r k v ttl)
  | ReqGet k => is_thrown (redis_get r k)
  | ReqDel k => is_thrown (redis_del r k)
  | ReqExists k => is_thrown (redis_exists r k)
  | ReqHSet k f v => is_thrown (redis_hset r k f v)
  | ReqHGet k f => is_thrown (redis_hget r k f)
  | ReqHGetAll k => is_thrown (redis_hgetall r k)
  | ReqHDel k f => is_thrown (redis_hdel r k f)
  | ReqLPush k v => is_thrown (redis_lpush r k v)
  | ReqRPush k v => is_thrown (redis_rpush r k v)
  | ReqLPop k => is_thrown (redis_lpop r k)
  | ReqRPop k => is_thrown (redis_rpop r k)
  | ReqLLen k => is_thrown (redis_llen r k)
  | ReqSAdd k m => is_thrown (redis_sadd r k m)
  | ReqSIsMember k m => is_thrown (redis_sismember r k m)
  | ReqSMembers k => is_thrown (redis_smembers r k)
  | ReqZAdd k score m => is_thrown (redis_zadd r k m score)
  | ReqZRange k start stop => is_thrown (redis_zrange r k start stop)
  | ReqPing => is_thrown (redis_ping r)
  | ReqIncr k => is_thrown (redis_incr r k)
  | ReqDecr k => is_thrown (redis_decr r k)
  | ReqExpire k ttl => is_thrown (redis_expire r k ttl)
  | ReqPublish ch msg => is_thrown (redis_publish r ch msg)
  end.

(** A server that cannot be reached: every command throws. *)
Definition unreachable_server : Redis :=
  let e := std_exception "Connection refused" in
  {| redis_set := fun _ _ => Thrown e; redis_set_ttl := fun _ _ _ => Thrown e;
     redis_get := fun _ => Thrown e; redis_del := fun _ => Thrown e;
     redis_exists := fun _ => Thrown e; redis_hset := fun _ _ _ => Thrown e;
     redis_hget := fun _ _ => Thrown e; redis_hgetall := fun _ => Thrown e;
     redis_hdel := fun _ _ => Thrown e; redis_lpush := fun _ _ => Thrown e;
     redis_rpush := fun _ _ => Thrown e; redis_lpop := fun _ => Thrown e;
     redis_rpop := fun _ => Thrown e; redis_llen := fun _ => Thrown e;
     redis_sadd := fun _ _ => Thrown e; redis_sismember := fun _ _ => Thrown e;
     redis_smembers := fun _ => Thrown e; redis_zadd := fun _ _ _ => Thrown e;
     redis_zrange := fun _ _ _ => Thrown e; redis_ping := Thrown e;
     redis_incr := fun _ => Thrown e; redis_decr := fun _ => Thrown e;
     redis_expire := fun _ _ => Thrown e; redis_publish := fun _ _ => Thrown e |}.

End Redis.

(** ** The connection pool (database.hpp, database.cpp) *)

Module Database.

Open Scope string_scope.

(** A [std::shared_ptr<Connection>], never null here: the identity of the
    connection object it points to. *)
Definition ConnectionPtr : Type := nat.

(** A [pqxx::work] opened on a connection. *)
Definition Work : Type := ConnectionPtr.

(** The data members of [class Database]; the front of the queue is the head
    of the list. *)
Record Database : Type := mkDatabase {
  connection_string_ : string;
  pool_size_ : Z;
  initialized_ : bool;
  available_ : list ConnectionPtr;
  all_connections_ : list ConnectionPtr
}.

(** The pool together with what it shares with the rest of the process: the
    connection objects that are open, the next object [std::make_shared]
    creates, and the log of the calls of [return_connection] made so far
    (oldest first). *)
Record World : Type := mkWorld {
  db : Database;
  open_connections : gset ConnectionPtr;
  next_connection : ConnectionPtr;
  returned : list ConnectionPtr
}.

Definition set_available (q : list ConnectionPtr) (w : World) : World :=
  {| db := {| connection_string_ := connection_string_ (db w);
              pool_size_ := pool_size_ (db w);
              initialized_ := initialized_ (db w);
              available_ := q;
              all_connections_ := all_connections_ (db w) |};
     open_connections := open_connections w;
     next_connection := next_connection w;
     returned := returned w |}.

(** [conn->is_open()]. *)
Definition is_open (w : World) (conn : ConnectionPtr) : bool :=
  bool_decide (conn ∈ open_connections w).

(** Code that runs on the world and returns or throws. *)
Definition M (A : Type) : Type := World -> outcome exception A * World.

#[export] Instance M_ret : MRet M := fun A a w => (Returned a, w).

#[export] Instance M_bind : MBind M := fun A B k m w =>
  match m w with
  | (Returned a, w') => k a w'
  | (Thrown e, w') => (Thrown e, w')
  end.

Definition throw {A : Type} (e : exception) : M A := fun w => (Thrown e, w).

(** [try { body } catch (...) { handler }]. *)
Definition try_catch_all {A : Type} (body : M A) (handler : exception -> M A) : M A :=
  fun w =>
    match body w with
    | (Returned a, w') => (Returned a, w')
    | (Thrown e, w') => handler e w'
    end.

Section Pool.
(** Whether the database server accepts a new connection for a connection
    string (the constructor of [Connection] throws when it does not). *)
Variable can_connect : string -> bool.
(** How a connection string that the server does not accept fails.  The
    member initialiser [conn_(conn_str)] runs the constructor of
    [pqxx::connection], which throws when no connection is made (libpqxx
    throws [pqxx::broken_connection] with the text of libpq): [Some e] is that
    exception.  [None] is a constructor that returns a connection that is not
    open, which the body of [Connection::Connection] then reports itself. *)
Variable connect_error : string -> option exception.
(** What the other threads of the process do to the world while a call waits
    on the condition variable, for at most 30 seconds. *)
Variable wait_for : World -> World.

(** What the constructor [Connection::Connection] throws for a connection
    string that the server does not accept. *)
Definition connection_failure (conn_str : string) : exception :=
  match connect_error conn_str with
  | Some e => e
  | None => std_exception "Failed to open database connection"
  end.

(** [std::make_shared<Connection>(connection_string_)]. *)
Definition make_connection : M ConnectionPtr := fun w =>
  if can_connect (connection_string_ (db w)) then
    (Returned (next_connection w),
     {| db := db w;
        open_connections := {[ next_connection w ]} ∪ open_connections w;
        next_connection := S (next_connection w);
        returned := returned w |})
  else (Thrown (connection_failure (connection_string_ (db w))), w).

(** The second half of [get_connection]: the front of the queue is popped; a
    connection that is no longer open is replaced by a new one. *)
Definition take_front (conn : ConnectionPtr) (rest : list ConnectionPtr)
  : M ConnectionPtr := fun w =>
  let w := set_available rest w in
  if negb (is_open w conn) then make_connection w
  else (Returned conn, w).

(** [Database::get_connection]: on an empty queue the call waits; when the
    queue is still empty after the wait, it throws. *)
Definition get_connection : M ConnectionPtr := fun w =>
  match available_ (db w) with
  | [] =>
      let w := wait_for w in
      match available_ (db w) with
      | [] =>
          (Thrown (std_exception "Connection pool timeout - no connections available"),
           w)
      | conn :: rest => take_front conn rest w
      end
  | conn :: rest => take_front conn rest w
  end.

(** [Database::return_connection]; the call is logged, the queue takes the
    connection back only when it is open. *)
Definition return_connection (conn : ConnectionPtr) : M unit := fun w =>
  let w := {| db := db w; open_connections := open_connections w;
              next_connection := next_connection w;
              returned := returned w ++ [conn] |} in
  if is_open w conn then (Returned tt, set_available (available_ (db w) ++ [conn]) w)
  else (Returned tt, w).

(** [Database::execute]. *)
Definition execute {R : Type} (func : ConnectionPtr -> M R) : M R :=
  conn ← get_connection;
  try_catch_all
    (result ← func conn;
     _ ← return_connection conn;
     mret result)
    (fun e =>
     _ ← return_connection conn;
     throw e).

(** *** Life cycle of the pool *)

(** [size_t] from an [int]: the conversion wraps modulo 2^64. *)
Definition size_t_of_int (v : Z) : Z := v mod 2 ^ 64.

Definition set_database (d : Database) (w : World) : World :=
  {| db := d; open_connections := open_connections w;
     next_connection := next_connection w; returned := returned w |}.

(** [all_connections_.push_back(conn); available_.push(conn);] *)
Definition register_connection (conn : ConnectionPtr) (w : World) : World :=
  set_database
    {| connection_string_ := connection_string_ (db w); pool_size_ := pool_size_ (db w);
       initialized_ := initialized_ (db w);
       available_ := available_ (db w) ++ [conn];
       all_connections_ := all_connections_ (db w) ++ [conn] |} w.

(** [all_connections_.clear()] and the loop that pops [available_] empty. *)
Definition clear_pool (w : World) : World :=
  set_database
    {| connection_string_ := connection_string_ (db w); pool_size_ := pool_size_ (db w);
       initialized_ := initialized_ (db w); available_ := []; all_connections_ := [] |} w.

Definition set_initialized (b : bool) (w : World) : World :=
  set_database
    {| connection_string_ := connection_string_ (db w); pool_size_ := pool_size_ (db w);
       initialized_ := b; available_ := available_ (db w);
       all_connections_ := all_connections_ (db w) |} w.

(** The handler in the loop of [create_pool]: [catch (const std::exception&)]
    throws a [runtime_error]; any other exception passes through. *)
Definition create_pool_rethrow (e : exception) : exception :=
  match e with
  | std_exception w => std_exception ("Failed to create connection pool: " +:+ w)
  | foreign_exception => foreign_exception
  end.

(** The loop of [create_pool] with [n] iterations to go. *)
Fixpoint create_connections (n : nat) : M unit := fun w =>
  match n with
  | O => (Returned tt, w)
  | S n' =>
      match make_connection w with
      | (Returned conn, w) => create_connections n' (register_connection conn w)
      | (Thrown e, w) => (Thrown (create_pool_rethrow e), w)
      end
  end.

(** [Database::create_pool]. *)
Definition create_pool : M unit := fun w =>
  let w := clear_pool w in
  create_connections (Z.to_nat (pool_size_ (db w))) w.

(** [Database::initialize]. *)
Definition initialize (config : Config.DatabaseConfig) : M unit := fun w =>
  if initialized_ (db w) then (Returned tt, w)
  else
    let w :=
      set_database
        {| connection_string_ := Config.get_connection_string config;
           pool_size_ := size_t_of_int (Config.db_pool_size config);
           initialized_ := initialized_ (db w); available_ := available_ (db w);
           all_connections_ := all_connections_ (db w) |} w in
    match create_pool w with
    | (Returned _, w) => (Returned tt, set_initialized true w)
    | (Thrown e, w) => (Thrown e, w)
    end.

(** [Database::shutdown]. *)
Definition shutdown : M unit := fun w =>
  if negb (initialized_ (db w)) then (Returned tt, w)
  else (Returned tt, set_initialized false (clear_pool w)).

(** [Database::pool_size] and [Database::available_connections]. *)
Definition pool_size (w : World) : Z := pool_size_ (db w).

Definition available_connections (w : World) : Z := Z.of_nat (length (available_ (db w))).

(** The members after the defaulted constructor, in a process that has
    created no connection object yet. *)
Definition fresh : World :=
  {| db := {| connection_string_ := ""; pool_size_ := 20; initialized_ := false;
              available_ := []; all_connections_ := [] |};
     open_connections := ∅; next_connection := 0%nat; returned := [] |}.

(** A caller that runs [execute] once for each callback of a list, one call
    after the other, going on after a call that threw; what each call handed
    back, in order. *)
Fixpoint execute_each {R : Type} (funcs : list (ConnectionPtr -> M R)) (w : World)
  : list (outcome exception R) * World :=
  match funcs with
  | [] => ([], w)
  | func :: rest =>
      let (r, w1) := execute func w in
      let (rs, w2) := execute_each rest w1 in
      (r :: rs, w2)
  end.

Section Transaction.
(** The constructor and the commit of [pqxx::work]. *)
Variable work_begin : ConnectionPtr -> M Work.
Variable work_commit : Work -> M unit.

(** [Database::transaction]. *)
Definition transaction {R : Type} (func : Work -> M R) : M R :=
  conn ← get_connection;
  try_catch_all
    (txn ← work_begin conn;
     result ← func txn;
     _ ← work_commit txn;
     _ ← return_connection conn;
     mret result)
    (fun e =>
     _ ← return_connection conn;
     throw e).

(** What the callback and the transaction around it do between the
    acquisition of the connection and its return. *)
Definition transaction_body {R : Type} (func : Work -> M R) (conn : ConnectionPtr) : M R :=
  txn ← work_begin conn;
  result ← func txn;
  _ ← work_commit txn;
  mret result.

End Transaction.

End Pool.

End Database.

(** ** The submission window *)

(** The repository holds no window manager: of the windowing subsystem only
    the configured capacity, [SmppConfig::window_size], exists.  This module
    gives the window the behaviour section 3 and section 4.3 of the
    specification describe. *)
Module WindowManager.

Open Scope Z_scope.

(** Modelled from the spec: an [InFlightEntry], the value a sequence number
    maps to. *)
Record InFlightEntry : Type := mkInFlightEntry {
  submitted_at : Z;
  payload_reference : nat;
  deadline : Z
}.

(** Modelled from the spec: the [Window], a bounded collection of in-flight
    entries keyed by sequence number; [capacity] is the configured
    [window_size], an [int]. *)
Record Window : Type := mkWindow {
  capacity : Z;
  entries : gmap Z InFlightEntry
}.

(** Modelled from the spec: the failure of [reserve]. *)
Inductive WindowError : Type :=
| WindowFull.

(** Modelled from the spec: [|Window|], the number of in-flight entries. *)
Definition in_flight (w : Window) : Z := Z.of_nat (size (entries w)).

(** Modelled from the spec: a window created empty for a capacity. *)
Definition create (window_size : Z) : Window :=
  {| capacity := window_size; entries := ∅ |}.

(** Modelled from the spec: [reserve] admits a new in-flight request if
    [|Window| < window_size], else fails immediately; the token is the sequence
    number.  [now] is the time of the call. *)
Definition reserve (now : Z) (sequence_number : Z) (payload_ref : nat) (timeout : Z)
    (w : Window) : (WindowError + Z) * Window :=
  if in_flight w <? capacity w then
    (inr sequence_number,
     {| capacity := capacity w;
        entries := <[ sequence_number :=
                       {| submitted_at := now; payload_reference := payload_ref;
                          deadline := now + timeout |} ]> (entries w) |})
  else (inl WindowFull, w).

(** Modelled from the spec: [resolve] looks up and removes the matching entry
    and returns its stored reference, or nothing when there is none. *)
Definition resolve (sequence_number : Z) (w : Window) : option nat * Window :=
  match entries w !! sequence_number with
  | Some e =>
      (Some (payload_reference e),
       {| capacity := capacity w; entries := delete sequence_number (entries w) |})
  | None => (None, w)
  end.

(** Modelled from the spec: the deadline of an entry has elapsed. *)
Definition elapsed (now : Z) (e : InFlightEntry) : bool := deadline e <=? now.

(** Modelled from the spec: [sweep] removes and returns every entry whose
    deadline has elapsed. *)
Definition sweep (now : Z) (w : Window) : list nat * Window :=
  (map (fun kv => payload_reference (snd kv))
       (map_to_list (filter (fun kv => elapsed now (snd kv) = true) (entries w))),
   {| capacity := capacity w;
      entries := filter (fun kv => elapsed now (snd kv) = false) (entries w) |}).

(** The calls a session makes on its window. *)
Inductive Call : Type :=
| CallReserve (now sequence_number : Z) (payload_ref : nat) (timeout : Z)
| CallResolve (sequence_number : Z)
| CallSweep (now : Z).

Definition step (w : Window) (c : Call) : Window :=
  match c with
  | CallReserve now seq payload timeout => snd (reserve now seq payload timeout w)
  | CallResolve seq => snd (resolve seq w)
  | CallSweep now => snd (sweep now w)
  end.

Definition run (w : Window) (calls : list Call) : Window := fold_left step calls w.

(** The bound of the window. *)
Definition within_capacity (w : Window) : Prop := in_flight w <= capacity w.

End WindowManager.

(** ** The session *)

(** The repository holds no session engine: [SmppServer] has empty [start]
    and [stop] and handles no PDU.  This module gives the session the states
    and the legality rule of section 4.2 of the specification and the
    submission path of section 2. *)
Module Session.
Import Smpp.

(** Modelled from the spec: the states of the session. *)
Inductive State : Type :=
| Closed
| Connecting
| Open
| Binding
| BoundTx
| BoundRx
| BoundTrx
| Unbinding.

(** Modelled from the spec: the three bound states. *)
Definition is_bound (st : State) : bool :=
  match st with BoundTx | BoundRx | BoundTrx => true | _ => false end.

(** Modelled from the spec: the legality rule enforced before any outbound
    PDU is encoded.  [SubmitSm] and [SubmitMulti] need [BoundTx] or [BoundTrx],
    [DeliverSmResp] needs [BoundRx] or [BoundTrx], [EnquireLink] and its
    response any bound state, a bind request [Open], [Unbind] any bound state.
    The rule names no state for the other commands; an unbind response is sent
    while [Unbinding], the rest is never sent by this side. *)
Definition legal_outbound (st : State) (c : SmppCommand) : bool :=
  match c with
  | SUBMIT_SM | SUBMIT_MULTI =>
      match st with BoundTx | BoundTrx => true | _ => false end
  | DELIVER_SM_RESP =>
      match st with BoundRx | BoundTrx => true | _ => false end
  | ENQUIRE_LINK | ENQUIRE_LINK_RESP => is_bound st
  | BIND_RECEIVER | BIND_TRANSMITTER | BIND_TRANSCEIVER =>
      match st with Open => true | _ => false end
  | UNBIND => is_bound st
  | UNBIND_RESP =>
      match st with Unbinding => true | _ => false end
  | _ => false
  end.

(** Modelled from the spec: the failures a submission reports at once. *)
Inductive SubmitError : Type :=
| IllegalInState
| WindowFull
| EncodeFailed (e : PduCodec.PduError).

(** Modelled from the spec: a session, with the octets written to the socket
    of its connection so far. *)
Record Session : Type := mkSession {
  state : State;
  sequence_counter : Z;
  window : WindowManager.Window;
  socket_written : list Byte.byte
}.

(** Modelled from the spec: the counter wraps from 0x7FFFFFFF to 1. *)
Definition next_sequence (counter : Z) : Z :=
  if counter =? 0x7FFFFFFF then 1 else counter + 1.

(** Modelled from the spec: an outbound [SubmitSm].  The legality check comes
    first; then the window reserves a slot under the next sequence number, the
    codec encodes, and the connection writes. *)
Definition submit_sm (now timeout : Z) (payload_ref : nat) (fields : SmFields)
    (s : Session) : (SubmitError + Z) * Session :=
  if negb (legal_outbound (state s) SUBMIT_SM) then (inl IllegalInState, s)
  else
    let seq := next_sequence (sequence_counter s) in
    match WindowManager.reserve now seq payload_ref timeout (window s) with
    | (inl WindowManager.WindowFull, _) => (inl WindowFull, s)
    | (inr token, w) =>
        let pdu :=
          SubmitSmPdu {| command_length := 0; command_id := command_value SUBMIT_SM;
                         command_status := 0; sequence_number := seq |} fields in
        match PduCodec.encode pdu with
        | PduCodec.Err e => (inl (EncodeFailed e), s)
        | PduCodec.Ok bytes =>
            (inr token,
             {| state := state s; sequence_counter := seq; window := w;
                socket_written := socket_written s ++ bytes |})
        end
    end.

(** A session that is open and not yet bound, and one bound as transceiver,
    each with an empty window of the configured capacity. *)
Definition open_session : Session :=
  {| state := Open; sequence_counter := 0; window := WindowManager.create 10;
     socket_written := [] |}.

Definition bound_session : Session :=
  {| state := BoundTrx; sequence_counter := 0; window := WindowManager.create 10;
     socket_written := [] |}.

End Session.

(** ** Example inputs *)

Module Examples.
Import Config Database.
Open Scope string_scope.

(** A file that names another host and other pool sizes, read in a process
    started with [DB_HOST] and [REDIS_HOST] set. *)
Definition example_env : gmap string string :=
  {[ "DB_HOST" := "db.internal"; "REDIS_HOST" := "cache.internal" ]}.

Definition example_postgres : gmap string string :=
  {[ "host" := "file-db"; "port" := "6000"; "pool_size" := "5"; "max_connections" := "7" ]}.

Definition example_redis : gmap string string :=
  {[ "host" := "file-cache"; "enabled" := "0"; "pool_size" := "3" ]}.

Definition example_ini : gmap string (gmap string string) :=
  {[ "PostgreSQL" := example_postgres; "Redis" := example_redis ]}.

Definition example_parse_int (s : string) : option Z :=
  if String.eqb s "5" then Some 5
  else if String.eqb s "7" then Some 7
  else if String.eqb s "3" then Some 3
  else if String.eqb s "6000" then Some 6000
  else None.

Definition example_parse_bool (s : string) : option bool :=
  if String.eqb s "1" then Some true
  else if String.eqb s "0" then Some false
  else None.

(** A pool of two open connections; a query that throws, and a transaction
    whose commit throws. *)
Definition example_pool : World :=
  {| db :=
       {| connection_string_ := "host=localhost port=5432";
          pool_size_ := 2; initialized_ := true;
          available_ := [0%nat; 1%nat];
          all_connections_ := [0%nat; 1%nat] |};
     open_connections := {[ 0%nat; 1%nat ]};
     next_connection := 2%nat;
     returned := [] |}.

Definition failing_query : ConnectionPtr -> M Z :=
  fun _ => throw (std_exception "relation does not exist").

Definition example_begin : ConnectionPtr -> M Work :=
  fun conn w => (Returned conn, w).

Definition failing_commit : Work -> M unit :=
  fun _ => throw (std_exception "could not serialize access").

Definition counting_query : Work -> M Z :=
  fun _ w => (Returned 42, w).

(** A query during which the server closes the connection. *)
Definition breaking_query : ConnectionPtr -> M Z :=
  fun conn w =>
    (Thrown (std_exception "server closed the connection unexpectedly"),
     {| db := db w; open_connections := open_connections w ∖ {[ conn ]};
        next_connection := next_connection w; returned := returned w |}).

End Examples.

(** ** The HTTP API server (http_server.hpp, http_server.cpp) *)

Module HttpServer.

Open Scope string_scope.

(** A [std::shared_ptr] to a service: null, or a handle on the object. *)
Definition ServicePtr : Type := option nat.

(** The data members of [class HttpServer]; [server_] is set by the
    constructor and never assigned again. *)
Record HttpServer : Type := mkHttpServer {
  host_ : string;
  port_ : Z;
  running_ : bool;
  routing_service_ : ServicePtr;
  campaign_service_ : ServicePtr
}.

(** The calls the object makes on its [httplib::Server] after construction. *)
Inductive Event : Type :=
| Listen (host : string) (port : Z)
| ServerStop.

(** The object and the calls it has made on [server_], oldest first. *)
Record World : Type := mkWorld {
  server : HttpServer;
  trace : list Event
}.

(** The constructor: [host_(host), port_(port), running_(false)], the service
    pointers null. *)
Definition construct (host : string) (port : Z) : World :=
  {| server := {| host_ := host; port_ := port; running_ := false;
                  routing_service_ := None; campaign_service_ := None |};
     trace := [] |}.

(** [running_ = value;] *)
Definition set_running (value : bool) (w : World) : World :=
  {| server := {| host_ := host_ (server w); port_ := port_ (server w);
                  running_ := value;
                  routing_service_ := routing_service_ (server w);
                  campaign_service_ := campaign_service_ (server w) |};
     trace := trace w |}.

(** [server_->listen(host_, port_);] as a call that has returned, because the
    address could not be bound or because the server has stopped; what it
    returns is not looked at. *)
Definition listen (w : World) : World :=
  {| server := server w;
     trace := trace w ++ [Listen (host_ (server w)) (port_ (server w))] |}.

(** [server_->stop();] *)
Definition server_stop (w : World) : World :=
  {| server := server w; trace := trace w ++ [ServerStop] |}.

(** [HttpServer::start], a call made by the only thread that uses the
    object: the flag is written, then [listen] runs to its return. *)
Definition start (w : World) : World :=
  if running_ (server w) then w
  else listen (set_running true w).

(** [HttpServer::stop]. *)
Definition stop (w : World) : World :=
  if negb (running_ (server w)) then w
  else set_running false (server_stop w).

(** [HttpServer::~HttpServer]. *)
Definition destroy (w : World) : World := stop w.

Definition register_routing_service (service : ServicePtr) (w : World) : World :=
  {| server := {| host_ := host_ (server w); port_ := port_ (server w);
                  running_ := running_ (server w);
                  routing_service_ := service;
                  campaign_service_ := campaign_service_ (server w) |};
     trace := trace w |}.

Definition register_campaign_service (service : ServicePtr) (w : World) : World :=
  {| server := {| host_ := host_ (server w); port_ := port_ (server w);
                  running_ := running_ (server w);
                  routing_service_ := routing_service_ (server w);
                  campaign_service_ := service |};
     trace := trace w |}.

(** The calls of the public interface.  A run is sequential: each call is
    made after the one before it has returned, [start] included, so no two
    calls overlap and nothing else writes [running_] in between. *)
Inductive Call : Type :=
| CallStart
| CallStop
| CallRegisterRoutingService (service : ServicePtr)
| CallRegisterCampaignService (service : ServicePtr).

Definition step (w : World) (c : Call) : World :=
  match c with
  | CallStart => start w
  | CallStop => stop w
  | CallRegisterRoutingService s => register_routing_service s w
  | CallRegisterCampaignService s => register_campaign_service s w
  end.

Definition run (w : World) (cs : list Call) : World := fold_left step cs w.

(** [k] rounds of listening and stopping on an address. *)
Definition rounds (k : nat) (host : string) (port : Z) : list Event :=
  mjoin (replicate k [Listen host port; ServerStop]).

(** What every call keeps: the address is the one of the constructor, and the
    trace is whole rounds, followed by one more [Listen] exactly when
    [running_] is set. *)
Definition paired (host : string) (port : Z) (w : World) : Prop :=
  host_ (server w) = host /\ port_ (server w) = port /\
  exists k, trace w =
    (rounds k host port ++ (if running_ (server w) then [Listen host port] else []))%list.

End HttpServer.

(** ** The production logger (production_logger.hpp, production_logger.cpp) *)

Module ProductionLogger.

Open Scope string_scope.

(** [spdlog::level::level_enum]. *)
Inductive Level : Type := trace | debug | info | warn | err | critical | off.

Definition level_value (l : Level) : Z :=
  match l with
  | trace => 0 | debug => 1 | info => 2 | warn => 3 | err => 4 | critical => 5 | off => 6
  end.

(** An argument of a format string. *)
Inductive Arg : Type :=
| ArgString (s : string)
| ArgLong (n : Z)
| ArgDouble (d : SpecFloat.spec_float).

(** A message a logger has handed to its sink: the level, the format string
    (or the text, for a call without arguments) and the arguments. *)
Record Entry : Type := mkEntry {
  entry_level : Level;
  entry_format : string;
  entry_args : list Arg
}.

(** A [spdlog::logger] over one file sink. *)
Record Logger : Type := mkLogger {
  logger_name : string;
  logger_file : string;
  logger_level : Level
}.

(** [struct CDRRecord]. *)
Record CDRRecord : Type := mkCDRRecord {
  message_id : string;
  campaign_id : string;
  customer_id : string;
  msisdn : string;
  sender_id : string;
  message_text : string;
  message_length : Z;
  message_parts : Z;
  submit_time : string;
  delivery_time : string;
  status : string;
  error_code : string;
  smsc_id : string;
  route_id : string;
  cost : SpecFloat.spec_float;
  operator_name : string;
  country_code : string;
  retry_count : Z;
  final_status : string;
  processing_time_ms : Z
}.

(** [struct SystemMetrics]; the time stamp is a number of ticks. *)
Record SystemMetrics : Type := mkSystemMetrics {
  cpu_usage_percent : SpecFloat.spec_float;
  memory_usage_mb : SpecFloat.spec_float;
  memory_usage_percent : SpecFloat.spec_float;
  disk_usage_mb : Z;
  disk_available_mb : Z;
  active_connections : Z;
  queue_depth : Z;
  messages_per_second : Z;
  total_messages_sent : Z;
  total_messages_failed : Z;
  timestamp : Z
}.

(** The members of [struct statvfs] that are read. *)
Record StatVfs : Type := mkStatVfs {
  f_blocks : Z;
  f_frsize : Z;
  f_bavail : Z
}.

(** What the system answers during one call of [get_current_metrics]: the
    clock, the three readings of [SystemMonitor] that come from [/proc],
    [statvfs] on [/opt/protei_bulk] ([None] when it fails), and what the
    members of the local [SystemMetrics metrics;] hold before any is
    assigned. *)
Record Sample : Type := mkSample {
  now : Z;
  get_cpu_usage : SpecFloat.spec_float;
  get_memory_usage_mb : SpecFloat.spec_float;
  get_memory_usage_percent : SpecFloat.spec_float;
  statvfs : option StatVfs;
  uninitialized : SystemMetrics
}.

(** The logger members of [class ProductionLogger], each a
    [std::shared_ptr<spdlog::logger>], null or not, and the flag. *)
Record ProductionLogger : Type := mkProductionLogger {
  app_logger_ : option Logger;
  warning_logger_ : option Logger;
  alarm_logger_ : option Logger;
  system_logger_ : option Logger;
  cdr_logger_ : option Logger;
  security_logger_ : option Logger;
  current_metrics_ : SystemMetrics;
  initialized_ : bool
}.

(** The data members of [class CDRManager]; [cdr_mutex_] is a [std::mutex],
    here whether the running thread holds it. *)
Record CDRManager : Type := mkCDRManager {
  cdr_directory_ : string;
  cdr_mutex_ : bool;
  pending_cdrs_ : gmap string CDRRecord
}.

(** The two singletons and what they share with the process: the names in
    the registry of spdlog, the entries written to each log file (oldest
    first), and the lines written to [std::cerr]. *)
Record World : Type := mkWorld {
  production_logger : ProductionLogger;
  cdr_manager : CDRManager;
  registry : gset string;
  files : gmap string (list Entry);
  cerr : list string
}.

(** A [SystemMetrics] of static storage duration before it is assigned. *)
Definition zero_metrics : SystemMetrics :=
  {| cpu_usage_percent := SpecFloat.S754_zero false;
     memory_usage_mb := SpecFloat.S754_zero false;
     memory_usage_percent := SpecFloat.S754_zero false;
     disk_usage_mb := 0; disk_available_mb := 0; active_connections := 0;
     queue_depth := 0; messages_per_second := 0; total_messages_sent := 0;
     total_messages_failed := 0; timestamp := 0 |}.

(** The members after the defaulted constructors, in a process that has
    logged nothing yet. *)
Definition fresh : World :=
  {| production_logger :=
       {| app_logger_ := None; warning_logger_ := None; alarm_logger_ := None;
          system_logger_ := None; cdr_logger_ := None; security_logger_ := None;
          current_metrics_ := zero_metrics; initialized_ := false |};
     cdr_manager := {| cdr_directory_ := ""; cdr_mutex_ := false; pending_cdrs_ := ∅ |};
     registry := ∅; files := ∅; cerr := [] |}.

Definition set_production_logger (p : ProductionLogger) (w : World) : World :=
  {| production_logger := p; cdr_manager := cdr_manager w; registry := registry w;
     files := files w; cerr := cerr w |}.

Definition set_cdr_manager (m : CDRManager) (w : World) : World :=
  {| production_logger := production_logger w; cdr_manager := m; registry := registry w;
     files := files w; cerr := cerr w |}.

(** The entries written to a file so far. *)
Definition written (file : string) (w : World) : list Entry :=
  default [] (files w !! file).

(** [logger->log(level, fmt, args...)]: the message goes to the sink when
    its level is not below the level of the logger. *)
Definition log (l : Logger) (level : Level) (fmt : string) (args : list Arg) (w : World)
  : World :=
  if (level_value (logger_level l) <=? level_value level)%Z then
    {| production_logger := production_logger w; cdr_manager := cdr_manager w;
       registry := registry w;
       files := <[ logger_file l :=
                   (written (logger_file l) w ++ [mkEntry level fmt args])%list ]> (files w);
       cerr := cerr w |}
  else w.

(** [if (ptr) ptr->log(level, fmt, args...)]. *)
Definition log_if (ptr : option Logger) (level : Level) (fmt : string) (args : list Arg)
    (w : World) : World :=
  match ptr with
  | Some l => log l level fmt args w
  | None => w
  end.

(** *** Application, warning and alarm logging *)

Definition info_ (fmt : string) (args : list Arg) (w : World) : World :=
  log_if (app_logger_ (production_logger w)) info fmt args w.

Definition debug_ (fmt : string) (args : list Arg) (w : World) : World :=
  log_if (app_logger_ (production_logger w)) debug fmt args w.

Definition warning (fmt : string) (args : list Arg) (w : World) : World :=
  log_if (warning_logger_ (production_logger w)) warn fmt args w.

Definition alarm (fmt : string) (args : list Arg) (w : World) : World :=
  let w := log_if (alarm_logger_ (production_logger w)) critical fmt args w in
  log_if (app_logger_ (production_logger w)) critical fmt args w.

Section Process.
(** The text of the [spdlog_ex] thrown when a log file cannot be opened;
    [None] when it can. *)
Variable open_error : string -> option string.
(** [operator<<] of a [double] on a stream set to [std::fixed] with a
    precision. *)
Variable format_fixed : nat -> SpecFloat.spec_float -> string.

(** [spdlog::rotating_logger_mt] and [spdlog::daily_logger_mt]: the sink
    opens the file, the logger is entered in the registry under its name, its
    level the default one; either step can throw a [spdlog_ex], whose text
    is on the left. *)
Definition create_file_logger (name file : string) (w : World) : (string + Logger) * World :=
  match open_error file with
  | Some text => (inl text, w)
  | None =>
      if bool_decide (name ∈ registry w) then
        (inl ("logger with name '" +:+ name +:+ "' already exists"), w)
      else
        (inr {| logger_name := name; logger_file := file; logger_level := info |},
         {| production_logger := production_logger w; cdr_manager := cdr_manager w;
            registry := {[ name ]} ∪ registry w; files := files w; cerr := cerr w |})
  end.

(** The handler of [create_loggers]. *)
Definition creation_failed (text : string) (w : World) : World :=
  {| production_logger := production_logger w; cdr_manager := cdr_manager w;
     registry := registry w; files := files w;
     cerr := (cerr w ++ ["Logger initialization failed: " +:+ text])%list |}.

Definition set_level (level : Level) (l : Logger) : Logger :=
  {| logger_name := logger_name l; logger_file := logger_file l; logger_level := level |}.

Definition set_app_logger (l : Logger) (w : World) : World :=
  let p := production_logger w in
  set_production_logger
    {| app_logger_ := Some l; warning_logger_ := warning_logger_ p;
       alarm_logger_ := alarm_logger_ p; system_logger_ := system_logger_ p;
       cdr_logger_ := cdr_logger_ p; security_logger_ := security_logger_ p;
       current_metrics_ := current_metrics_ p; initialized_ := initialized_ p |} w.

Definition set_warning_logger (l : Logger) (w : World) : World :=
  let p := production_logger w in
  set_production_logger
    {| app_logger_ := app_logger_ p; warning_logger_ := Some l;
       alarm_logger_ := alarm_logger_ p; system_logger_ := system_logger_ p;
       cdr_logger_ := cdr_logger_ p; security_logger_ := security_logger_ p;
       current_metrics_ := current_metrics_ p; initialized_ := initialized_ p |} w.

Definition set_alarm_logger (l : Logger) (w : World) : World :=
  let p := production_logger w in
  set_production_logger
    {| app_logger_ := app_logger_ p; warning_logger_ := warning_logger_ p;
       alarm_logger_ := Some l; system_logger_ := system_logger_ p;
       cdr_logger_ := cdr_logger_ p; security_logger_ := security_logger_ p;
       current_metrics_ := current_metrics_ p; initialized_ := initialized_ p |} w.

Definition set_system_logger (l : Logger) (w : World) : World :=
  let p := production_logger w in
  set_production_logger
    {| app_logger_ := app_logger_ p; warning_logger_ := warning_logger_ p;
       alarm_logger_ := alarm_logger_ p; system_logger_ := Some l;
       cdr_logger_ := cdr_logger_ p; security_logger_ := security_logger_ p;
       current_metrics_ := current_metrics_ p; initialized_ := initialized_ p |} w.

Definition set_cdr_logger (l : Logger) (w : World) : World :=
  let p := production_logger w in
  set_production_logger
    {| app_logger_ := app_logger_ p; warning_logger_ := warning_logger_ p;
       alarm_logger_ := alarm_logger_ p; system_logger_ := system_logger_ p;
       cdr_logger_ := Some l; security_logger_ := security_logger_ p;
       current_metrics_ := current_metrics_ p; initialized_ := initialized_ p |} w.

Definition set_security_logger (l : Logger) (w : World) : World :=
  let p := production_logger w in
  set_production_logger
    {| app_logger_ := app_logger_ p; warning_logger_ := warning_logger_ p;
       alarm_logger_ := alarm_logger_ p; system_logger_ := system_logger_ p;
       cdr_logger_ := cdr_logger_ p; security_logger_ := Some l;
       current_metrics_ := current_metrics_ p; initialized_ := initialized_ p |} w.

Definition set_initialized (b : bool) (w : World) : World :=
  let p := production_logger w in
  set_production_logger
    {| app_logger_ := app_logger_ p; warning_logger_ := warning_logger_ p;
       alarm_logger_ := alarm_logger_ p; system_logger_ := system_logger_ p;
       cdr_logger_ := cdr_logger_ p; security_logger_ := security_logger_ p;
       current_metrics_ := current_metrics_ p; initialized_ := b |} w.

Definition set_current_metrics (metrics : SystemMetrics) (w : World) : World :=
  let p := production_logger w in
  set_production_logger
    {| app_logger_ := app_logger_ p; warning_logger_ := warning_logger_ p;
       alarm_logger_ := alarm_logger_ p; system_logger_ := system_logger_ p;
       cdr_logger_ := cdr_logger_ p; security_logger_ := security_logger_ p;
       current_metrics_ := metrics; initialized_ := initialized_ p |} w.

(** One logger of [create_loggers]: it is created, assigned to its member
    with its level set, and the rest of the [try] block runs; a [spdlog_ex]
    ends the block in its handler. *)
Definition creating (name file : string) (level : Level)
    (assign : Logger -> World -> World) (rest : World -> World) (w : World) : World :=
  match create_file_logger name file w with
  | (inr l, w) => rest (assign (set_level level l) w)
  | (inl text, w) => creation_failed text w
  end.

(** [ProductionLogger::create_loggers]; the system, CDR and security loggers
    keep the default level. *)
Definition create_loggers (log_dir : string) : World -> World :=
  creating "application" (log_dir +:+ "/application.log") info set_app_logger
    (creating "warning" (log_dir +:+ "/warning.log") warn set_warning_logger
       (creating "alarm" (log_dir +:+ "/alarm.log") critical set_alarm_logger
          (creating "system" (log_dir +:+ "/system.log") info set_system_logger
             (creating "cdr" (log_dir +:+ "/cdr.log") info set_cdr_logger
                (creating "security" (log_dir +:+ "/security.log") info
                   set_security_logger (fun w => w)))))).

(** *** The records *)

(** [ProductionLogger::format_cdr_record]. *)
Definition format_cdr_record (cdr : CDRRecord) : string :=
  message_id cdr +:+ "," +:+
  campaign_id cdr +:+ "," +:+
  customer_id cdr +:+ "," +:+
  msisdn cdr +:+ "," +:+
  sender_id cdr +:+ "," +:+
  String (ascii_of_nat 34) (message_text cdr +:+ String (ascii_of_nat 34) ("," +:+
  Format.to_string (message_length cdr) +:+ "," +:+
  Format.to_string (message_parts cdr) +:+ "," +:+
  submit_time cdr +:+ "," +:+
  delivery_time cdr +:+ "," +:+
  status cdr +:+ "," +:+
  error_code cdr +:+ "," +:+
  smsc_id cdr +:+ "," +:+
  route_id cdr +:+ "," +:+
  format_fixed 4 (cost cdr) +:+ "," +:+
  operator_name cdr +:+ "," +:+
  country_code cdr +:+ "," +:+
  Format.to_string (retry_count cdr) +:+ "," +:+
  final_status cdr +:+ "," +:+
  Format.to_string (processing_time_ms cdr))).

(** [std::lock_guard<std::mutex> lock(cdr_mutex_)] around a body: locking a
    [std::mutex] that the thread already holds has undefined behaviour, here
    [None]. *)
Definition with_cdr_mutex (body : World -> option World) (w : World) : option World :=
  let m := cdr_manager w in
  if cdr_mutex_ m then None
  else
    match body (set_cdr_manager
                  {| cdr_directory_ := cdr_directory_ m; cdr_mutex_ := true;
                     pending_cdrs_ := pending_cdrs_ m |} w) with
    | Some w =>
        let m := cdr_manager w in
        Some (set_cdr_manager
                {| cdr_directory_ := cdr_directory_ m; cdr_mutex_ := false;
                   pending_cdrs_ := pending_cdrs_ m |} w)
    | None => None
    end.

Definition set_pending (pending : gmap string CDRRecord) (w : World) : World :=
  let m := cdr_manager w in
  set_cdr_manager
    {| cdr_directory_ := cdr_directory_ m; cdr_mutex_ := cdr_mutex_ m;
       pending_cdrs_ := pending |} w.

(** [CDRManager::record_message]. *)
Definition record_message (cdr : CDRRecord) : World -> option World :=
  with_cdr_mutex
    (fun w => Some (set_pending (<[ message_id cdr := cdr ]> (pending_cdrs_ (cdr_manager w))) w)).

(** [ProductionLogger::log_cdr]. *)
Definition log_cdr (cdr : CDRRecord) (w : World) : option World :=
  match cdr_logger_ (production_logger w) with
  | None => Some w
  | Some l => record_message cdr (log l info (format_cdr_record cdr) [] w)
  end.

(** [it->second.final_status = status; it->second.delivery_time = delivery_time;] *)
Definition delivered (status delivery_time : string) (cdr : CDRRecord) : CDRRecord :=
  {| message_id := message_id cdr; campaign_id := campaign_id cdr;
     customer_id := customer_id cdr; msisdn := msisdn cdr; sender_id := sender_id cdr;
     message_text := message_text cdr; message_length := message_length cdr;
     message_parts := message_parts cdr; submit_time := submit_time cdr;
     delivery_time := delivery_time; status := ProductionLogger.status cdr;
     error_code := error_code cdr; smsc_id := smsc_id cdr; route_id := route_id cdr;
     cost := cost cdr; operator_name := operator_name cdr;
     country_code := country_code cdr; retry_count := retry_count cdr;
     final_status := status; processing_time_ms := processing_time_ms cdr |}.

(** [CDRManager::update_delivery_status]. *)
Definition update_delivery_status (id status delivery_time : string)
  : World -> option World :=
  with_cdr_mutex
    (fun w =>
       match pending_cdrs_ (cdr_manager w) !! id with
       | None => Some w
       | Some cdr =>
           let cdr := delivered status delivery_time cdr in
           let w := set_pending (<[ id := cdr ]> (pending_cdrs_ (cdr_manager w))) w in
           match log_cdr cdr w with
           | Some w => Some (set_pending (delete id (pending_cdrs_ (cdr_manager w))) w)
           | None => None
           end
       end).

(** [CDRManager::initialize]. *)
Definition cdr_initialize (cdr_dir : string) (w : World) : World :=
  let m := cdr_manager w in
  info_ "CDR Manager initialized: {}" [ArgString cdr_dir]
    (set_cdr_manager
       {| cdr_directory_ := cdr_dir; cdr_mutex_ := cdr_mutex_ m;
          pending_cdrs_ := pending_cdrs_ m |} w).

(** *** Statistics, performance and security *)

(** [ProductionLogger::log_campaign_stats]. *)
Definition log_campaign_stats (campaign : string) (total_sent successful failed : Z)
    (success_rate : SpecFloat.spec_float) : World -> World :=
  info_ "Campaign {} Statistics: Total={}, Success={}, Failed={}, SuccessRate={:.2f}%"
    [ArgString campaign; ArgLong total_sent; ArgLong successful; ArgLong failed;
     ArgDouble success_rate].

(** [ProductionLogger::log_performance]. *)
Definition log_performance (operation : string) (duration_ms : Z) (success : bool)
  : World -> World :=
  if (1000 <? duration_ms)%Z then
    warning "Slow operation: {} took {}ms" [ArgString operation; ArgLong duration_ms]
  else
    debug_ "Operation: {} completed in {}ms ({})"
      [ArgString operation; ArgLong duration_ms;
       ArgString (if success then "success" else "failed")].

(** Whether [log_security_event] takes the event for a critical one. *)
Definition is_critical_event (event_type : string) : bool :=
  String.eqb event_type "UNAUTHORIZED_ACCESS" || String.eqb event_type "BRUTE_FORCE"
  || String.eqb event_type "INJECTION_ATTEMPT".

(** [ProductionLogger::log_security_event]. *)
Definition log_security_event (event_type user ip_address details : string) (w : World)
  : World :=
  match security_logger_ (production_logger w) with
  | None => w
  | Some l =>
      let text := event_type +:+ " | User:" +:+ user +:+ " | IP:" +:+ ip_address
                  +:+ " | Details:" +:+ details in
      let w := log l warn text [] w in
      if is_critical_event event_type then alarm "Security Alert: {}" [ArgString text] w
      else w
  end.

(** *** System metrics *)

(** [SystemMonitor::get_active_connections], [get_queue_depth] and
    [get_messages_per_second]. *)
Definition get_active_connections : Z := 0.
Definition get_queue_depth : Z := 0.
Definition get_messages_per_second : Z := 0.

(** A product or a difference of [unsigned long] values. *)
Definition unsigned_long (v : Z) : Z := v mod 2 ^ 64.

(** [SystemMonitor::get_disk_usage]. *)
Definition get_disk_usage (s : Sample) : Z :=
  match statvfs s with
  | Some st =>
      let total := unsigned_long (f_blocks st * f_frsize st) in
      let available := unsigned_long (f_bavail st * f_frsize st) in
      unsigned_long (total - available) / (1024 * 1024)
  | None => 0
  end.

(** [ProductionLogger::get_current_metrics]; the members that no statement
    assigns keep what they held. *)
Definition get_current_metrics (s : Sample) (w : World) : SystemMetrics * World :=
  let u := uninitialized s in
  let disk :=
    match statvfs s with
    | Some st =>
        let total := unsigned_long (f_blocks st * f_frsize st) in
        let available := unsigned_long (f_bavail st * f_frsize st) in
        (unsigned_long (total - available) / (1024 * 1024), available / (1024 * 1024))
    | None => (disk_usage_mb u, disk_available_mb u)
    end in
  let metrics :=
    {| cpu_usage_percent := get_cpu_usage s;
       memory_usage_mb := get_memory_usage_mb s;
       memory_usage_percent := get_memory_usage_percent s;
       disk_usage_mb := fst disk; disk_available_mb := snd disk;
       active_connections := get_active_connections;
       queue_depth := get_queue_depth;
       messages_per_second := get_messages_per_second;
       total_messages_sent := total_messages_sent u;
       total_messages_failed := total_messages_failed u;
       timestamp := now s |} in
  (metrics, set_current_metrics metrics w).

(** [ProductionLogger::log_system_metrics]. *)
Definition log_system_metrics (metrics : SystemMetrics) (w : World) : World :=
  match system_logger_ (production_logger w) with
  | None => w
  | Some l =>
      log l info
        ("CPU:" +:+ format_fixed 2 (cpu_usage_percent metrics) +:+ "% " +:+
         "| Memory:" +:+ format_fixed 2 (memory_usage_mb metrics) +:+ "MB (" +:+
         format_fixed 2 (memory_usage_percent metrics) +:+ "%) " +:+
         "| Disk:" +:+ Format.to_string (disk_usage_mb metrics) +:+ "MB used, " +:+
         Format.to_string (disk_available_mb metrics) +:+ "MB available " +:+
         "| Connections:" +:+ Format.to_string (active_connections metrics) +:+ " " +:+
         "| Queue:" +:+ Format.to_string (queue_depth metrics) +:+ " " +:+
         "| TPS:" +:+ Format.to_string (messages_per_second metrics)) [] w
  end.

(** *** Life cycle *)

(** [ProductionLogger::initialize]. *)
Definition initialize (s : Sample) (log_dir : string) (w : World) : World :=
  if initialized_ (production_logger w) then w
  else
    let w := create_loggers log_dir w in
    let w := set_initialized true w in
    let w := info_ "Production Logger initialized - Enterprise Edition" [] w in
    let (metrics, w) := get_current_metrics s w in
    log_system_metrics metrics w.

(** [ProductionLogger::shutdown]; [spdlog::shutdown] empties the registry,
    the members keep their loggers. *)
Definition shutdown (w : World) : World :=
  if negb (initialized_ (production_logger w)) then w
  else
    let w := info_ "Production Logger shutting down" [] w in
    set_initialized false
      {| production_logger := production_logger w; cdr_manager := cdr_manager w;
         registry := ∅; files := files w; cerr := cerr w |}.

(** [ProductionLogger::~ProductionLogger]. *)
Definition destroy (w : World) : World := shutdown w.

(** *** Callers *)

(** A call of a public member function of [ProductionLogger]. *)
Inductive Call : Type :=
| CallInitialize (s : Sample) (log_dir : string)
| CallShutdown
| CallInfo (fmt : string) (args : list Arg)
| CallDebug (fmt : string) (args : list Arg)
| CallWarning (fmt : string) (args : list Arg)
| CallAlarm (fmt : string) (args : list Arg)
| CallLogSystemMetrics (metrics : SystemMetrics)
| CallLogCdr (cdr : CDRRecord)
| CallLogCampaignStats (campaign : string) (total_sent successful failed : Z)
    (success_rate : SpecFloat.spec_float)
| CallLogPerformance (operation : string) (duration_ms : Z) (success : bool)
| CallLogSecurityEvent (event_type user ip_address details : string)
| CallGetCurrentMetrics (s : Sample).

Definition step (c : Call) (w : World) : option World :=
  match c with
  | CallInitialize s log_dir => Some (initialize s log_dir w)
  | CallShutdown => Some (shutdown w)
  | CallInfo fmt args => Some (info_ fmt args w)
  | CallDebug fmt args => Some (debug_ fmt args w)
  | CallWarning fmt args => Some (warning fmt args w)
  | CallAlarm fmt args => Some (alarm fmt args w)
  | CallLogSystemMetrics metrics => Some (log_system_metrics metrics w)
  | CallLogCdr cdr => log_cdr cdr w
  | CallLogCampaignStats campaign total_sent successful failed success_rate =>
      Some (log_campaign_stats campaign total_sent successful failed success_rate w)
  | CallLogPerformance operation duration_ms success =>
      Some (log_performance operation duration_ms success w)
  | CallLogSecurityEvent event_type user ip_address details =>
      Some (log_security_event event_type user ip_address details w)
  | CallGetCurrentMetrics s => Some (snd (get_current_metrics s w))
  end.

(** The calls of a list, one after the other. *)
Fixpoint run (cs : list Call) (w : World) : option World :=
  match cs with
  | [] => Some w
  | c :: cs =>
      match step c w with
      | Some w => run cs w
      | None => None
      end
  end.

(** *** Readers of the CDR file *)

(** A line cut at its commas. *)
Fixpoint split_commas (line : string) : list string :=
  match line with
  | EmptyString => [""]
  | String c rest =>
      if Ascii.eqb c ","%char then "" :: split_commas rest
      else
        match split_commas rest with
        | field :: fields => String c field :: fields
        | [] => [String c ""]
        end
  end.

(** Whether a text holds no comma. *)
Fixpoint comma_free (s : string) : bool :=
  match s with
  | EmptyString => true
  | String c rest => negb (Ascii.eqb c ","%char) && comma_free rest
  end.

(** *** What the calls keep *)

(** A logger member is null or lets no message below [info] through. *)
Definition level_at_least_info (ptr : option Logger) : Prop :=
  forall l, ptr = Some l -> (level_value info <= level_value (logger_level l))%Z.

(** The logger members are assigned in the order of [create_loggers] and
    never reset: a member that is set has all the members before it set. *)
Definition created_in_order (p : ProductionLogger) : Prop :=
  (is_Some (warning_logger_ p) -> is_Some (app_logger_ p)) /\
  (is_Some (alarm_logger_ p) -> is_Some (warning_logger_ p)) /\
  (is_Some (system_logger_ p) -> is_Some (alarm_logger_ p)) /\
  (is_Some (cdr_logger_ p) -> is_Some (system_logger_ p)) /\
  (is_Some (security_logger_ p) -> is_Some (cdr_logger_ p)).

(** No entry of any file is below [info]. *)
Definition entries_at_least_info (w : World) : Prop :=
  forall file e, In e (written file w) ->
    (level_value info <= level_value (entry_level e))%Z.

Definition sound (w : World) : Prop :=
  cdr_mutex_ (cdr_manager w) = false /\
  created_in_order (production_logger w) /\
  (level_at_least_info (app_logger_ (production_logger w)) /\
   level_at_least_info (warning_logger_ (production_logger w)) /\
   level_at_least_info (alarm_logger_ (production_logger w)) /\
   level_at_least_info (system_logger_ (production_logger w)) /\
   level_at_least_info (cdr_logger_ (production_logger w)) /\
   level_at_least_info (security_logger_ (production_logger w))) /\
  entries_at_least_info w.

End Process.

End ProductionLogger.

(** ** The logger (logger.hpp, logger.cpp) *)

Module Logger.

Import ProductionLogger.
Open Scope string_scope.

(** The [spdlog::logger] that the constructor builds over its two sinks; the
    console sink is set to [info], the file sink to [trace]. *)
Record SpdLogger : Type := mkSpdLogger {
  spd_name : string;
  spd_level : Level
}.

Definition console_sink_level : Level := info.
Definition file_sink_level : Level := trace.
Definition log_file : string := "logs/protei_bulk.log".

(** The data member of [class Logger], a [std::shared_ptr<spdlog::logger>]. *)
Record Logger : Type := mkLogger {
  logger_ : option SpdLogger
}.

(** What a logger shares with the process: the registry of spdlog, what has
    been written to the console and to the log file (oldest first), and the
    lines written to [std::cerr]. *)
Record World : Type := mkWorld {
  registry : gset string;
  console : list Entry;
  file : list Entry;
  cerr : list string
}.

Definition report (text : string) (w : World) : World :=
  {| registry := registry w; console := console w; file := file w;
     cerr := (cerr w ++ ["Log initialization failed: " +:+ text])%list |}.

Section Process.
(** The text of the [spdlog_ex] thrown when a log file cannot be opened;
    [None] when it can. *)
Variable open_error : string -> option string.

(** [Logger::Logger]: the file sink opens the log file; the logger is
    assigned to [logger_] before it is registered; [register_logger] throws
    for a name that is in the registry.  Either [spdlog_ex] ends the [try]
    block in its handler. *)
Definition construct (name : string) (w : World) : Logger * World :=
  match open_error log_file with
  | Some text => ({| logger_ := None |}, report text w)
  | None =>
      let l := {| logger_ := Some {| spd_name := name; spd_level := trace |} |} in
      if bool_decide (name ∈ registry w) then
        (l, report ("logger with name '" +:+ name +:+ "' already exists") w)
      else
        (l, {| registry := {[ name ]} ∪ registry w; console := console w;
               file := file w; cerr := cerr w |})
  end.

End Process.

(** [logger->log(level, fmt, args...)] on the two sinks. *)
Definition sink_it (l : SpdLogger) (level : Level) (fmt : string) (args : list Arg)
    (w : World) : World :=
  if (level_value (spd_level l) <=? level_value level)%Z then
    let e := mkEntry level fmt args in
    {| registry := registry w;
       console :=
         if (level_value console_sink_level <=? level_value level)%Z
         then (console w ++ [e])%list else console w;
       file :=
         if (level_value file_sink_level <=? level_value level)%Z
         then (file w ++ [e])%list else file w;
       cerr := cerr w |}
  else w.

(** A call of a member function: the six logging functions by the level
    they log at, [set_level] and [flush]. *)
Inductive Call : Type :=
| CallLog (level : Level) (fmt : string) (args : list Arg)
| CallSetLevel (level : Level)
| CallFlush.

(** The member functions; each dereferences [logger_] without a test, which
    for a null pointer is undefined behaviour, here [None]. *)
Definition perform (c : Call) (l : Logger) (w : World) : option (Logger * World) :=
  match logger_ l with
  | None => None
  | Some spd =>
      match c with
      | CallLog level fmt args => Some (l, sink_it spd level fmt args w)
      | CallSetLevel level =>
          Some ({| logger_ := Some {| spd_name := spd_name spd; spd_level := level |} |}, w)
      | CallFlush => Some (l, w)
      end
  end.

(** The level at which each logging member function logs. *)
Definition member_levels : list Level := [trace; debug; info; warn; err; critical].

(** The calls of a list, one after the other. *)
Fixpoint run (cs : list Call) (l : Logger) (w : World) : option (Logger * World) :=
  match cs with
  | [] => Some (l, w)
  | c :: cs =>
      match perform c l w with
      | Some (l, w) => run cs l w
      | None => None
      end
  end.


End Logger.

(** ** Examples for the loggers *)

Module LoggingExamples.

Import ProductionLogger.
Open Scope string_scope.

(** The cost 0.0125 printed with four decimals. *)
Definition example_format_fixed (precision : nat) (d : SpecFloat.spec_float) : string :=
  "0.0125".

Definition example_cdr : CDRRecord :=
  {| message_id := "msg-1001"; campaign_id := "cmp-7"; customer_id := "cust-42";
     msisdn := "962790000001"; sender_id := "PROTEI";
     message_text := "Your code is 4711";
     message_length := 17; message_parts := 1;
     submit_time := "2024-05-01T10:00:00Z"; delivery_time := "";
     status := "SUBMITTED"; error_code := ""; smsc_id := "smsc-1"; route_id := "route-3";
     cost := SpecFloat.S754_zero false; operator_name := "Zain"; country_code := "JO";
     retry_count := 0; final_status := ""; processing_time_ms := 12 |}.

(** A process whose CDR logger exists, with one record pending. *)
Definition example_logging : World :=
  {| production_logger :=
       {| app_logger_ := None; warning_logger_ := None; alarm_logger_ := None;
          system_logger_ := None;
          cdr_logger_ := Some {| logger_name := "cdr";
                                 logger_file := "/opt/protei_bulk/logs/cdr.log";
                                 logger_level := info |};
          security_logger_ := None;
          current_metrics_ := zero_metrics; initialized_ := true |};
     cdr_manager := {| cdr_directory_ := "/opt/protei_bulk/cdr"; cdr_mutex_ := false;
                       pending_cdrs_ := {[ "msg-1001" := example_cdr ]} |};
     registry := {[ "cdr" ]}; files := ∅; cerr := [] |}.

End LoggingExamples.

(** * Properties *)

(** ** SMPP command identifiers *)

Section CommandIds.
Import Smpp.

Lemma command_value_inj (c d : SmppCommand) :
  command_value c = command_value d -> c = d.
Proof. destruct c, d; simpl; intros H; try reflexivity; discriminate H. Qed.

Lemma command_value_range (c : SmppCommand) : 0 < command_value c < 2 ^ 32.
Proof. destruct c; simpl; lia. Qed.

Lemma is_command_id_spec (v : Z) :
  is_command_id v = true <-> exists c, command_value c = v.
Proof.
  unfold is_command_id. rewrite existsb_exists. split.
  - intros [x [Hin Hx]]. apply Z.eqb_eq in Hx. subst x.
    unfold command_ids in Hin. apply in_map_iff in Hin.
    destruct Hin as [c [Hc _]]. exists c. exact Hc.
  - intros [c Hc]. exists v. split; [| apply Z.eqb_refl].
    subst v. unfold command_ids. apply in_map. destruct c; simpl; tauto.
Qed.

Lemma response_of_value (c : SmppCommand) :
  command_value (response_of c) = Z.lor (command_value c) RESPONSE_BIT.
Proof. destruct c; reflexivity. Qed.

(** C4, as stated, fails: the identifier set of the program is not the set the
    specification enumerates.  generic_nack (0x80000000) is enumerated by the
    specification and is no [SmppCommand]; submit_multi (0x21) is a
    [SmppCommand] the specification does not enumerate. *)
Lemma command_ids_not_as_enumerated :
  ~ (forall v : Z, In v command_ids <-> In v spec_command_ids).
Proof.
  intros H. destruct (H GENERIC_NACK_ID) as [_ Hback].
  assert (Hin : In GENERIC_NACK_ID command_ids).
  { apply Hback. unfold spec_command_ids. apply in_or_app. right.
    apply in_or_app. right. left. reflexivity. }
  unfold command_ids in Hin. apply in_map_iff in Hin.
  destruct Hin as [c [Hc _]]. destruct c; discriminate Hc.
Qed.

(** C4, amended: the identifier set consists of the ten requests
    bind_receiver=1, bind_transmitter=2, query_sm=3, submit_sm=4, deliver_sm=5,
    unbind=6, cancel_sm=8, bind_transceiver=9, enquire_link=0x15 and
    submit_multi=0x21, and of their ten responses, each the request with bit
    0x80000000 set; each of the twenty enumerators has, by name, the value
    stated; generic_nack is not a member. *)
Theorem command_ids_enumerated :
  (forall v : Z,
      In v command_ids <->
      In v [0x1; 0x2; 0x3; 0x4; 0x5; 0x6; 0x8; 0x9; 0x15; 0x21] \/
      In v (map (fun r => Z.lor r RESPONSE_BIT)
                [0x1; 0x2; 0x3; 0x4; 0x5; 0x6; 0x8; 0x9; 0x15; 0x21])) /\
  command_value BIND_TRANSCEIVER = 0x00000009 /\
  command_value SUBMIT_SM = 0x00000004 /\
  command_value DELIVER_SM = 0x00000005 /\
  command_value ENQUIRE_LINK = 0x00000015 /\
  command_value UNBIND = 0x00000006 /\
  command_value BIND_RECEIVER = 0x00000001 /\
  command_value BIND_TRANSMITTER = 0x00000002 /\
  command_value QUERY_SM = 0x00000003 /\
  command_value CANCEL_SM = 0x00000008 /\
  command_value SUBMIT_MULTI = 0x00000021 /\
  command_value BIND_RECEIVER_RESP = 0x80000001 /\
  command_value BIND_TRANSMITTER_RESP = 0x80000002 /\
  command_value QUERY_SM_RESP = 0x80000003 /\
  command_value SUBMIT_SM_RESP = 0x80000004 /\
  command_value DELIVER_SM_RESP = 0x80000005 /\
  command_value UNBIND_RESP = 0x80000006 /\
  command_value CANCEL_SM_RESP = 0x80000008 /\
  command_value BIND_TRANSCEIVER_RESP = 0x80000009 /\
  command_value ENQUIRE_LINK_RESP = 0x80000015 /\
  command_value SUBMIT_MULTI_RESP = 0x80000021 /\
  (forall c : SmppCommand, is_request c = true ->
      command_value (response_of c) = Z.lor (command_value c) RESPONSE_BIT /\
      In (command_value (response_of c)) command_ids) /\
  (forall v : Z, In v spec_request_ids ->
      In v command_ids /\ In (Z.lor v RESPONSE_BIT) command_ids) /\
  ~ In GENERIC_NACK_ID command_ids.
Proof.
  repeat split; try reflexivity.
  - intros Hin. cbv in Hin. cbv. tauto.
  - intros Hin. cbv in Hin. cbv. tauto.
  - apply response_of_value.
  - unfold command_ids. apply in_map. destruct c; simpl; tauto.
  - cbv in H. cbv. intuition (subst; auto).
  - cbv in H. cbv. intuition (subst; auto 25).
  - intros Hin. unfold command_ids in Hin. apply in_map_iff in Hin.
    destruct Hin as [c [Hc _]]. destruct c; discriminate Hc.
Qed.

End CommandIds.

(** ** The SMPP server *)

Section ServerStubs.
Import SmppServer.

(** C6: [start] and [stop] leave the three fields of the server unchanged, add
    no event to the I/O trace and handle no PDU. *)
Theorem start_stop_no_effect (w : World) :
  (host_ (server (start w)) = host_ (server w) /\
   port_ (server (start w)) = port_ (server w) /\
   routing_service_ (server (start w)) = routing_service_ (server w) /\
   trace (start w) = trace w /\
   pdus_handled (start w) = pdus_handled w) /\
  (host_ (server (stop w)) = host_ (server w) /\
   port_ (server (stop w)) = port_ (server w) /\
   routing_service_ (server (stop w)) = routing_service_ (server w) /\
   trace (stop w) = trace w /\
   pdus_handled (stop w) = pdus_handled w).
Proof. unfold start, stop. repeat split. Qed.

(** Any interleaving of [start] and [stop] calls is the identity. *)
Lemma run_lifecycle_identity (cs : list Call) :
  forall w, forallb is_lifecycle cs = true -> run w cs = w.
Proof.
  induction cs as [| c cs IH]; intros w H; simpl in *.
  - reflexivity.
  - apply andb_true_iff in H. destruct H as [Hc Hcs].
    destruct c; simpl in *; try discriminate Hc; apply IH; exact Hcs.
Qed.

(** No call of the interface ever produces I/O or handles a PDU. *)
Lemma run_trace_unchanged (cs : list Call) :
  forall w, trace (run w cs) = trace w.
Proof.
  unfold run. induction cs as [| c cs IH]; intros w; simpl.
  - reflexivity.
  - rewrite IH. destruct c; reflexivity.
Qed.

End ServerStubs.

(** ** Configuration *)

Section ConfigProperties.
Import Config Examples.
Open Scope string_scope.

Lemma list_ascii_of_string_app (s t : string) :
  list_ascii_of_string (s +:+ t) = (list_ascii_of_string s ++ list_ascii_of_string t)%list.
Proof. induction s as [| a s IH]; simpl; [reflexivity | now rewrite IH]. Qed.

Lemma string_length_app (s t : string) :
  String.length (s +:+ t) = (String.length s + String.length t)%nat.
Proof. induction s as [| a s IH]; simpl; [reflexivity | now rewrite IH]. Qed.

(** *** The environment never sets the security configuration *)

Lemma assign_if_security {A : Type} (o : option A) (assign : A -> Config -> Config) :
  (forall v c, security_config_ (assign v c) = security_config_ c) ->
  forall c, security_config_ (assign_if o assign c) = security_config_ c.
Proof. intros H c. destruct o; simpl; [apply H | reflexivity]. Qed.

Lemma load_from_env_security atoi env (c : Config) :
  security_config_ (load_from_env atoi env c) = security_config_ c.
Proof.
  unfold load_from_env.
  repeat (rewrite assign_if_security; [| intros; reflexivity]).
  reflexivity.
Qed.

(** *** Two hexadecimal digits for every value of the distribution *)

Lemma render_draw_all_bytes :
  forallb (fun k => two_lower_hex (render_draw (Z.of_nat k))) (seq 0 256) = true.
Proof. vm_compute. reflexivity. Qed.

Lemma render_draw_two_digits (v : Z) :
  0 <= v <= 255 -> two_lower_hex (render_draw v) = true.
Proof.
  intros Hv. pose proof render_draw_all_bytes as H.
  rewrite forallb_forall in H.
  specialize (H (Z.to_nat v)). rewrite Z2Nat.id in H by lia.
  apply H. apply in_seq. lia.
Qed.

Lemma render_draws_shape (draw : nat -> Z) :
  (forall i, 0 <= draw i <= 255) ->
  forall n i,
    String.length (render_draws draw i n) = (2 * n)%nat /\
    forallb is_lower_hex (list_ascii_of_string (render_draws draw i n)) = true.
Proof.
  intros Hdraw n. induction n as [| n IH]; intros i; simpl render_draws.
  - split; reflexivity.
  - destruct (IH (S i)) as [Hlen Hhex].
    pose proof (render_draw_two_digits (draw i) (Hdraw i)) as H2.
    unfold two_lower_hex in H2. apply andb_true_iff in H2. destruct H2 as [H2l H2h].
    apply Nat.eqb_eq in H2l.
    rewrite string_length_app, list_ascii_of_string_app, forallb_app.
    rewrite H2l, Hlen, H2h, Hhex. split; [lia | reflexivity].
Qed.

(** *** The digits spell the bytes drawn *)

Lemma render_draw_spells_all_bytes :
  forallb (fun k => spells (Z.of_nat k) (render_draw (Z.of_nat k))) (seq 0 256) = true.
Proof. vm_compute. reflexivity. Qed.

Lemma render_draw_spells (v : Z) :
  0 <= v <= 255 ->
  exists high low,
    render_draw v = String high (String low EmptyString) /\
    hex_value high = Some (v / 16) /\ hex_value low = Some (v mod 16).
Proof.
  intros Hv. pose proof render_draw_spells_all_bytes as H.
  rewrite forallb_forall in H.
  specialize (H (Z.to_nat v)). rewrite Z2Nat.id in H by lia.
  assert (Hs : spells v (render_draw v) = true) by (apply H, in_seq; lia).
  clear H. unfold spells in Hs.
  destruct (render_draw v) as [| high [| low [| c rest]]]; try discriminate Hs.
  destruct (hex_value high) as [h |] eqn:Hhigh; [| discriminate Hs].
  destruct (hex_value low) as [l |] eqn:Hlow; [| discriminate Hs].
  apply andb_true_iff in Hs. destruct Hs as [Hh Hl].
  apply Z.eqb_eq in Hh. apply Z.eqb_eq in Hl. subst h l.
  exists high, low. split; [reflexivity |]. split; [exact Hhigh | exact Hlow].
Qed.

Lemma render_draws_read_byte (draw : nat -> Z) :
  (forall i, 0 <= draw i <= 255) ->
  forall n i j, (j < n)%nat ->
    read_byte (render_draws draw i n) j = Some (draw (i + j)%nat).
Proof.
  intros Hdraw n. induction n as [| n IH]; intros i j Hj; [lia |].
  cbn [render_draws].
  destruct (render_draw_spells (draw i) (Hdraw i)) as (high & low & Hr & Hh & Hl).
  rewrite Hr.
  change (String high (String low EmptyString) +:+ render_draws draw (S i) n)
    with (String high (String low (render_draws draw (S i) n))).
  destruct j as [| j].
  - rewrite Nat.add_0_r.
    change (read_byte (String high (String low (render_draws draw (S i) n))) 0)
      with (match hex_value high, hex_value low with
            | Some h, Some l => Some (16 * h + l)
            | _, _ => None
            end).
    rewrite Hh, Hl. f_equal.
    pose proof (Z.div_mod (draw i) 16 ltac:(lia)). lia.
  - specialize (IH (S i) j ltac:(lia)).
    replace (i + S j)%nat with (S i + j)%nat by lia. rewrite <- IH.
    unfold read_byte.
    replace (2 * S j)%nat with (S (S (2 * j))) by lia.
    replace (S (S (2 * j)) + 1)%nat with (S (S (2 * j + 1))) by lia.
    reflexivity.
Qed.

(** C10: after the constructor the secret key is the rendering of 32 draws of
    the distribution, two lowercase hexadecimal digits each: 64 characters, not
    empty, and the two digits at positions [2 * i] and [2 * i + 1] spell the
    value of draw [i], zero-padded, the high digit first.  The environment
    sets no secret key, so the key is always generated. *)
Theorem secret_key_after_construct atoi (env : gmap string string) (draw : nat -> Z) :
  (forall i, 0 <= draw i <= 255) ->
  let key := secret_key (security_config_ (construct atoi env draw)) in
  secret_key (security_config_ (load_from_env atoi env default_members)) = "" /\
  key = render_draws draw 0 32 /\
  (forall i, String.length (render_draw (draw i)) = 2%nat) /\
  String.length key = 64%nat /\
  key <> "" /\
  forallb is_lower_hex (list_ascii_of_string key) = true /\
  (forall i, (i < 32)%nat -> read_byte key i = Some (draw i)).
Proof.
  intros Hdraw key.
  assert (Henv : secret_key (security_config_ (load_from_env atoi env default_members)) = "").
  { rewrite load_from_env_security. reflexivity. }
  assert (Hkey : key = render_draws draw 0 32).
  { unfold key, construct. rewrite Henv. reflexivity. }
  destruct (render_draws_shape draw Hdraw 32 0) as [Hlen Hhex].
  split; [exact Henv |]. split; [exact Hkey |]. split.
  - intros i. pose proof (render_draw_two_digits (draw i) (Hdraw i)) as H2.
    unfold two_lower_hex in H2. apply andb_true_iff in H2.
    destruct H2 as [H2 _]. apply Nat.eqb_eq in H2. exact H2.
  - rewrite Hkey. split; [exact Hlen |]. split; [| split; [exact Hhex |]].
    + intros Hempty. rewrite Hempty in Hlen. discriminate Hlen.
    + intros i Hi. apply (render_draws_read_byte draw Hdraw 32 0 i Hi).
Qed.

Lemma secret_key_after_construct_witness :
  let draw := fun i : nat => (Z.of_nat i * 37) mod 256 in
  let key := secret_key (security_config_
               (construct (fun _ => 0) {[ "DB_HOST" := "db.internal" ]} draw)) in
  String.length key = 64%nat /\ key <> "" /\
  read_byte key 1 = Some 37 /\ read_byte key 7 = Some 3.
Proof.
  intros draw key.
  assert (Hdraw : forall i, 0 <= draw i <= 255).
  { intros i. unfold draw. pose proof (Z.mod_pos_bound (Z.of_nat i * 37) 256). lia. }
  pose proof (secret_key_after_construct (fun _ => 0) {[ "DB_HOST" := "db.internal" ]}
                draw Hdraw) as H.
  cbv zeta in H. destruct H as (_ & _ & _ & Hlen & Hne & _ & Hbytes).
  split; [exact Hlen |]. split; [exact Hne |].
  split; [apply (Hbytes 1%nat); lia | apply (Hbytes 7%nat); lia].
Defined.

(** *** Precedence of the environment over the file *)

(** The constructor takes the database host from [DB_HOST]. *)
Lemma construct_db_host atoi (env : gmap string string) draw (h : string) :
  getenv env "DB_HOST" = Some h ->
  db_host (db_config_ (construct atoi env draw)) = h.
Proof.
  intros Hh. unfold construct.
  assert (Hhost : db_host (db_config_ (load_from_env atoi env default_members)) = h).
  { unfold load_from_env. rewrite Hh. simpl assign_if at 11.
    repeat match goal with
           | |- context [assign_if ?o ?f ?c] => destruct o; simpl assign_if
           end; reflexivity. }
  destruct (String.eqb _ _); [| exact Hhost]. exact Hhost.
Qed.

(** The loaders of the other sections do not touch the database and cache
    members. *)
Lemma load_app_config_frame parse_int parse_bool pt (c : Config) :
  db_config_ (load_app_config parse_int parse_bool pt c) = db_config_ c /\
  redis_config_ (load_app_config parse_int parse_bool pt c) = redis_config_ c.
Proof.
  unfold load_app_config.
  destruct (get_child_optional pt "Application"),
           (get_child_optional pt "Runtime"),
           (get_child_optional pt "Performance"); split; reflexivity.
Qed.

Lemma load_protocol_config_frame parse_int parse_bool pt (c : Config) :
  db_config_ (load_protocol_config parse_int parse_bool pt c) = db_config_ c /\
  redis_config_ (load_protocol_config parse_int parse_bool pt c) = redis_config_ c.
Proof.
  unfold load_protocol_config.
  destruct (get_child_optional pt "SMPP"), (get_child_optional pt "HTTP");
    split; reflexivity.
Qed.

Lemma load_security_config_frame parse_int pt (c : Config) :
  db_config_ (load_security_config parse_int pt c) = db_config_ c /\
  redis_config_ (load_security_config parse_int pt c) = redis_config_ c.
Proof.
  unfold load_security_config.
  destruct (get_child_optional pt "Authentication"),
           (get_child_optional pt "Password_Policy"); split; reflexivity.
Qed.

(** With [DB_HOST] set, [load_db_config] keeps the five connection fields and
    takes the two pool fields from the section. *)
Lemma load_db_config_db_env parse_int parse_bool (env : gmap string string) pt (c : Config) :
  is_Some (getenv env "DB_HOST") ->
  let d := db_config_ c in
  let d' := db_config_ (load_db_config parse_int parse_bool env pt c) in
  db_host d' = db_host d /\ db_port d' = db_port d /\ db_database d' = db_database d /\
  db_username d' = db_username d /\ db_password d' = db_password d /\
  db_timeout_seconds d' = db_timeout_seconds d /\
  match get_child_optional pt "PostgreSQL" with
  | Some db =>
      db_pool_size d' = get_int parse_int db "pool_size" (db_pool_size d) /\
      db_max_connections d' = get_int parse_int db "max_connections" (db_max_connections d)
  | None =>
      db_pool_size d' = db_pool_size d /\ db_max_connections d' = db_max_connections d
  end.
Proof.
  intros Henv d d'. unfold d', d, load_db_config.
  rewrite (bool_decide_eq_true_2 _ Henv).
  destruct (get_child_optional pt "PostgreSQL"), (get_child_optional pt "Redis");
    simpl; repeat split; reflexivity.
Qed.

Lemma load_db_config_redis_env parse_int parse_bool (env : gmap string string) pt (c : Config) :
  is_Some (getenv env "REDIS_HOST") ->
  let r := redis_config_ c in
  let r' := redis_config_ (load_db_config parse_int parse_bool env pt c) in
  redis_host r' = redis_host r /\ redis_port r' = redis_port r /\
  redis_password r' = redis_password r /\ redis_database r' = redis_database r /\
  redis_timeout_ms r' = redis_timeout_ms r /\
  match get_child_optional pt "Redis" with
  | Some redis =>
      redis_enabled r' = get_bool parse_bool redis "enabled" (redis_enabled r) /\
      redis_pool_size r' = get_int parse_int redis "pool_size" (redis_pool_size r)
  | None =>
      redis_enabled r' = redis_enabled r /\ redis_pool_size r' = redis_pool_size r
  end.
Proof.
  intros Henv r r'. unfold r', r, load_db_config.
  rewrite (bool_decide_eq_true_2 _ Henv).
  destruct (get_child_optional pt "PostgreSQL"), (get_child_optional pt "Redis");
    simpl; repeat split; reflexivity.
Qed.

(** C9: with [DB_HOST] set, [load_from_file] leaves host, port, database name,
    username and password of the database configuration as they were, and
    takes [pool_size] and [max_connections] from the PostgreSQL section of the
    file; with [REDIS_HOST] set it leaves host, port, password and database of
    the cache configuration as they were, and takes [enabled] and [pool_size]
    from the Redis section. *)
Theorem load_from_file_env_precedence parse_int parse_bool read_ini
    (env : gmap string string) (config_file : string) (c : Config) :
  let c' := snd (load_from_file parse_int parse_bool read_ini env config_file c) in
  (is_Some (getenv env "DB_HOST") ->
     (db_host (db_config_ c') = db_host (db_config_ c) /\
      db_port (db_config_ c') = db_port (db_config_ c) /\
      db_database (db_config_ c') = db_database (db_config_ c) /\
      db_username (db_config_ c') = db_username (db_config_ c) /\
      db_password (db_config_ c') = db_password (db_config_ c)) /\
     (forall pt db,
        read_ini config_file = Returned pt ->
        get_child_optional pt "PostgreSQL" = Some db ->
        db_pool_size (db_config_ c') =
          get_int parse_int db "pool_size" (db_pool_size (db_config_ c)) /\
        db_max_connections (db_config_ c') =
          get_int parse_int db "max_connections" (db_max_connections (db_config_ c)))) /\
  (is_Some (getenv env "REDIS_HOST") ->
     (redis_host (redis_config_ c') = redis_host (redis_config_ c) /\
      redis_port (redis_config_ c') = redis_port (redis_config_ c) /\
      redis_password (redis_config_ c') = redis_password (redis_config_ c) /\
      redis_database (redis_config_ c') = redis_database (redis_config_ c)) /\
     (forall pt redis,
        read_ini config_file = Returned pt ->
        get_child_optional pt "Redis" = Some redis ->
        redis_enabled (redis_config_ c') =
          get_bool parse_bool redis "enabled" (redis_enabled (redis_config_ c)) /\
        redis_pool_size (redis_config_ c') =
          get_int parse_int redis "pool_size" (redis_pool_size (redis_config_ c)))).
Proof.
  intros c'. unfold c', load_from_file.
  destruct (read_ini config_file) as [pt | [w | ]]; simpl snd.
  - destruct (load_security_config_frame parse_int pt
                (load_protocol_config parse_int parse_bool pt
                   (load_db_config parse_int parse_bool env pt
                      (load_app_config parse_int parse_bool pt c)))) as [Hs1 Hs2].
    destruct (load_protocol_config_frame parse_int parse_bool pt
                (load_db_config parse_int parse_bool env pt
                   (load_app_config parse_int parse_bool pt c))) as [Hp1 Hp2].
    destruct (load_app_config_frame parse_int parse_bool pt c) as [Ha1 Ha2].
    rewrite Hs1, Hs2, Hp1, Hp2. split; intros Henv.
    + pose proof (load_db_config_db_env parse_int parse_bool env pt
                    (load_app_config parse_int parse_bool pt c) Henv) as H.
      simpl in H. rewrite Ha1 in H.
      destruct H as (H1 & H2 & H3 & H4 & H5 & _ & Hpool).
      split; [repeat split; assumption |].
      intros pt' db Hpt Hdb. injection Hpt as <-. rewrite Hdb in Hpool. exact Hpool.
    + pose proof (load_db_config_redis_env parse_int parse_bool env pt
                    (load_app_config parse_int parse_bool pt c) Henv) as H.
      simpl in H. rewrite Ha2 in H.
      destruct H as (H1 & H2 & H3 & H4 & _ & Hpool).
      split; [repeat split; assumption |].
      intros pt' redis Hpt Hredis. injection Hpt as <-. rewrite Hredis in Hpool.
      exact Hpool.
  - split; intros _; (split; [repeat split; reflexivity | intros ? ? Hpt; discriminate Hpt]).
  - split; intros _; (split; [repeat split; reflexivity | intros ? ? Hpt; discriminate Hpt]).
Qed.

Lemma load_from_file_env_precedence_witness :
  let c := construct (fun _ => 0) example_env (fun _ => 0) in
  let c' := snd (load_from_file example_parse_int example_parse_bool
                   (fun _ => Returned example_ini) example_env "config/app.conf" c) in
  (db_host (db_config_ c') = "db.internal" /\ db_port (db_config_ c') = 5432 /\
   db_pool_size (db_config_ c') = 5 /\ db_max_connections (db_config_ c') = 7) /\
  (redis_host (redis_config_ c') = "cache.internal" /\
   redis_enabled (redis_config_ c') = false /\ redis_pool_size (redis_config_ c') = 3).
Proof.
  intros c c'.
  pose proof (load_from_file_env_precedence example_parse_int example_parse_bool
                (fun _ => Returned example_ini) example_env "config/app.conf" c) as H.
  fold c' in H. destruct H as [Hdb Hredis].
  assert (Hdbenv : is_Some (getenv example_env "DB_HOST")).
  { exists "db.internal". vm_compute. reflexivity. }
  assert (Hredisenv : is_Some (getenv example_env "REDIS_HOST")).
  { exists "cache.internal". vm_compute. reflexivity. }
  destruct (Hdb Hdbenv) as [(Hh & Hp & _) Hpool].
  destruct (Hredis Hredisenv) as [(Hrh & _) Hrpool].
  assert (Hsec : get_child_optional example_ini "PostgreSQL" = Some example_postgres).
  { vm_compute. reflexivity. }
  assert (Hrsec : get_child_optional example_ini "Redis" = Some example_redis).
  { vm_compute. reflexivity. }
  destruct (Hpool example_ini example_postgres eq_refl Hsec) as [Hps Hmc].
  destruct (Hrpool example_ini example_redis eq_refl Hrsec) as [Hre Hrp].
  split.
  - rewrite Hh, Hp, Hps, Hmc. vm_compute. repeat split; reflexivity.
  - rewrite Hrh, Hre, Hrp. vm_compute. repeat split; reflexivity.
Defined.

End ConfigProperties.

(** ** The cache client *)

Section RedisProperties.
Import Redis.

(** The invariant holds after construction and is kept by [initialize] and
    [shutdown], so no reachable client dereferences a null [redis_]. *)
Lemma fresh_connected : connected_if_initialized fresh.
Proof. intros H. discriminate H. Qed.

Lemma initialize_connected make_redis config (c : RedisClient) :
  connected_if_initialized c ->
  connected_if_initialized (snd (initialize make_redis config c)).
Proof.
  intros Hc. unfold initialize.
  destruct (initialized_ c) eqn:Hi; [exact Hc |].
  destruct (negb (Config.redis_enabled config)); [exact Hc |].
  destruct (make_redis config) as [r | e]; [| exact Hc].
  destruct (redis_ping r); simpl; intros _; eexists; reflexivity.
Qed.

Lemma shutdown_connected (c : RedisClient) : connected_if_initialized (shutdown c).
Proof. intros H. discriminate H. Qed.


Ltac unfold_ops :=
  unfold perform, Redis.set, set_ttl, get, del, exists_, hset, hget, hgetall, hdel,
    lpush, rpush, lpop, rpop, llen, sadd, sismember, smembers, zadd, zrange, ping,
    incr, decr, expire, publish.

(** An operation on a client that is not initialized returns the default
    without looking at [redis_]. *)
Lemma perform_uninitialized (c : RedisClient) (req : Request) :
  initialized_ c = false -> perform c req = Returns (failure_default req).
Proof. intros Hi. destruct req; unfold_ops; rewrite Hi; reflexivity. Qed.

(** An operation whose library call throws returns the default. *)
Lemma perform_library_throws (c : RedisClient) (r : Redis) (req : Request) :
  redis_ c = Some r -> library_throws r req = true ->
  perform c req = Returns (failure_default req).
Proof.
  intros Hr Ht. destruct (initialized_ c) eqn:Hi;
    [| apply perform_uninitialized; exact Hi].
  destruct req; unfold_ops; rewrite Hi, Hr; simpl in *;
    match goal with
    | H : is_thrown ?o = true |- _ => destruct o; [discriminate H | reflexivity]
    end.
Qed.

(** No operation lets an exception escape. *)
Lemma perform_no_exception (c : RedisClient) (req : Request) (e : exception) :
  perform c req <> Propagates e.
Proof.
  destruct req; unfold_ops; destruct (initialized_ c); simpl;
    try discriminate;
    destruct (redis_ c) as [r |]; simpl; try discriminate;
    match goal with
    | |- context [call ?o] => destruct o as [[] | ]; simpl; discriminate
    | |- context [call ?o] => destruct o; simpl; discriminate
    end.
Qed.

(** C8: every operation of the client returns the failure default of its type
    when the client is not initialized or when the library call throws, and no
    operation ever lets an exception reach its caller. *)
Theorem operations_fail_to_default (c : RedisClient) (req : Request) :
  (initialized_ c = false \/
   exists r, redis_ c = Some r /\ library_throws r req = true) ->
  perform c req = Returns (failure_default req) /\
  forall e, perform c req <> Propagates e.
Proof.
  intros H. split; [| intros e; apply perform_no_exception].
  destruct H as [Hi | [r [Hr Ht]]].
  - apply perform_uninitialized; exact Hi.
  - apply (perform_library_throws c r); assumption.
Qed.

Lemma operations_fail_to_default_witness :
  perform fresh (ReqGet "campaign:42") = Returns (VOptional None) /\
  perform {| redis_ := Some unreachable_server; initialized_ := true |}
          (ReqIncr "counter") = Returns (VLongLong 0).
Proof.
  split.
  - apply (operations_fail_to_default fresh (ReqGet "campaign:42")).
    left. reflexivity.
  - apply (operations_fail_to_default
             {| redis_ := Some unreachable_server; initialized_ := true |}
             (ReqIncr "counter")).
    right. exists unreachable_server. split; reflexivity.
Defined.

End RedisProperties.

(** ** The connection pool *)

Section DatabaseProperties.
Import Database.
Open Scope list_scope.
Variable can_connect : string -> bool.
Variable connect_error : string -> option exception.
Variable wait_for : World -> World.

Lemma set_available_returned q (w : World) : returned (set_available q w) = returned w.
Proof. reflexivity. Qed.

(** [return_connection] never throws; it logs its argument and gives an open
    connection back to the queue. *)
Lemma return_connection_spec (conn : ConnectionPtr) (w : World) :
  fst (return_connection conn w) = Returned tt /\
  returned (snd (return_connection conn w)) = returned w ++ [conn] /\
  available_ (db (snd (return_connection conn w))) =
    if is_open w conn then available_ (db w) ++ [conn] else available_ (db w).
Proof.
  unfold return_connection, is_open; simpl.
  destruct (bool_decide (conn ∈ open_connections w)); simpl; repeat split; reflexivity.
Qed.

Lemma return_connection_eta (conn : ConnectionPtr) (w : World) :
  return_connection conn w = (Returned tt, snd (return_connection conn w)).
Proof.
  unfold return_connection. destruct (is_open _ conn); reflexivity.
Qed.

(** [get_connection] calls [return_connection] on no path: when it does not
    wait, the log is as before. *)
Lemma get_connection_returned (w : World) :
  available_ (db w) <> [] ->
  returned (snd (get_connection can_connect connect_error wait_for w)) = returned w.
Proof.
  unfold get_connection, take_front.
  destruct (available_ (db w)) as [| conn rest]; [congruence | intros _].
  destruct (negb (is_open (set_available rest w) conn)); [| reflexivity].
  unfold make_connection. destruct (can_connect _); reflexivity.
Qed.

(** When the pool hands out no connection, [execute] ends with the exception
    of [get_connection] and returns nothing to the pool. *)
Lemma execute_no_connection {R : Type} (func : ConnectionPtr -> M R) (w w1 : World) e :
  get_connection can_connect connect_error wait_for w = (Thrown e, w1) ->
  execute can_connect connect_error wait_for func w = (Thrown e, w1).
Proof. intros H. unfold execute, mbind, M_bind. rewrite H. reflexivity. Qed.

Lemma execute_unfold {R : Type} (func : ConnectionPtr -> M R) (w w1 w2 : World) conn r :
  get_connection can_connect connect_error wait_for w = (Returned conn, w1) ->
  func conn w1 = (r, w2) ->
  execute can_connect connect_error wait_for func w = (r, snd (return_connection conn w2)).
Proof.
  intros Hget Hfunc.
  unfold execute, mbind, M_bind, try_catch_all, mret, M_ret, throw.
  rewrite Hget, Hfunc.
  destruct r as [result | e]; rewrite (return_connection_eta conn w2); reflexivity.
Qed.

Section Transaction.
Variable work_begin : ConnectionPtr -> M Work.
Variable work_commit : Work -> M unit.

Lemma transaction_unfold {R : Type} (func : Work -> M R) (w w1 w2 : World) conn r :
  get_connection can_connect connect_error wait_for w = (Returned conn, w1) ->
  transaction_body work_begin work_commit func conn w1 = (r, w2) ->
  transaction can_connect connect_error wait_for work_begin work_commit func w =
    (r, snd (return_connection conn w2)).
Proof.
  intros Hget Hbody.
  unfold transaction, transaction_body, mbind, M_bind, try_catch_all, mret, M_ret, throw
    in *.
  rewrite Hget.
  destruct (work_begin conn w1) as [[txn | e] wb].
  - destruct (func txn wb) as [[result | e] wf].
    + destruct (work_commit txn wf) as [[[] | e] wc];
        injection Hbody as <- <-; rewrite (return_connection_eta conn wc); reflexivity.
    + injection Hbody as <- <-. rewrite (return_connection_eta conn wf). reflexivity.
  - injection Hbody as <- <-. rewrite (return_connection_eta conn wb). reflexivity.
Qed.

(** C7, amended: once [get_connection] has handed out [conn], [execute] and
    [transaction] call [return_connection] with [conn] exactly once after the
    callback (and the commit) have run, whether these returned or threw; the
    caller sees the value or the exception of the callback.  The connection is
    back in the queue when it is still open; one that is no longer open is
    not put back. *)
Theorem connection_returned_exactly_once {R : Type}
    (func : ConnectionPtr -> M R) (tfunc : Work -> M R)
    (w w1 : World) (conn : ConnectionPtr) :
  get_connection can_connect connect_error wait_for w = (Returned conn, w1) ->
  (forall r w2, func conn w1 = (r, w2) ->
     fst (execute can_connect connect_error wait_for func w) = r /\
     returned (snd (execute can_connect connect_error wait_for func w)) = returned w2 ++ [conn] /\
     available_ (db (snd (execute can_connect connect_error wait_for func w))) =
       if is_open w2 conn then available_ (db w2) ++ [conn] else available_ (db w2)) /\
  (forall r w2, transaction_body work_begin work_commit tfunc conn w1 = (r, w2) ->
     fst (transaction can_connect connect_error wait_for work_begin work_commit tfunc w) = r /\
     returned (snd (transaction can_connect connect_error wait_for work_begin work_commit
                      tfunc w)) = returned w2 ++ [conn] /\
     available_ (db (snd (transaction can_connect connect_error wait_for work_begin
                            work_commit tfunc w))) =
       if is_open w2 conn then available_ (db w2) ++ [conn] else available_ (db w2)).
Proof.
  intros Hget. split.
  - intros r w2 Hfunc. rewrite (execute_unfold func w w1 w2 conn r Hget Hfunc). simpl.
    destruct (return_connection_spec conn w2) as (_ & Hlog & Hq). auto.
  - intros r w2 Hbody. rewrite (transaction_unfold tfunc w w1 w2 conn r Hget Hbody). simpl.
    destruct (return_connection_spec conn w2) as (_ & Hlog & Hq). auto.
Qed.

End Transaction.
End DatabaseProperties.

Section DatabaseExample.
Import Database Examples.

Lemma connection_returned_exactly_once_witness :
  let can_connect := fun _ : string => true in
  let connect_error := fun _ : string => @None exception in
  let wait_for := fun w : World => w in
  (fst (execute can_connect connect_error wait_for failing_query example_pool) =
     Thrown (std_exception "relation does not exist") /\
   returned (snd (execute can_connect connect_error wait_for failing_query example_pool)) =
     [0%nat]) /\
  (fst (transaction can_connect connect_error wait_for example_begin failing_commit
          counting_query example_pool) = Thrown (std_exception "could not serialize access") /\
   returned (snd (transaction can_connect connect_error wait_for example_begin failing_commit
                    counting_query example_pool)) = [0%nat]).
Proof.
  intros can_connect connect_error wait_for.
  assert (Hget : get_connection can_connect connect_error wait_for example_pool =
                 (Returned 0%nat, set_available [1%nat] example_pool)).
  { vm_compute. reflexivity. }
  destruct (connection_returned_exactly_once can_connect connect_error wait_for
              example_begin failing_commit failing_query counting_query example_pool _
              0%nat Hget)
    as (Hexec & Htxn).
  split.
  - destruct (Hexec (Thrown (std_exception "relation does not exist"))
                (set_available [1%nat] example_pool) eq_refl) as (H1 & H2 & _).
    split; [exact H1 | exact H2].
  - destruct (Htxn (Thrown (std_exception "could not serialize access"))
                (set_available [1%nat] example_pool) eq_refl) as (H1 & H2 & _).
    split; [exact H1 | exact H2].
Defined.

(** C7, counterexample: an error can cost the pool a connection.  The server
    closes the connection under the callback, which throws; [execute] hands
    the connection to [return_connection] once, [return_connection] does not
    queue it, and nothing replaces it.  After two such calls the pool of two
    is empty, and the next call times out although the server accepts new
    connections. *)
Lemma execute_error_leaks_connection :
  let can_connect := fun _ : string => true in
  let connect_error := fun _ : string => @None exception in
  let wait_for := fun w : World => w in
  let w1 := snd (execute can_connect connect_error wait_for breaking_query example_pool) in
  let w2 := snd (execute can_connect connect_error wait_for breaking_query w1) in
  fst (execute can_connect connect_error wait_for breaking_query example_pool) =
    Thrown (std_exception "server closed the connection unexpectedly") /\
  returned w1 = [0%nat] /\ available_ (db w1) = [1%nat] /\
  returned w2 = [0%nat; 1%nat] /\ available_ (db w2) = [] /\
  all_connections_ (db w2) = [0%nat; 1%nat] /\
  fst (execute can_connect connect_error wait_for counting_query w2) =
    Thrown (std_exception "Connection pool timeout - no connections available").
Proof. vm_compute. repeat split; reflexivity. Qed.

(** A connection that was closed under the callback is handed to
    [return_connection] like any other, and [return_connection] does not put
    it back into the queue. *)
Lemma execute_closed_connection_not_requeued :
  let can_connect := fun _ : string => true in
  let connect_error := fun _ : string => @None exception in
  let wait_for := fun w : World => w in
  returned (snd (execute can_connect connect_error wait_for breaking_query example_pool)) =
    [0%nat] /\
  available_ (db (snd (execute can_connect connect_error wait_for breaking_query
                         example_pool))) = [1%nat].
Proof. vm_compute. split; reflexivity. Qed.

End DatabaseExample.

(** ** The PDU codec *)

Section CodecProperties.
Import Smpp PduCodec.
Open Scope list_scope.

(** *** Octets and 32-bit integers *)

Lemma Z_of_uint8_range (b : Byte.byte) : 0 <= Z_of_uint8 b < 256.
Proof.
  unfold Z_of_uint8. pose proof (Byte.to_N_bounded b) as H.
  split; [apply N2Z.is_nonneg |]. apply N.lt_succ_r in H. simpl in H.
  change 256 with (Z.of_N 256). apply N2Z.inj_lt. exact H.
Qed.

Lemma Z_of_uint8_of_Z (z : Z) : Z_of_uint8 (uint8_of_Z z) = z mod 256.
Proof.
  unfold Z_of_uint8, uint8_of_Z.
  pose proof (Z.mod_pos_bound z 256 ltac:(lia)) as Hz.
  pose proof (byte_of_ascii_via_N (ascii_of_N (Z.to_N (z mod 256)))) as H.
  symmetry in H. apply Byte.to_of_N in H. rewrite H.
  rewrite N_ascii_embedding.
  - apply Z2N.id. lia.
  - change 256%N with (Z.to_N 256). apply Z2N.inj_lt; lia.
Qed.

Lemma uint8_of_Z_of_uint8 (b : Byte.byte) : uint8_of_Z (Z_of_uint8 b) = b.
Proof. destruct b; vm_compute; reflexivity. Qed.

Lemma land_0xFF_range (v : Z) : 0 <= Z.land v 0xFF < 256.
Proof.
  change 0xFF with (Z.ones 8). rewrite Z.land_ones by lia.
  apply Z.mod_pos_bound. lia.
Qed.

Lemma testbit_0xFF (n : Z) : 0 <= n -> Z.testbit 0xFF n = (n <? 8).
Proof. intros Hn. change 0xFF with (Z.ones 8). apply Z.testbit_ones_nonneg; lia. Qed.

Lemma testbit_octet_at (v k n : Z) :
  0 <= k -> 0 <= n ->
  Z.testbit (Z.shiftl (Z.land (Z.shiftr v k) 0xFF) k) n =
    (k <=? n) && (n <? k + 8) && Z.testbit v n.
Proof.
  intros Hk Hn. rewrite Z.shiftl_spec by lia.
  destruct (Z.leb_spec k n) as [Hle | Hlt].
  - rewrite Z.land_spec, Z.shiftr_spec, testbit_0xFF by lia.
    replace (n - k + k) with n by lia.
    replace (n - k <? 8) with (n <? k + 8) by (apply eq_true_iff_eq; rewrite !Z.ltb_lt; lia).
    simpl. apply andb_comm.
  - rewrite Z.testbit_neg_r by lia. reflexivity.
Qed.

(** Reading back the four octets of a 32-bit value gives the value. *)
Lemma uint32_octets (v : Z) :
  is_uint32 v ->
  Z.lor (Z.shiftl (Z.land (Z.shiftr v 24) 0xFF) 24)
    (Z.lor (Z.shiftl (Z.land (Z.shiftr v 16) 0xFF) 16)
      (Z.lor (Z.shiftl (Z.land (Z.shiftr v 8) 0xFF) 8) (Z.land v 0xFF))) = v.
Proof.
  intros [Hlo Hhi]. apply Z.bits_inj'. intros n Hn.
  rewrite !Z.lor_spec, !testbit_octet_at by lia.
  rewrite Z.land_spec, testbit_0xFF by lia.
  assert (Hbit : 32 <= n -> Z.testbit v n = false).
  { intros Hge. destruct (Z.eq_dec v 0) as [-> | Hv0]; [apply Z.bits_0 |].
    apply Z.bits_above_log2; [lia |].
    apply Z.log2_lt_pow2; [lia |].
    apply Z.lt_le_trans with (2 ^ 32); [lia |].
    apply Z.pow_le_mono_r; lia. }
  destruct (Z.testbit v n); rewrite ?andb_true_r, ?andb_false_r; [| reflexivity].
  destruct (Z.le_gt_cases 32 n) as [Hge | Hlt]; [specialize (Hbit Hge); discriminate |].
  repeat match goal with
         | |- context [(?a <=? ?b)] => destruct (Z.leb_spec a b)
         | |- context [(?a <? ?b)] => destruct (Z.ltb_spec a b)
         end; simpl; try reflexivity; lia.
Qed.

(** *** Readers on encoded fields *)

Lemma reads_ret {A : Type} (v : A) : reads (mret v) [] v.
Proof. intros pre post. unfold mret, Reader_ret. simpl. f_equal. lia. Qed.

Lemma reads_bind {A B : Type} (m : Reader A) (k : A -> Reader B) e1 e2 a b :
  reads m e1 a -> reads (k a) e2 b -> reads (m ≫= k) (e1 ++ e2) b.
Proof.
  intros Hm Hk pre post. unfold mbind, Reader_bind.
  rewrite <- (app_assoc e1 e2 post), (Hm pre (e2 ++ post)).
  specialize (Hk (pre ++ e1) post).
  rewrite <- app_assoc, length_app in Hk. rewrite Hk.
  f_equal. rewrite length_app. lia.
Qed.

Lemma at_inside (pre mid post : list Byte.byte) (b : Byte.byte) (n k : nat) :
  n = (length pre + k)%nat -> mid !! k = Some b ->
  at_ (pre ++ mid ++ post) n = ReadOk b (S n).
Proof.
  intros -> Hk. unfold at_.
  rewrite lookup_app_r by lia.
  replace (length pre + k - length pre)%nat with k by lia.
  rewrite lookup_app_l by (apply lookup_lt_Some in Hk; exact Hk).
  rewrite Hk. reflexivity.
Qed.

Lemma reads_uint8 (b : Byte.byte) : reads read_uint8 (encode_uint8 b) b.
Proof.
  intros pre post. unfold read_uint8, encode_uint8.
  rewrite !length_app. simpl length.
  replace (length pre <? length pre + (1 + length post))%nat with true
    by (symmetry; apply Nat.ltb_lt; lia).
  rewrite (at_inside pre [b] post b _ 0) by (try reflexivity; lia).
  f_equal. lia.
Qed.

Lemma reads_uint32 (v : Z) : is_uint32 v -> reads read_uint32 (encode_uint32 v) v.
Proof.
  intros Hv pre post. unfold read_uint32.
  rewrite !length_app. change (length (encode_uint32 v)) with 4%nat.
  replace (length pre + 4 <=? length pre + (4 + length post))%nat with true
    by (symmetry; apply Nat.leb_le; lia).
  unfold encode_uint32.
  match goal with
  | |- context [pre ++ [?b0; ?b1; ?b2; ?b3] ++ post] =>
      rewrite (at_inside pre [b0; b1; b2; b3] post b0 (length pre) 0 ltac:(lia) eq_refl),
        (at_inside pre [b0; b1; b2; b3] post b1 (length pre + 1) 1 ltac:(lia) eq_refl),
        (at_inside pre [b0; b1; b2; b3] post b2 (length pre + 2) 2 ltac:(lia) eq_refl),
        (at_inside pre [b0; b1; b2; b3] post b3 (length pre + 3) 3 ltac:(lia) eq_refl)
  end.
  rewrite !Z_of_uint8_of_Z.
  rewrite !(Z.mod_small (Z.land _ 0xFF) 256) by apply land_0xFF_range.
  rewrite (uint32_octets v Hv). reflexivity.
Qed.

Lemma read_c_string_loop_spec (str : list Byte.byte) :
  nul_free str = true ->
  forall fuel acc pre post,
    (length str < fuel)%nat ->
    read_c_string_loop fuel acc (pre ++ encode_c_string str ++ post) (length pre) =
      ReadOk (rev acc ++ str) (length pre + length (encode_c_string str))%nat.
Proof.
  unfold encode_c_string.
  induction str as [| b str IH]; intros Hnul fuel acc pre post Hfuel.
  - destruct fuel as [| fuel]; [simpl in Hfuel; lia |]. simpl.
    rewrite (at_inside pre [Byte.x00] post Byte.x00 _ 0) by (try reflexivity; lia).
    simpl. rewrite app_nil_r. f_equal. lia.
  - destruct fuel as [| fuel]; [simpl in Hfuel; lia |].
    simpl in Hnul. apply andb_true_iff in Hnul. destruct Hnul as [Hb Hstr].
    simpl read_c_string_loop.
    rewrite (at_inside pre ((b :: str) ++ [Byte.x00]) post b _ 0) by (try reflexivity; lia).
    apply negb_true_iff in Hb. rewrite Hb.
    replace (pre ++ b :: (str ++ [Byte.x00]) ++ post)
      with ((pre ++ [b]) ++ (str ++ [Byte.x00]) ++ post)
      by (rewrite <- !app_assoc; reflexivity).
    replace (S (length pre)) with (length (pre ++ [b]))
      by (rewrite length_app; simpl; lia).
    rewrite (IH Hstr fuel (b :: acc) (pre ++ [b]) post) by (simpl in Hfuel; lia).
    simpl rev. rewrite <- app_assoc. simpl. f_equal.
    rewrite !length_app. simpl. lia.
Qed.

Lemma reads_c_string (str : list Byte.byte) :
  nul_free str = true -> reads read_c_string (encode_c_string str) str.
Proof.
  intros Hnul pre post. unfold read_c_string.
  rewrite (read_c_string_loop_spec str Hnul _ [] pre post); [reflexivity |].
  rewrite !length_app. unfold encode_c_string. rewrite length_app. simpl. lia.
Qed.

Lemma reads_octets (msg : list Byte.byte) (n : nat) :
  n = length msg -> reads (read_octets n) msg msg.
Proof.
  intros -> pre post. unfold read_octets.
  rewrite !length_app.
  replace (length pre + length msg <=? length pre + (length msg + length post))%nat
    with true by (symmetry; apply Nat.leb_le; lia).
  rewrite drop_app_length, take_app_length. reflexivity.
Qed.

(** *** Bodies *)

Lemma reads_bind_ret {A B : Type} (m : Reader A) (f : A -> B) enc a v :
  reads m enc a -> f a = v -> reads (x ← m; mret (f x)) enc v.
Proof.
  intros Hm <-. rewrite <- (app_nil_r enc).
  eapply reads_bind; [exact Hm | apply reads_ret].
Qed.

Lemma c_string_field_ok (max : nat) (str enc : list Byte.byte) :
  c_string_field max str = Ok enc ->
  enc = encode_c_string str /\ (length enc <= max)%nat.
Proof.
  unfold c_string_field.
  destruct (Nat.leb_spec (length (encode_c_string str)) max) as [Hle | Hgt];
    intros Henc; [| discriminate Henc].
  injection Henc as <-. split; [reflexivity | assumption].
Qed.

Lemma short_message_field_ok (msg enc : list Byte.byte) :
  short_message_field msg = Ok enc ->
  enc = encode_uint8 (uint8_of_Z (Z.of_nat (length msg))) ++ msg /\
  (length msg <= MAX_SHORT_MESSAGE)%nat.
Proof.
  unfold short_message_field.
  destruct (Nat.leb_spec (length msg) MAX_SHORT_MESSAGE) as [Hle | Hgt];
    intros Henc; [| discriminate Henc].
  injection Henc as <-. split; [reflexivity | assumption].
Qed.

Ltac invert_fields :=
  repeat match goal with
         | H : context [c_string_field ?max ?str] |- _ =>
             let E := fresh "E" in
             destruct (c_string_field max str) eqn:E; simpl in H; [| discriminate H];
             apply c_string_field_ok in E; destruct E as [-> ?]
         | H : context [short_message_field ?msg] |- _ =>
             let E := fresh "E" in
             destruct (short_message_field msg) eqn:E; simpl in H; [| discriminate H];
             apply short_message_field_ok in E; destruct E as [-> ?]
         end.

Ltac read_field :=
  match goal with
  | |- reads (read_c_string ≫= _) _ _ =>
      eapply reads_bind; [apply reads_c_string; assumption |]
  | |- reads (read_uint8 ≫= _) (?b :: ?rest) _ =>
      change (b :: rest) with (encode_uint8 b ++ rest);
      eapply reads_bind; [apply reads_uint8 |]
  end.

Lemma reads_bind_fields (f : BindFields) (enc : list Byte.byte) :
  encode_bind_fields f = Ok enc ->
  forallb nul_free [bind_system_id f; Smpp.password f; system_type f; address_range f] = true ->
  reads read_bind_fields enc f.
Proof.
  unfold encode_bind_fields, mbind, result_bind, mret, result_ret.
  intros Henc Hnul. invert_fields. injection Henc as <-.
  simpl in Hnul. rewrite !andb_true_iff in Hnul.
  destruct Hnul as (N1 & N2 & N3 & N4 & _).
  unfold read_bind_fields. do 6 read_field.
  eapply reads_bind_ret; [apply reads_c_string; assumption |].
  destruct f; reflexivity.
Qed.

Lemma reads_sm_fields (f : SmFields) (enc : list Byte.byte) :
  encode_sm_fields f = Ok enc ->
  forallb nul_free [service_type f; source_addr f; destination_addr f;
                    schedule_delivery_time f; validity_period f] = true ->
  Z_of_uint8 (sm_length f) = Z.of_nat (length (short_message f)) ->
  reads read_sm_fields enc f.
Proof.
  unfold encode_sm_fields, mbind, result_bind, mret, result_ret.
  intros Henc Hnul Hlen. invert_fields. injection Henc as <-.
  simpl in Hnul. rewrite !andb_true_iff in Hnul.
  destruct Hnul as (N1 & N2 & N3 & N4 & N5 & _).
  assert (Hsm : uint8_of_Z (Z.of_nat (length (short_message f))) = sm_length f).
  { rewrite <- Hlen. apply uint8_of_Z_of_uint8. }
  rewrite Hsm.
  unfold read_sm_fields. do 17 read_field.
  eapply reads_bind_ret;
    [apply reads_octets; rewrite Hlen; apply Nat2Z.id |].
  destruct f; reflexivity.
Qed.

(** The reader [decode] selects for the header of a canonical PDU reads the
    body [encode] wrote. *)
Lemma class_command_ids_uint32 (p : SmppPdu) :
  command_id_of_class p = true -> is_uint32 (command_id (header p)).
Proof.
  unfold command_id_of_class, is_uint32.
  destruct p; cbn [class_command_ids existsb header];
    rewrite ?orb_true_iff, ?Z.eqb_eq; intuition (try discriminate; lia).
Qed.

Lemma read_body_reads (p : SmppPdu) (body : list Byte.byte) :
  encode_body p = Ok body ->
  command_id_of_class p = true ->
  forallb nul_free (strings p) = true ->
  sm_length_matches p = true ->
  exists r, read_body (header p) = Some r /\ reads r body p.
Proof.
  intros Henc Hid Hnul Hsm. unfold read_body, command_id_of_class in *.
  destruct p as [h f | h sid | h f | h mid | h f | h | h | h | h];
    cbn [strings encode_body sm_length_matches class_command_ids existsb header] in *;
    rewrite ?orb_false_r in Hid;
    repeat match type of Hid with
           | (_ || _)%bool = true => apply orb_prop in Hid; destruct Hid as [Hid | Hid]
           end;
    apply Z.eqb_eq in Hid; rewrite Hid; simpl;
    eexists; (split; [reflexivity |]).
  - eapply reads_bind_ret; [apply reads_bind_fields; eassumption | reflexivity].
  - eapply reads_bind_ret; [apply reads_bind_fields; eassumption | reflexivity].
  - eapply reads_bind_ret; [apply reads_bind_fields; eassumption | reflexivity].
  - apply c_string_field_ok in Henc. destruct Henc as [-> _].
    eapply reads_bind_ret; [apply reads_c_string | reflexivity].
    simpl in Hnul. apply andb_true_iff in Hnul. tauto.
  - apply c_string_field_ok in Henc. destruct Henc as [-> _].
    eapply reads_bind_ret; [apply reads_c_string | reflexivity].
    simpl in Hnul. apply andb_true_iff in Hnul. tauto.
  - apply c_string_field_ok in Henc. destruct Henc as [-> _].
    eapply reads_bind_ret; [apply reads_c_string | reflexivity].
    simpl in Hnul. apply andb_true_iff in Hnul. tauto.
  - eapply reads_bind_ret; [| reflexivity].
    apply reads_sm_fields; [eassumption | assumption | apply Z.eqb_eq; assumption].
  - apply c_string_field_ok in Henc. destruct Henc as [-> _].
    eapply reads_bind_ret; [apply reads_c_string | reflexivity].
    simpl in Hnul. apply andb_true_iff in Hnul. tauto.
  - eapply reads_bind_ret; [| reflexivity].
    apply reads_sm_fields; [eassumption | assumption | apply Z.eqb_eq; assumption].
  - injection Henc as <-. apply reads_ret.
  - injection Henc as <-. apply reads_ret.
  - injection Henc as <-. apply reads_ret.
  - injection Henc as <-. apply reads_ret.
Qed.

(** An encoded body is short. *)
Lemma encode_body_length (p : SmppPdu) (body : list Byte.byte) :
  encode_body p = Ok body -> (length body <= 400)%nat.
Proof.
  destruct p as [h f | h sid | h f | h mid | h f | h | h | h | h]; simpl;
    unfold encode_bind_fields, encode_sm_fields, mbind, result_bind, mret, result_ret;
    intros Henc; invert_fields;
    try (injection Henc as <-);
    try (apply c_string_field_ok in Henc; destruct Henc as [-> Hlen]);
    unfold MAX_SYSTEM_ID, MAX_PASSWORD, MAX_SYSTEM_TYPE, MAX_ADDRESS_RANGE,
      MAX_SERVICE_TYPE, MAX_ADDR, MAX_TIME, MAX_MESSAGE_ID, MAX_SHORT_MESSAGE in *;
    unfold encode_c_string, encode_uint8 in *;
    repeat (progress (repeat rewrite length_app in *; simpl length in *)); lia.
Qed.

Lemma is_uint32b_spec (v : Z) : is_uint32b v = true <-> is_uint32 v.
Proof.
  unfold is_uint32b, is_uint32. rewrite andb_true_iff, Z.leb_le, Z.ltb_lt. tauto.
Qed.

Lemma reads_header (h : SmppHeader) :
  is_uint32 (command_length h) -> is_uint32 (command_id h) ->
  is_uint32 (command_status h) -> is_uint32 (sequence_number h) ->
  reads read_header_fields
    (encode_uint32 (command_length h) ++ encode_uint32 (command_id h) ++
     encode_uint32 (command_status h) ++ encode_uint32 (sequence_number h)) h.
Proof.
  intros H1 H2 H3 H4. unfold read_header_fields.
  do 3 (eapply reads_bind; [apply reads_uint32; assumption |]).
  eapply reads_bind_ret; [apply reads_uint32; assumption |].
  destruct h; reflexivity.
Qed.

(** [skip_tlvs] at the end of the buffer has nothing to skip. *)
Lemma skip_tlvs_at_end (fuel : nat) (data : list Byte.byte) (offset : nat) :
  (length data <= offset)%nat -> skip_tlvs fuel data offset = ReadOk tt offset.
Proof.
  intros H. destruct fuel; simpl;
    (replace (length data <=? offset)%nat with true
       by (symmetry; apply Nat.leb_le; exact H)); reflexivity.
Qed.

(** Decoding the encoding of a canonical PDU gives the PDU. *)
Lemma decode_encode_canonical (p : SmppPdu) :
  canonical p = true -> decode_encode p = Decoded p.
Proof.
  unfold canonical, header_matches. rewrite !andb_true_iff.
  intros [[[[[Hlen Hid] Hst] Hseq] Hnul] Hsm].
  destruct (encode_body p) as [body | e] eqn:Hbody; [| discriminate Hlen].
  apply Z.eqb_eq in Hlen. apply is_uint32b_spec in Hst, Hseq.
  pose proof (encode_body_length p body Hbody) as Hshort.
  destruct (read_body_reads p body Hbody Hid Hnul Hsm) as [r [Hr Hreads]].
  assert (Hh : reads read_header_fields
                 (encode_uint32 (command_length (header p)) ++
                  encode_uint32 (command_id (header p)) ++
                  encode_uint32 (command_status (header p)) ++
                  encode_uint32 (sequence_number (header p))) (header p)).
  { apply reads_header; try assumption.
    - rewrite Hlen. unfold is_uint32. lia.
    - apply class_command_ids_uint32. exact Hid. }
  unfold decode_encode, encode, mbind, result_bind, mret, result_ret.
  rewrite Hbody, <- Hlen.
  set (hdr := encode_uint32 (command_length (header p)) ++
              encode_uint32 (command_id (header p)) ++
              encode_uint32 (command_status (header p)) ++
              encode_uint32 (sequence_number (header p))) in *.
  assert (Hdata : encode_uint32 (command_length (header p)) ++
                  encode_uint32 (command_id (header p)) ++
                  encode_uint32 (command_status (header p)) ++
                  encode_uint32 (sequence_number (header p)) ++ body = hdr ++ body).
  { unfold hdr. rewrite <- !app_assoc. reflexivity. }
  rewrite Hdata.
  assert (Hhdr16 : length hdr = 16%nat) by reflexivity.
  unfold decode. rewrite length_app, Hhdr16.
  replace (16 + length body <? 16)%nat with false
    by (symmetry; apply Nat.ltb_ge; lia).
  unfold read_header.
  specialize (Hh [] body).
  change ([] ++ hdr ++ body) with (hdr ++ body) in Hh.
  change (length (@nil Byte.byte)) with 0%nat in Hh. rewrite Hh.
  rewrite Hlen.
  replace (Z.of_nat (16 + length body) <? 16 + Z.of_nat (length body)) with false
    by (symmetry; apply Z.ltb_ge; lia).
  replace (16 + Z.of_nat (length body) =? Z.of_nat (16 + length body)) with true
    by (symmetry; apply Z.eqb_eq; lia).
  simpl negb. cbv iota. rewrite Hr.
  unfold mbind, Reader_bind, mret, Reader_ret.
  specialize (Hreads hdr []). rewrite app_nil_r in Hreads. rewrite Hhdr16 in Hreads.
  rewrite Hreads.
  rewrite skip_tlvs_at_end by (rewrite length_app; lia).
  reflexivity.
Qed.

(** In general the header that comes back is the one the wire carried: the
    length member of the object is not preserved. *)
Lemma decode_encode_wire_header (p : SmppPdu) (body : list Byte.byte) :
  encode_body p = Ok body ->
  command_id_of_class p = true ->
  is_uint32 (command_status (header p)) -> is_uint32 (sequence_number (header p)) ->
  forallb nul_free (strings p) = true ->
  sm_length_matches p = true ->
  decode_encode p = Decoded (with_header (wire_header p body) p).
Proof.
  intros Hbody Hid Hst Hseq Hnul Hsm.
  set (q := with_header (wire_header p body) p).
  assert (Hq : canonical q = true).
  { unfold canonical, header_matches.
    replace (encode_body q) with (encode_body p) by (destruct p; reflexivity).
    rewrite Hbody.
    replace (strings q) with (strings p) by (destruct p; reflexivity).
    replace (sm_length_matches q) with (sm_length_matches p) by (destruct p; reflexivity).
    replace (command_id_of_class q) with (command_id_of_class p)
      by (destruct p; reflexivity).
    replace (header q) with (wire_header p body) by (destruct p; reflexivity).
    rewrite Hnul, Hsm, Hid. cbn [wire_header command_length command_status sequence_number].
    rewrite Z.eqb_refl.
    apply is_uint32b_spec in Hst, Hseq. rewrite Hst, Hseq. reflexivity. }
  rewrite <- (decode_encode_canonical q Hq).
  unfold decode_encode, encode.
  replace (encode_body q) with (encode_body p) by (destruct p; reflexivity).
  replace (header q) with (wire_header p body) by (destruct p; reflexivity).
  reflexivity.
Qed.

(** *** Accesses stay inside the buffer *)

Lemma at_in_bounds (data : list Byte.byte) (i : nat) :
  (i < length data)%nat -> exists b, at_ data i = ReadOk b (S i).
Proof.
  intros Hi. unfold at_. destruct (lookup_lt_is_Some_2 data i Hi) as [b Hb].
  rewrite Hb. exists b. reflexivity.
Qed.

Lemma in_bounds_ret {A : Type} (a : A) : in_bounds (mret a).
Proof. intros data offset. unfold mret, Reader_ret. lia. Qed.

Lemma in_bounds_bind {A B : Type} (m : Reader A) (k : A -> Reader B) :
  in_bounds m -> (forall a, in_bounds (k a)) -> in_bounds (m ≫= k).
Proof.
  intros Hm Hk data offset. unfold mbind, Reader_bind.
  specialize (Hm data offset). destruct (m data offset) as [a offset' | e |];
    [| exact I | exact Hm].
  specialize (Hk a data offset'). destruct (k a data offset'); [lia | exact I | exact Hk].
Qed.

Lemma read_uint8_in_bounds : in_bounds read_uint8.
Proof.
  intros data offset. unfold read_uint8.
  destruct (Nat.ltb_spec offset (length data)) as [Hlt | Hge]; [| exact I].
  destruct (at_in_bounds data offset Hlt) as [b ->]. lia.
Qed.

Lemma read_uint16_ok (data : list Byte.byte) (offset : nat) :
  (offset + 2 <= length data)%nat ->
  exists v, read_uint16 data offset = ReadOk v (offset + 2).
Proof.
  intros H. unfold read_uint16.
  replace (offset + 2 <=? length data)%nat with true by (symmetry; apply Nat.leb_le; lia).
  destruct (at_in_bounds data offset ltac:(lia)) as [b0 ->].
  destruct (at_in_bounds data (offset + 1) ltac:(lia)) as [b1 ->].
  eexists. reflexivity.
Qed.

Lemma read_uint32_ok (data : list Byte.byte) (offset : nat) :
  (offset + 4 <= length data)%nat ->
  exists v, read_uint32 data offset = ReadOk v (offset + 4).
Proof.
  intros H. unfold read_uint32.
  replace (offset + 4 <=? length data)%nat with true by (symmetry; apply Nat.leb_le; lia).
  destruct (at_in_bounds data offset ltac:(lia)) as [b0 ->].
  destruct (at_in_bounds data (offset + 1) ltac:(lia)) as [b1 ->].
  destruct (at_in_bounds data (offset + 2) ltac:(lia)) as [b2 ->].
  destruct (at_in_bounds data (offset + 3) ltac:(lia)) as [b3 ->].
  eexists. reflexivity.
Qed.

Lemma read_uint32_in_bounds : in_bounds read_uint32.
Proof.
  intros data offset.
  destruct (Nat.leb_spec (offset + 4) (length data)) as [Hle | Hgt].
  - destruct (read_uint32_ok data offset Hle) as [v ->]. lia.
  - unfold read_uint32.
    replace (offset + 4 <=? length data)%nat with false
      by (symmetry; apply Nat.leb_gt; lia).
    exact I.
Qed.

Lemma read_c_string_loop_in_bounds (fuel : nat) :
  forall acc data offset,
    (fuel <= length data - offset)%nat ->
    match read_c_string_loop fuel acc data offset with
    | ReadOk _ offset' => (offset <= offset')%nat
    | ReadErr _ => True
    | OutOfBounds => False
    end.
Proof.
  induction fuel as [| fuel IH]; intros acc data offset Hfuel; simpl; [exact I |].
  destruct (at_in_bounds data offset ltac:(lia)) as [b ->].
  destruct (is_nul b); [lia |].
  specialize (IH (b :: acc) data (S offset) ltac:(lia)).
  destruct (read_c_string_loop fuel (b :: acc) data (S offset)); [lia | exact I | exact IH].
Qed.

Lemma read_c_string_in_bounds : in_bounds read_c_string.
Proof.
  intros data offset. unfold read_c_string.
  apply read_c_string_loop_in_bounds. lia.
Qed.

Lemma read_octets_in_bounds (n : nat) : in_bounds (read_octets n).
Proof.
  intros data offset. unfold read_octets.
  destruct (offset + n <=? length data)%nat; [lia | exact I].
Qed.

Ltac in_bounds_chain :=
  repeat first
    [ apply in_bounds_ret
    | apply in_bounds_bind; [| intros ?]
    | apply read_c_string_in_bounds
    | apply read_uint8_in_bounds
    | apply read_uint32_in_bounds
    | apply read_octets_in_bounds ].

Lemma read_header_fields_in_bounds : in_bounds read_header_fields.
Proof. unfold read_header_fields. in_bounds_chain. Qed.

Lemma read_bind_fields_in_bounds : in_bounds read_bind_fields.
Proof. unfold read_bind_fields. in_bounds_chain. Qed.

Lemma read_sm_fields_in_bounds : in_bounds read_sm_fields.
Proof. unfold read_sm_fields. in_bounds_chain. Qed.

Lemma read_body_in_bounds (h : SmppHeader) (r : Reader SmppPdu) :
  read_body h = Some r -> in_bounds r.
Proof.
  unfold read_body. intros H.
  repeat match type of H with
         | (if ?c then _ else _) = _ => destruct c
         end;
    try discriminate H; injection H as <-;
    in_bounds_chain;
    first [ apply read_bind_fields_in_bounds | apply read_sm_fields_in_bounds ].
Qed.

Lemma skip_tlvs_in_bounds (fuel : nat) : in_bounds (skip_tlvs fuel).
Proof.
  induction fuel as [| fuel IH]; intros data offset; simpl.
  - destruct (length data <=? offset)%nat; [lia | exact I].
  - destruct (length data <=? offset)%nat; [lia |].
    destruct (Nat.leb_spec (offset + 4) (length data)) as [Hle | Hgt]; [| exact I].
    destruct (read_uint16_ok data offset ltac:(lia)) as [tag ->].
    destruct (read_uint16_ok data (offset + 2) ltac:(lia)) as [len ->].
    destruct (offset + 2 + 2 + Z.to_nat len <=? length data)%nat; [| exact I].
    specialize (IH data (offset + 2 + 2 + Z.to_nat len)%nat).
    destruct (skip_tlvs fuel data (offset + 2 + 2 + Z.to_nat len)%nat);
      [lia | exact I | exact IH].
Qed.

(** A buffer of at least 16 octets has a header, and the [command_length] of
    the header is the declared length. *)
Lemma read_header_ok (data : list Byte.byte) :
  (16 <= length data)%nat ->
  exists h, read_header data = ReadOk h 16 /\
            declared_length data = Some (command_length h).
Proof.
  intros H. unfold read_header, read_header_fields, declared_length,
    mbind, Reader_bind, mret, Reader_ret.
  destruct (read_uint32_ok data 0 ltac:(lia)) as [v0 ->].
  destruct (read_uint32_ok data 4 ltac:(lia)) as [v1 H1].
  destruct (read_uint32_ok data 8 ltac:(lia)) as [v2 H2].
  destruct (read_uint32_ok data 12 ltac:(lia)) as [v3 H3].
  simpl in *. rewrite H1, H2, H3. eexists. split; reflexivity.
Qed.

(** [decode] has no undefined behaviour, whatever the buffer. *)
Lemma decode_in_bounds (data : list Byte.byte) : decode data <> UndefinedBehaviour.
Proof.
  unfold decode.
  destruct (Nat.ltb_spec (length data) 16) as [Hlt | Hge]; [discriminate |].
  destruct (read_header_ok data Hge) as [h [-> _]].
  destruct (Z.of_nat (length data) <? command_length h); [discriminate |].
  destruct (negb (command_length h =? Z.of_nat (length data))); [discriminate |].
  destruct (read_body h) as [r |] eqn:Hr; [| discriminate].
  assert (Hb : in_bounds (p ← r; _ ← skip_tlvs (length data); mret p)).
  { apply in_bounds_bind; [exact (read_body_in_bounds h r Hr) | intros p].
    apply in_bounds_bind; [apply skip_tlvs_in_bounds | intros ?; apply in_bounds_ret]. }
  specialize (Hb data 16%nat).
  destruct ((p ← r; _ ← skip_tlvs (length data); mret p) data 16%nat);
    simpl; [discriminate | discriminate | contradiction].
Qed.

(** C5: a buffer shorter than the header, or shorter than the length its
    first four octets declare, is rejected with [Truncated]; no octet outside
    the buffer is accessed. *)
Theorem decode_truncated (data : list Byte.byte) :
  ((length data < 16)%nat \/
   exists n, declared_length data = Some n /\ Z.of_nat (length data) < n) ->
  decode data = Failed Truncated /\ decode data <> UndefinedBehaviour.
Proof.
  intros H. split; [| apply decode_in_bounds].
  unfold decode.
  destruct (Nat.ltb_spec (length data) 16) as [Hlt | Hge]; [reflexivity |].
  destruct H as [Hshort | [n [Hn Hlen]]]; [lia |].
  destruct (read_header_ok data Hge) as [h [-> Hdecl]].
  rewrite Hn in Hdecl. injection Hdecl as ->.
  replace (Z.of_nat (length data) <? command_length h) with true
    by (symmetry; apply Z.ltb_lt; exact Hlen).
  reflexivity.
Qed.

(** *** The round trip *)


(** A string member that holds a NUL octet does not come back either (reading
    stops at that octet and the rest is taken for optional parameters), nor
    does a stale [sm_length] member (it comes back as the length that was
    written), nor an object whose header holds the identifier of another class
    (it comes back as an object of that class). *)
Lemma decode_encode_embedded_nul :
  decode_encode PduExamples.bind_resp_embedded_nul <>
  Decoded PduExamples.bind_resp_embedded_nul.
Proof. vm_compute. intros H. discriminate H. Qed.

Lemma decode_encode_stale_sm_length :
  decode_encode PduExamples.submit_sm_stale_length <>
  Decoded PduExamples.submit_sm_stale_length.
Proof. vm_compute. intros H. discriminate H. Qed.

Lemma decode_encode_other_class :
  decode_encode PduExamples.unbind_as_enquire_link =
    Decoded (EnquireLinkPdu (header PduExamples.unbind_as_enquire_link)) /\
  decode_encode PduExamples.unbind_as_enquire_link <>
    Decoded PduExamples.unbind_as_enquire_link.
Proof. vm_compute. split; [reflexivity | intros H; discriminate H]. Qed.



(** The examples are at the limits: one more octet in a string member or in
    [short_message] and [encode] fails with [FieldTooLong]. *)
Lemma examples_at_maximum_width :
  length (short_message (PduExamples.wide_sm_fields (PduExamples.octets 254 Byte.x41))) =
    254%nat /\
  encode (SubmitSmPdu default_header
            (PduExamples.wide_sm_fields (PduExamples.octets 255 Byte.x41))) =
    Err FieldTooLong /\
  encode (BindRespPdu default_header (PduExamples.octets 15 Byte.x73)) <> Err FieldTooLong /\
  encode (BindRespPdu default_header (PduExamples.octets 16 Byte.x73)) = Err FieldTooLong.
Proof. vm_compute. repeat split; intros H; discriminate H. Qed.

Lemma decode_truncated_witness :
  decode PduExamples.header_declaring_32 = Failed Truncated /\
  decode [Byte.x00; Byte.x00; Byte.x00] = Failed Truncated.
Proof.
  split.
  - apply (decode_truncated PduExamples.header_declaring_32).
    right. exists 32. split; [vm_compute; reflexivity | simpl; lia].
  - apply (decode_truncated [Byte.x00; Byte.x00; Byte.x00]).
    left. simpl. lia.
Defined.

End CodecProperties.

(** ** The submission window *)

Section WindowProperties.
Import WindowManager.
Open Scope Z_scope.

(** The capacity the program configures is always the default, 10: neither
    the environment nor the SMPP section of the file assigns
    [window_size]. *)
Lemma assign_if_smpp {A : Type} (o : option A) (assign : A -> Config.Config -> Config.Config) :
  (forall v c, Config.smpp_config_ (assign v c) = Config.smpp_config_ c) ->
  forall c, Config.smpp_config_ (Config.assign_if o assign c) = Config.smpp_config_ c.
Proof. intros H c. destruct o; simpl; [apply H | reflexivity]. Qed.

Lemma construct_window_size atoi (env : gmap string string) (draw : nat -> Z) :
  Config.window_size (Config.smpp_config_ (Config.construct atoi env draw)) = 10.
Proof.
  unfold Config.construct.
  assert (H : Config.smpp_config_ (Config.load_from_env atoi env Config.default_members) =
              Config.default_SmppConfig).
  { unfold Config.load_from_env.
    repeat (rewrite assign_if_smpp; [| intros; reflexivity]). reflexivity. }
  destruct (String.eqb _ _); simpl; rewrite H; reflexivity.
Qed.

Lemma load_from_file_window_size parse_int parse_bool read_ini
    (env : gmap string string) (config_file : string) (c : Config.Config) :
  Config.window_size
    (Config.smpp_config_
       (snd (Config.load_from_file parse_int parse_bool read_ini env config_file c))) =
  Config.window_size (Config.smpp_config_ c).
Proof.
  unfold Config.load_from_file.
  destruct (read_ini config_file) as [pt | [w | ]]; simpl; try reflexivity.
  unfold Config.load_security_config, Config.load_protocol_config,
    Config.load_db_config, Config.load_app_config.
  repeat match goal with
         | |- context [Config.get_child_optional pt ?name] =>
             destruct (Config.get_child_optional pt name)
         end; reflexivity.
Qed.

(** *** The bound *)

Lemma create_within_capacity (window_size : Z) :
  0 <= window_size -> within_capacity (create window_size).
Proof.
  intros H. unfold within_capacity, in_flight, create. simpl.
  rewrite map_size_empty. simpl. exact H.
Qed.

Lemma reserve_within_capacity now seq payload timeout (w : Window) :
  within_capacity w -> within_capacity (snd (reserve now seq payload timeout w)).
Proof.
  unfold within_capacity, reserve, in_flight. intros Hw.
  destruct (Z.ltb_spec (Z.of_nat (size (entries w))) (capacity w)) as [Hlt | Hge];
    simpl; [| exact Hw].
  rewrite map_size_insert. destruct (entries w !! seq); simpl; lia.
Qed.

Lemma resolve_within_capacity seq (w : Window) :
  within_capacity w -> within_capacity (snd (resolve seq w)).
Proof.
  unfold within_capacity, resolve, in_flight. intros Hw.
  destruct (entries w !! seq) as [e |] eqn:He; simpl; [| exact Hw].
  rewrite map_size_delete, He. simpl. lia.
Qed.

Lemma sweep_within_capacity now (w : Window) :
  within_capacity w -> within_capacity (snd (sweep now w)).
Proof.
  unfold within_capacity, sweep, in_flight. simpl. intros Hw.
  pose proof (map_size_filter (fun kv : Z * InFlightEntry => elapsed now (snd kv) = false)
                (entries w)) as H.
  lia.
Qed.

Lemma step_within_capacity (w : Window) (c : Call) :
  within_capacity w -> within_capacity (step w c).
Proof.
  destruct c; simpl.
  - apply reserve_within_capacity.
  - apply resolve_within_capacity.
  - apply sweep_within_capacity.
Qed.

Lemma step_capacity (w : Window) (c : Call) : capacity (step w c) = capacity w.
Proof.
  destruct c; simpl; unfold reserve, resolve, sweep; simpl.
  - destruct (in_flight w <? capacity w); reflexivity.
  - destruct (entries w !! sequence_number); reflexivity.
  - reflexivity.
Qed.

Lemma run_within_capacity (calls : list Call) :
  forall w, within_capacity w ->
            within_capacity (run w calls) /\ capacity (run w calls) = capacity w.
Proof.
  unfold run. induction calls as [| c calls IH]; intros w Hw; simpl.
  - split; [exact Hw | reflexivity].
  - destruct (IH (step w c) (step_within_capacity w c Hw)) as [H1 H2].
    split; [exact H1 |]. rewrite H2. apply step_capacity.
Qed.

(** A full window refuses a reservation and stays as it is. *)
Lemma reserve_full now seq payload timeout (w : Window) :
  capacity w <= in_flight w ->
  reserve now seq payload timeout w = (inl WindowFull, w).
Proof.
  intros H. unfold reserve.
  replace (in_flight w <? capacity w) with false by (symmetry; apply Z.ltb_ge; exact H).
  reflexivity.
Qed.

(** Reservations under fresh sequence numbers fill the window one by one. *)
Lemma reserve_fresh now seq payload timeout (w : Window) :
  in_flight w < capacity w -> entries w !! seq = None ->
  fst (reserve now seq payload timeout w) = inr seq /\
  in_flight (snd (reserve now seq payload timeout w)) = in_flight w + 1.
Proof.
  intros Hlt Hfresh. unfold reserve.
  replace (in_flight w <? capacity w) with true by (symmetry; apply Z.ltb_lt; exact Hlt).
  simpl. split; [reflexivity |].
  unfold in_flight. simpl. rewrite map_size_insert_None by exact Hfresh. lia.
Qed.

(** C2: whatever calls are made on a window created for a capacity
    [window_size] (reservations, and resolutions and sweeps between them), the
    number of in-flight entries never exceeds [window_size], and a reservation
    attempted while [window_size] entries are outstanding fails with
    [WindowFull] and leaves the window as it is. *)
Theorem window_never_exceeds_capacity (window_size : Z) (calls : list Call) :
  0 <= window_size ->
  let w := run (create window_size) calls in
  in_flight w <= window_size /\
  (forall now seq payload timeout,
      in_flight w = window_size ->
      reserve now seq payload timeout w = (inl WindowFull, w)).
Proof.
  intros Hsize w.
  destruct (run_within_capacity calls (create window_size)
              (create_within_capacity window_size Hsize)) as [Hw Hcap].
  fold w in Hw, Hcap. unfold within_capacity in Hw. simpl in Hcap.
  split; [lia |].
  intros now seq payload timeout Hfull. apply reserve_full. lia.
Qed.

(** Scenario B of the specification: a window of one slot. *)
Lemma window_never_exceeds_capacity_witness :
  let w := run (create 1) [CallReserve 0 1 100%nat 30] in
  in_flight w <= 1 /\ reserve 5 2 101%nat 30 w = (inl WindowFull, w).
Proof.
  intros w.
  destruct (window_never_exceeds_capacity 1 [CallReserve 0 1 100%nat 30] ltac:(lia))
    as [Hle Hfull].
  fold w in Hle, Hfull. split; [exact Hle |].
  apply Hfull. vm_compute. reflexivity.
Defined.

End WindowProperties.

(** ** The session *)

Section SessionProperties.
Import Session.

(** C3: a session that is in neither [BoundTx] nor [BoundTrx] answers an
    outbound [SubmitSm] with [IllegalInState] at once; the session, its window
    and the octets written to its socket stay as they were. *)
Theorem submit_sm_illegal_in_state (now timeout : Z) (payload_ref : nat)
    (fields : Smpp.SmFields) (s : Session) :
  state s <> BoundTx -> state s <> BoundTrx ->
  fst (submit_sm now timeout payload_ref fields s) = inl IllegalInState /\
  snd (submit_sm now timeout payload_ref fields s) = s /\
  socket_written (snd (submit_sm now timeout payload_ref fields s)) = socket_written s.
Proof.
  intros Htx Htrx. unfold submit_sm.
  destruct (state s) eqn:Hst; simpl; try (repeat split; reflexivity); congruence.
Qed.

Lemma submit_sm_illegal_in_state_witness :
  fst (submit_sm 0 30 1%nat Smpp.default_SubmitSmFields open_session) =
    inl IllegalInState /\
  socket_written (snd (submit_sm 0 30 1%nat Smpp.default_SubmitSmFields open_session)) = [].
Proof.
  destruct (submit_sm_illegal_in_state 0 30 1%nat Smpp.default_SubmitSmFields open_session)
    as (H1 & _ & H3).
  - simpl. discriminate.
  - simpl. discriminate.
  - split; [exact H1 | exact H3].
Defined.

(** In a bound state with a free slot the same call goes through: the PDU is
    written to the socket under sequence number 1. *)
Lemma submit_sm_bound_writes :
  fst (submit_sm 0 30 1%nat Smpp.default_SubmitSmFields bound_session) = inr 1 /\
  PduCodec.encode
    (Smpp.SubmitSmPdu
       {| Smpp.command_length := 33; Smpp.command_id := 4; Smpp.command_status := 0;
          Smpp.sequence_number := 1 |} Smpp.default_SubmitSmFields) =
  PduCodec.Ok (socket_written
                 (snd (submit_sm 0 30 1%nat Smpp.default_SubmitSmFields bound_session))).
Proof. vm_compute. split; reflexivity. Qed.

End SessionProperties.

(** ** Configuration: what the loaders assign *)

Section ConfigEnvironment.
Import Config.
Open Scope string_scope.

Lemma get_string_idempotent (node : gmap string string) (key default : string) :
  get_string node key (get_string node key default) = get_string node key default.
Proof. unfold get_string. destruct (node !! key); reflexivity. Qed.

Lemma get_int_idempotent parse_int (node : gmap string string) (key : string) (default : Z) :
  get_int parse_int node key (get_int parse_int node key default) =
  get_int parse_int node key default.
Proof.
  unfold get_int. destruct (node !! key) as [v |]; [| reflexivity].
  destruct (parse_int v); reflexivity.
Qed.

Lemma get_bool_idempotent parse_bool (node : gmap string string) (key : string)
    (default : bool) :
  get_bool parse_bool node key (get_bool parse_bool node key default) =
  get_bool parse_bool node key default.
Proof.
  unfold get_bool. destruct (node !! key) as [v |]; [| reflexivity].
  destruct (parse_bool v); reflexivity.
Qed.

Lemma assign_if_identity {A : Type} (o : option A) (c : Config) :
  assign_if o (fun _ c => c) c = c.
Proof. destruct o; reflexivity. Qed.

(** X1: [load_from_env] takes values from the ten variables of
    [environment_names] only.  Two environments that agree on them give the
    same members, whatever the other variables hold ([LOG_LEVEL] is read and
    its value is not used); an environment that sets none of the ten leaves
    the members as they are. *)
Theorem load_from_env_reads_ten_names atoi (env1 env2 : gmap string string) (c : Config) :
  Forall (fun name => getenv env1 name = getenv env2 name) environment_names ->
  load_from_env atoi env1 c = load_from_env atoi env2 c /\
  (Forall (fun name => getenv env1 name = None) environment_names ->
   load_from_env atoi env1 c = c).
Proof.
  unfold environment_names. intros H.
  repeat match goal with
         | H : Forall _ (_ :: _) |- _ => apply Forall_cons_1 in H; destruct H as [? H]
         end.
  split.
  - unfold load_from_env.
    repeat match goal with
           | E : getenv env1 ?n = getenv env2 ?n |- _ => rewrite E; clear E
           end.
    rewrite !assign_if_identity. reflexivity.
  - intros Hnone.
    repeat match goal with
           | H : Forall _ (_ :: _) |- _ => apply Forall_cons_1 in H; destruct H as [? H]
           end.
    unfold load_from_env.
    repeat match goal with
           | E : getenv env1 ?n = None |- _ => rewrite E; clear E
           end.
    simpl. apply assign_if_identity.
Qed.

Lemma load_from_env_reads_ten_names_witness :
  load_from_env (fun _ => 0) {[ "LOG_LEVEL" := "debug"; "HOME" := "/root" ]} default_members =
  default_members.
Proof.
  assert (Hsame : Forall (fun name =>
                    getenv {[ "LOG_LEVEL" := "debug"; "HOME" := "/root" ]} name =
                    getenv (∅ : gmap string string) name) environment_names).
  { unfold environment_names. repeat constructor. }
  destruct (load_from_env_reads_ten_names (fun _ => 0)
              {[ "LOG_LEVEL" := "debug"; "HOME" := "/root" ]} ∅ default_members Hsame)
    as [_ Hid].
  apply Hid. unfold environment_names. repeat constructor.
Defined.

End ConfigEnvironment.

Section ConfigFixedMembers.
Import Config.
Open Scope string_scope.
Variable parse_int : string -> option Z.
Variable parse_bool : string -> option bool.
Variable read_ini : string -> outcome exception (gmap string (gmap string string)).

Ltac split_sections pt :=
  repeat match goal with
         | |- context [get_child_optional pt ?name] =>
             destruct (get_child_optional pt name)
         | |- context [bool_decide ?P] => destruct (bool_decide P)
         end.

Lemma load_app_config_keeps_fixed pt (c : Config) :
  members_no_file_assigns (load_app_config parse_int parse_bool pt c) =
  members_no_file_assigns c.
Proof. unfold load_app_config. split_sections pt; reflexivity. Qed.

Lemma load_db_config_keeps_fixed (env : gmap string string) pt (c : Config) :
  members_no_file_assigns (load_db_config parse_int parse_bool env pt c) =
  members_no_file_assigns c.
Proof. unfold load_db_config. split_sections pt; reflexivity. Qed.

Lemma load_protocol_config_keeps_fixed pt (c : Config) :
  members_no_file_assigns (load_protocol_config parse_int parse_bool pt c) =
  members_no_file_assigns c.
Proof. unfold load_protocol_config. split_sections pt; reflexivity. Qed.

Lemma load_security_config_keeps_fixed pt (c : Config) :
  members_no_file_assigns (load_security_config parse_int pt c) =
  members_no_file_assigns c.
Proof. unfold load_security_config. split_sections pt; reflexivity. Qed.

Lemma load_from_file_keeps_fixed_members (env : gmap string string) (config_file : string)
    (c : Config) :
  members_no_file_assigns
    (snd (load_from_file parse_int parse_bool read_ini env config_file c)) =
  members_no_file_assigns c.
Proof.
  unfold load_from_file.
  destruct (read_ini config_file) as [pt | [w | ]]; simpl snd; try reflexivity.
  rewrite load_security_config_keeps_fixed, load_protocol_config_keeps_fixed,
    load_db_config_keeps_fixed, load_app_config_keeps_fixed.
  reflexivity.
Qed.

(** X2: no configuration file can change [window_size], the two timeouts,
    [base_dir], the three untouched HTTP settings or the secret key and the
    other untouched security settings: after any number of [load_from_file]
    calls they are what they were. *)
Theorem files_never_assign (loads : list (gmap string string * string)) (c : Config) :
  members_no_file_assigns (load_files parse_int parse_bool read_ini loads c) =
  members_no_file_assigns c.
Proof.
  unfold load_files. revert c.
  induction loads as [| load loads IH]; intros c; simpl; [reflexivity |].
  rewrite IH. apply load_from_file_keeps_fixed_members.
Qed.

End ConfigFixedMembers.

Section ConfigIdempotence.
Import Config.
Open Scope string_scope.
Variable parse_int : string -> option Z.
Variable parse_bool : string -> option bool.
Variable read_ini : string -> outcome exception (gmap string (gmap string string)).

Ltac split_sections pt :=
  repeat match goal with
         | |- context [get_child_optional pt ?name] =>
             destruct (get_child_optional pt name)
         | |- context [bool_decide ?P] => destruct (bool_decide P)
         end.

Lemma config_ext (c d : Config) :
  app_config_ c = app_config_ d -> db_config_ c = db_config_ d ->
  redis_config_ c = redis_config_ d -> smpp_config_ c = smpp_config_ d ->
  api_config_ c = api_config_ d -> security_config_ c = security_config_ d ->
  c = d.
Proof. destruct c, d; simpl; intros; subst; reflexivity. Qed.

(** Each loader assigns its own members only, from their old values only, and
    assigns the same values when it runs again. *)
Lemma load_app_config_members pt (c d : Config) :
  let l := load_app_config parse_int parse_bool pt in
  (db_config_ (l c) = db_config_ c /\ redis_config_ (l c) = redis_config_ c /\
   smpp_config_ (l c) = smpp_config_ c /\ api_config_ (l c) = api_config_ c /\
   security_config_ (l c) = security_config_ c) /\
  (app_config_ c = app_config_ d -> app_config_ (l c) = app_config_ (l d)) /\
  app_config_ (l (l c)) = app_config_ (l c).
Proof.
  unfold load_app_config. split_sections pt; simpl;
    (split; [repeat split |
             split; [intros ->; reflexivity |
                     rewrite ?get_string_idempotent, ?get_int_idempotent,
                       ?get_bool_idempotent; reflexivity]]).
Qed.

Lemma load_db_config_members (env : gmap string string) pt (c d : Config) :
  let l := load_db_config parse_int parse_bool env pt in
  (app_config_ (l c) = app_config_ c /\ smpp_config_ (l c) = smpp_config_ c /\
   api_config_ (l c) = api_config_ c /\ security_config_ (l c) = security_config_ c) /\
  (db_config_ c = db_config_ d -> db_config_ (l c) = db_config_ (l d)) /\
  (redis_config_ c = redis_config_ d -> redis_config_ (l c) = redis_config_ (l d)) /\
  db_config_ (l (l c)) = db_config_ (l c) /\
  redis_config_ (l (l c)) = redis_config_ (l c).
Proof.
  unfold load_db_config. split_sections pt; simpl;
    (split; [repeat split |
             split; [intros ->; reflexivity |
                     split; [intros ->; reflexivity |
                             rewrite ?get_string_idempotent, ?get_int_idempotent,
                               ?get_bool_idempotent; split; reflexivity]]]).
Qed.

Lemma load_protocol_config_members pt (c d : Config) :
  let l := load_protocol_config parse_int parse_bool pt in
  (app_config_ (l c) = app_config_ c /\ db_config_ (l c) = db_config_ c /\
   redis_config_ (l c) = redis_config_ c /\
   security_config_ (l c) = security_config_ c) /\
  (smpp_config_ c = smpp_config_ d -> smpp_config_ (l c) = smpp_config_ (l d)) /\
  (api_config_ c = api_config_ d -> api_config_ (l c) = api_config_ (l d)) /\
  smpp_config_ (l (l c)) = smpp_config_ (l c) /\
  api_config_ (l (l c)) = api_config_ (l c).
Proof.
  unfold load_protocol_config. split_sections pt; simpl;
    (split; [repeat split |
             split; [intros ->; reflexivity |
                     split; [intros ->; reflexivity |
                             rewrite ?get_string_idempotent, ?get_int_idempotent,
                               ?get_bool_idempotent; split; reflexivity]]]).
Qed.

Lemma load_security_config_members pt (c d : Config) :
  let l := load_security_config parse_int pt in
  (app_config_ (l c) = app_config_ c /\ db_config_ (l c) = db_config_ c /\
   redis_config_ (l c) = redis_config_ c /\ smpp_config_ (l c) = smpp_config_ c /\
   api_config_ (l c) = api_config_ c) /\
  (security_config_ c = security_config_ d ->
   security_config_ (l c) = security_config_ (l d)) /\
  security_config_ (l (l c)) = security_config_ (l c).
Proof.
  unfold load_security_config. split_sections pt; simpl;
    (split; [repeat split |
             split; [intros ->; reflexivity |
                     rewrite ?get_int_idempotent; reflexivity]]).
Qed.

(** The four loaders one after the other, as in [load_from_file]. *)
Lemma load_all_members (env : gmap string string) pt (c : Config) :
  let all := load_security_config parse_int pt
               (load_protocol_config parse_int parse_bool pt
                  (load_db_config parse_int parse_bool env pt
                     (load_app_config parse_int parse_bool pt c))) in
  app_config_ all = app_config_ (load_app_config parse_int parse_bool pt c) /\
  db_config_ all = db_config_ (load_db_config parse_int parse_bool env pt c) /\
  redis_config_ all = redis_config_ (load_db_config parse_int parse_bool env pt c) /\
  smpp_config_ all = smpp_config_ (load_protocol_config parse_int parse_bool pt c) /\
  api_config_ all = api_config_ (load_protocol_config parse_int parse_bool pt c) /\
  security_config_ all = security_config_ (load_security_config parse_int pt c).
Proof.
  intros all. unfold all.
  set (a := load_app_config parse_int parse_bool pt c).
  set (b := load_db_config parse_int parse_bool env pt a).
  set (p := load_protocol_config parse_int parse_bool pt b).
  destruct (load_app_config_members pt c c) as ((Ha1 & Ha2 & Ha3 & Ha4 & Ha5) & _ & _).
  destruct (load_db_config_members env pt a c) as ((Hb1 & Hb2 & Hb3 & Hb4) & Hbd & Hbr & _).
  destruct (load_protocol_config_members pt b c)
    as ((Hp1 & Hp2 & Hp3 & Hp4) & Hps & Hpa & _).
  destruct (load_security_config_members pt p c)
    as ((Hs1 & Hs2 & Hs3 & Hs4 & Hs5) & Hss & _).
  simpl in *. fold a in Ha1, Ha2, Ha3, Ha4, Ha5. fold b in Hb1, Hb2, Hb3, Hb4.
  fold p in Hp1, Hp2, Hp3, Hp4.
  repeat split.
  - rewrite Hs1, Hp1, Hb1. reflexivity.
  - rewrite Hs2, Hp2. apply Hbd. exact Ha1.
  - rewrite Hs3, Hp3. apply Hbr. exact Ha2.
  - rewrite Hs4. apply Hps. rewrite Hb2. exact Ha3.
  - rewrite Hs5. apply Hpa. rewrite Hb3. exact Ha4.
  - apply Hss. rewrite Hp4, Hb4. exact Ha5.
Qed.

(** X3: loading the same file again, in the same environment, changes
    nothing: [load_from_file] is idempotent. *)
Theorem load_from_file_idempotent (env : gmap string string) (config_file : string)
    (c : Config) :
  let load := fun c => snd (load_from_file parse_int parse_bool read_ini env config_file c) in
  load (load c) = load c.
Proof.
  intros load. unfold load, load_from_file.
  destruct (read_ini config_file) as [pt | [w | ]]; simpl snd; try reflexivity.
  set (all := fun c => load_security_config parse_int pt
               (load_protocol_config parse_int parse_bool pt
                  (load_db_config parse_int parse_bool env pt
                     (load_app_config parse_int parse_bool pt c)))).
  change (all (all c) = all c).
  destruct (load_all_members env pt c) as (H1 & H2 & H3 & H4 & H5 & H6).
  destruct (load_all_members env pt (all c)) as (G1 & G2 & G3 & G4 & G5 & G6).
  fold (all c) in H1, H2, H3, H4, H5, H6.
  fold (all (all c)) in G1, G2, G3, G4, G5, G6.
  destruct (load_app_config_members pt (all c) (load_app_config parse_int parse_bool pt c))
    as (_ & La & _).
  destruct (load_app_config_members pt c c) as (_ & _ & Ia).
  destruct (load_db_config_members env pt (all c)
              (load_db_config parse_int parse_bool env pt c)) as (_ & Ld & Lr & _).
  destruct (load_db_config_members env pt c c) as (_ & _ & _ & Id & Ir).
  destruct (load_protocol_config_members pt (all c)
              (load_protocol_config parse_int parse_bool pt c)) as (_ & Ls & Lp & _).
  destruct (load_protocol_config_members pt c c) as (_ & _ & _ & Is & Ip).
  destruct (load_security_config_members pt (all c) (load_security_config parse_int pt c))
    as (_ & Lsec & _).
  destruct (load_security_config_members pt c c) as (_ & _ & Isec).
  simpl in *.
  apply config_ext.
  - rewrite G1, H1, (La H1). exact Ia.
  - rewrite G2, H2, (Ld H2). exact Id.
  - rewrite G3, H3, (Lr H3). exact Ir.
  - rewrite G4, H4, (Ls H4). exact Is.
  - rewrite G5, H5, (Lp H5). exact Ip.
  - rewrite G6, H6, (Lsec H6). exact Isec.
Qed.

End ConfigIdempotence.

Section ConfigFilePrecedence.
Import Config.
Open Scope string_scope.
Variable parse_int : string -> option Z.
Variable parse_bool : string -> option bool.
Variable read_ini : string -> outcome exception (gmap string (gmap string string)).

(** X4: a file that cannot be read, and a file that holds none of the nine
    sections the loaders look for, [known_sections] (a misspelt section name,
    an empty file), leave every member as it was.  In the first case the call
    throws: the handler rethrows the [std::exception] of [read_ini] as a
    [runtime_error] whose message is its text after
    [Failed to load config file: ]; in the second it returns normally. *)
Theorem load_from_file_without_sections (env : gmap string string) (config_file : string)
    (c : Config) :
  (is_thrown (read_ini config_file) = true \/
   exists pt, read_ini config_file = Returned pt /\
              Forall (fun section => get_child_optional pt section = None) known_sections) ->
  snd (load_from_file parse_int parse_bool read_ini env config_file c) = c /\
  (forall text, read_ini config_file = Thrown (std_exception text) ->
     fst (load_from_file parse_int parse_bool read_ini env config_file c) =
       Thrown (std_exception ("Failed to load config file: " +:+ text))) /\
  (forall pt, read_ini config_file = Returned pt ->
     fst (load_from_file parse_int parse_bool read_ini env config_file c) = Returned tt).
Proof.
  intros H. split; [| split].
  - unfold load_from_file. destruct H as [Hthrown | [pt [Hpt Hnone]]].
    + destruct (read_ini config_file) as [pt | [w | ]]; [discriminate Hthrown | | ];
        reflexivity.
    + rewrite Hpt. unfold known_sections in Hnone.
      repeat match goal with
             | H : Forall _ (_ :: _) |- _ => apply Forall_cons_1 in H; destruct H as [? H]
             end.
      unfold load_security_config, load_protocol_config, load_db_config, load_app_config.
      repeat match goal with
             | E : get_child_optional pt ?n = None |- _ => rewrite E; clear E
             end.
      reflexivity.
  - intros text Htext. unfold load_from_file. rewrite Htext. reflexivity.
  - intros pt Hpt. unfold load_from_file. rewrite Hpt. reflexivity.
Qed.

(** X5: the precedence of the environment hangs on the host variable alone.
    Without [DB_HOST] the PostgreSQL section assigns host, port, database name,
    username and password, whatever [DB_PORT], [DB_NAME], [DB_USER] and
    [DB_PASSWORD] had set; without [REDIS_HOST] the Redis section assigns host,
    port, password and database. *)
Theorem file_overrides_without_host_variable (env : gmap string string)
    (config_file : string) (c : Config) pt :
  read_ini config_file = Returned pt ->
  let c' := snd (load_from_file parse_int parse_bool read_ini env config_file c) in
  (getenv env "DB_HOST" = None ->
   forall db, get_child_optional pt "PostgreSQL" = Some db ->
     db_host (db_config_ c') = get_string db "host" (db_host (db_config_ c)) /\
     db_port (db_config_ c') = get_int parse_int db "port" (db_port (db_config_ c)) /\
     db_database (db_config_ c') =
       get_string db "database" (db_database (db_config_ c)) /\
     db_username (db_config_ c') =
       get_string db "username" (db_username (db_config_ c)) /\
     db_password (db_config_ c') =
       get_string db "password" (db_password (db_config_ c))) /\
  (getenv env "REDIS_HOST" = None ->
   forall redis, get_child_optional pt "Redis" = Some redis ->
     redis_host (redis_config_ c') = get_string redis "host" (redis_host (redis_config_ c)) /\
     redis_port (redis_config_ c') =
       get_int parse_int redis "port" (redis_port (redis_config_ c)) /\
     redis_password (redis_config_ c') =
       get_string redis "password" (redis_password (redis_config_ c)) /\
     redis_database (redis_config_ c') =
       get_int parse_int redis "database" (redis_database (redis_config_ c))).
Proof.
  intros Hpt c'. unfold c', load_from_file. rewrite Hpt. simpl snd.
  destruct (load_all_members parse_int parse_bool env pt c) as (_ & Hd & Hr & _).
  rewrite Hd, Hr. clear Hd Hr.
  split; intros Henv section Hsection; unfold load_db_config; rewrite Henv, Hsection.
  - destruct (get_child_optional pt "Redis"); simpl; repeat split; reflexivity.
  - destruct (get_child_optional pt "PostgreSQL"); simpl; repeat split; reflexivity.
Qed.

End ConfigFilePrecedence.

Section ConfigFileExamples.
Import Config Examples.
Open Scope string_scope.

Lemma load_from_file_without_sections_witness :
  let c := construct (fun _ => 0) example_env (fun _ => 0) in
  snd (load_from_file example_parse_int example_parse_bool
         (fun _ => Returned {[ "Postgres" := example_postgres ]}) example_env
         "config/app.conf" c) = c /\
  load_from_file example_parse_int example_parse_bool
    (fun _ => Thrown (std_exception "cannot open file")) example_env
    "config/missing.conf" c =
    (Thrown (std_exception "Failed to load config file: cannot open file"), c).
Proof.
  intros c. split.
  - apply (load_from_file_without_sections example_parse_int example_parse_bool
             (fun _ => Returned {[ "Postgres" := example_postgres ]}) example_env
             "config/app.conf" c).
    right. exists {[ "Postgres" := example_postgres ]}. split; [reflexivity |].
    unfold known_sections. repeat constructor.
  - destruct (load_from_file_without_sections example_parse_int example_parse_bool
                (fun _ => Thrown (std_exception "cannot open file")) example_env
                "config/missing.conf" c (or_introl eq_refl)) as (Hc & Hthrow & _).
    rewrite (surjective_pairing (load_from_file _ _ _ _ _ _)), Hc, (Hthrow _ eq_refl).
    reflexivity.
Defined.

(** [DB_PASSWORD] and [DB_PORT] are set, [DB_HOST] is not: the file wins. *)
Lemma file_overrides_without_host_variable_witness :
  let env : gmap string string := {[ "DB_PASSWORD" := "from-env"; "DB_PORT" := "7777" ]} in
  let section : gmap string string := {[ "password" := "from-file"; "port" := "6000" ]} in
  let c := construct (fun _ => 7777) env (fun _ => 0) in
  let c' := snd (load_from_file example_parse_int example_parse_bool
                   (fun _ => Returned {[ "PostgreSQL" := section ]}) env
                   "config/app.conf" c) in
  db_password (db_config_ c) = "from-env" /\ db_port (db_config_ c) = 7777 /\
  db_password (db_config_ c') = "from-file" /\ db_port (db_config_ c') = 6000.
Proof.
  intros env section c c'.
  destruct (file_overrides_without_host_variable example_parse_int example_parse_bool
              (fun _ => Returned {[ "PostgreSQL" := section ]}) env "config/app.conf" c
              {[ "PostgreSQL" := section ]} eq_refl) as [Hdb _].
  fold c' in Hdb.
  destruct (Hdb eq_refl section eq_refl) as (_ & Hport & _ & _ & Hpw).
  split; [vm_compute; reflexivity |]. split; [vm_compute; reflexivity |].
  rewrite Hpw, Hport. split; vm_compute; reflexivity.
Defined.

End ConfigFileExamples.

(** ** The connection pool: life cycle *)

Section PoolLifeCycle.
Import Database.
Open Scope list_scope.
Variable can_connect : string -> bool.
Variable connect_error : string -> option exception.
Variable wait_for : World -> World.

Lemma make_connection_accepts (w : World) :
  can_connect (connection_string_ (db w)) = true ->
  make_connection can_connect connect_error w =
    (Returned (next_connection w),
     {| db := db w; open_connections := {[ next_connection w ]} ∪ open_connections w;
        next_connection := S (next_connection w); returned := returned w |}).
Proof. intros H. unfold make_connection. rewrite H. reflexivity. Qed.

(** The loop of [create_pool] on a server that accepts connections: [n] new
    connection objects, numbered from [next_connection], are opened and
    appended to both containers. *)
Lemma create_connections_accepts (n : nat) :
  forall w : World,
    can_connect (connection_string_ (db w)) = true ->
    let w' := snd (create_connections can_connect connect_error n w) in
    fst (create_connections can_connect connect_error n w) = Returned tt /\
    available_ (db w') = available_ (db w) ++ seq (next_connection w) n /\
    all_connections_ (db w') = all_connections_ (db w) ++ seq (next_connection w) n /\
    open_connections w' = list_to_set (seq (next_connection w) n) ∪ open_connections w /\
    next_connection w' = (next_connection w + n)%nat /\
    connection_string_ (db w') = connection_string_ (db w) /\
    pool_size_ (db w') = pool_size_ (db w) /\
    initialized_ (db w') = initialized_ (db w) /\
    returned w' = returned w.
Proof.
  induction n as [| n IH]; intros w Hc; simpl.
  - rewrite !app_nil_r, Nat.add_0_r. repeat split; try reflexivity.
    symmetry. apply (left_id_L ∅ (∪)).
  - rewrite (make_connection_accepts w Hc).
    match goal with
    | |- context [create_connections can_connect connect_error n ?w1] =>
        specialize (IH w1 Hc); simpl in IH;
        destruct IH as (H1 & H2 & H3 & H4 & H5 & H6 & H7 & H8 & H9)
    end.
    rewrite H1, H2, H3, H4, H5, H6, H7, H8, H9.
    rewrite <- !app_assoc. simpl.
    repeat split; try reflexivity; try lia.
    rewrite (comm_L (∪) {[ next_connection w ]} (list_to_set _)).
    rewrite <- (assoc_L (∪)). reflexivity.
Qed.

(** X6: [initialize] on a pool that is not initialized, for a pool size that
    is not negative and a server that accepts connections, returns normally
    with [pool_size] distinct open connections in the queue, the same ones in
    [all_connections_], and the flag set; a second [initialize], with whatever
    configuration, then changes nothing. *)
Theorem initialize_builds_pool (config config' : Config.DatabaseConfig) (w : World) :
  initialized_ (db w) = false ->
  0 <= Config.db_pool_size config < 2 ^ 31 ->
  can_connect (Config.get_connection_string config) = true ->
  let w' := snd (initialize can_connect connect_error config w) in
  fst (initialize can_connect connect_error config w) = Returned tt /\
  initialized_ (db w') = true /\
  pool_size w' = Config.db_pool_size config /\
  available_connections w' = pool_size w' /\
  available_ (db w') = all_connections_ (db w') /\
  NoDup (available_ (db w')) /\
  (forall conn, In conn (available_ (db w')) -> is_open w' conn = true) /\
  initialize can_connect connect_error config' w' = (Returned tt, w').
Proof.
  intros Hinit Hsize Hc w'. unfold w', initialize. rewrite Hinit.
  unfold create_pool.
  match goal with
  | |- context [create_connections can_connect connect_error ?n ?w1] =>
      destruct (create_connections_accepts n w1 Hc)
        as (H1 & H2 & H3 & H4 & H5 & H6 & H7 & H8 & H9);
      destruct (create_connections can_connect connect_error n w1) as [r w2] eqn:Hloop
  end.
  simpl in *. subst r. simpl.
  unfold pool_size, available_connections. simpl.
  rewrite H2, H3, H7.
  assert (Hmod : size_t_of_int (Config.db_pool_size config) = Config.db_pool_size config).
  { unfold size_t_of_int. apply Z.mod_small. lia. }
  rewrite Hmod in *. repeat split.
  - rewrite length_seq. lia.
  - apply NoDup_ListNoDup, seq_NoDup.
  - intros conn Hin. unfold is_open. simpl. apply bool_decide_eq_true_2.
    rewrite H4. apply elem_of_union_l, elem_of_list_to_set, list_elem_of_In. exact Hin.
Qed.

End PoolLifeCycle.
Section PoolFailures.
Import Database.
Open Scope list_scope.
Variable can_connect : string -> bool.
Variable connect_error : string -> option exception.
Variable wait_for : World -> World.

(** X7: [initialize] against a server that refuses the connection string.
    With a pool size of 0 the call returns normally and sets the flag, on an
    empty pool; with any other pool size, negative ones included, the first
    connection fails and the flag stays unset: the call throws what the
    handler of [create_pool] makes of the failure of the connection, for a
    [std::exception] a [runtime_error] whose message is the text of that
    exception after [Failed to create connection pool: ].  In both cases the
    containers, emptied at the start of [create_pool], are empty, and no
    connection object was created. *)
Theorem initialize_refused (config : Config.DatabaseConfig) (w : World) :
  initialized_ (db w) = false ->
  - 2 ^ 31 <= Config.db_pool_size config < 2 ^ 31 ->
  can_connect (Config.get_connection_string config) = false ->
  let w' := snd (initialize can_connect connect_error config w) in
  fst (initialize can_connect connect_error config w) =
    (if (Config.db_pool_size config =? 0)%Z then Returned tt
     else Thrown (create_pool_rethrow
            (connection_failure connect_error (Config.get_connection_string config)))) /\
  (forall text,
     connection_failure connect_error (Config.get_connection_string config) =
       std_exception text ->
     create_pool_rethrow
       (connection_failure connect_error (Config.get_connection_string config)) =
       std_exception ("Failed to create connection pool: " +:+ text)) /\
  initialized_ (db w') = (Config.db_pool_size config =? 0)%Z /\
  available_ (db w') = [] /\ all_connections_ (db w') = [] /\
  connection_string_ (db w') = Config.get_connection_string config /\
  open_connections w' = open_connections w /\
  next_connection w' = next_connection w.
Proof.
  intros Hinit Hsize Hc w'. unfold w', initialize. rewrite Hinit.
  unfold create_pool. cbn [clear_pool set_database db pool_size_].
  destruct (Z.eqb_spec (Config.db_pool_size config) 0) as [H0 | H0].
  - rewrite H0. simpl. repeat split; try reflexivity.
    intros text Htext. rewrite Htext. reflexivity.
  - assert (Hpos : 0 < size_t_of_int (Config.db_pool_size config)).
    { unfold size_t_of_int.
      destruct (Z_lt_le_dec (Config.db_pool_size config) 0) as [Hneg | Hnn].
      - replace (Config.db_pool_size config)
          with ((Config.db_pool_size config + 2 ^ 64) + (-1) * 2 ^ 64) by lia.
        rewrite Z.mod_add by lia. rewrite Z.mod_small by lia. lia.
      - rewrite Z.mod_small by lia. lia. }
    destruct (Z.to_nat (size_t_of_int (Config.db_pool_size config))) as [| n] eqn:Hn;
      [lia |].
    cbn [create_connections]. unfold make_connection.
    cbn [db connection_string_ clear_pool set_database]. rewrite Hc.
    cbn [fst snd db initialized_ available_ all_connections_ connection_string_
         open_connections next_connection].
    repeat split; try reflexivity.
    intros text Htext. rewrite Htext. reflexivity.
Qed.

(** What [get_connection] does with a front connection that is closed when
    the server refuses a new one. *)
Lemma execute_front_closed {R : Type} (func : ConnectionPtr -> M R) (w : World) conn rest :
  available_ (db w) = conn :: rest ->
  is_open w conn = false ->
  can_connect (connection_string_ (db w)) = false ->
  execute can_connect connect_error wait_for func w =
    (Thrown (connection_failure connect_error (connection_string_ (db w))),
     set_available rest w).
Proof.
  intros Hq Hclosed Hc.
  apply execute_no_connection.
  unfold get_connection, take_front. rewrite Hq.
  replace (is_open (set_available rest w) conn) with (is_open w conn) by reflexivity.
  rewrite Hclosed. unfold make_connection. cbn [negb set_available db connection_string_].
  rewrite Hc. reflexivity.
Qed.

(** X8: closed connections drain the pool while the server refuses new ones.
    Each call of [execute] that finds a closed connection at the front of the
    queue throws what the failed connection attempt threw, whatever its
    callback is, and the queue is one shorter for good: [return_connection] is
    not called and nothing else in the world changes. *)
Theorem closed_connections_drain_pool {R : Type}
    (funcs : list (ConnectionPtr -> M R)) (w : World) :
  can_connect (connection_string_ (db w)) = false ->
  Forall (fun conn => is_open w conn = false) (available_ (db w)) ->
  (length funcs <= length (available_ (db w)))%nat ->
  execute_each can_connect connect_error wait_for funcs w =
    (map (fun _ => Thrown (connection_failure connect_error (connection_string_ (db w))))
       funcs,
     set_available (drop (length funcs) (available_ (db w))) w).
Proof.
  revert w. induction funcs as [| func funcs IH]; intros w Hc Hclosed Hlen.
  - cbn [execute_each map length]. rewrite drop_0.
    destruct w as [[cs ps ini av al] o n r]. reflexivity.
  - destruct (available_ (db w)) as [| conn rest] eqn:Hq; [simpl in Hlen; lia |].
    apply Forall_cons in Hclosed. destruct Hclosed as [Hconn Hrest].
    cbn [execute_each].
    rewrite (execute_front_closed func w conn rest Hq Hconn Hc).
    rewrite (IH (set_available rest w)).
    + reflexivity.
    + exact Hc.
    + exact Hrest.
    + simpl in Hlen. simpl. lia.
Qed.

(** X9: [shutdown] of an initialized pool empties the queue and leaves the
    configured size in place, and a second [shutdown] does nothing.  A call of
    [execute] made afterwards is not refused at once: it waits, and when the
    wait brings no connection it throws the timeout, without its callback.
    [return_connection] does not look at the flag either: an open connection
    that was in use during the shutdown goes back into the queue of the pool
    that was shut down, and the next [execute] runs its callback on it. *)
Theorem shutdown_then_execute {R : Type} (func : ConnectionPtr -> M R)
    (w : World) (conn : ConnectionPtr) :
  initialized_ (db w) = true ->
  available_ (db (wait_for (snd (shutdown w)))) = [] ->
  is_open w conn = true ->
  let w1 := snd (shutdown w) in
  let w2 := snd (return_connection conn w1) in
  initialized_ (db w1) = false /\
  available_connections w1 = 0 /\ pool_size w1 = pool_size w /\
  shutdown w1 = (Returned tt, w1) /\
  execute can_connect connect_error wait_for func w1 =
    (Thrown (std_exception "Connection pool timeout - no connections available"),
     wait_for w1) /\
  initialized_ (db w2) = false /\ available_ (db w2) = [conn] /\
  fst (execute can_connect connect_error wait_for func w2) = fst (func conn (set_available [] w2)).
Proof.
  intros Hinit Hwait Hopen w1 w2.
  assert (Hw1 : w1 = set_initialized false (clear_pool w)).
  { unfold w1, shutdown. rewrite Hinit. reflexivity. }
  assert (Hw2 : available_ (db w2) = [conn] /\ initialized_ (db w2) = false /\
                is_open w2 conn = true).
  { unfold w2, return_connection.
    match goal with |- context [if is_open ?w0 conn then _ else _] =>
      replace (is_open w0 conn) with (is_open w conn) by (rewrite Hw1; reflexivity) end.
    rewrite Hopen, Hw1. repeat split; try reflexivity. exact Hopen. }
  destruct Hw2 as (Hq2 & Hi2 & Ho2).
  split; [rewrite Hw1; reflexivity |].
  split; [rewrite Hw1; reflexivity |].
  split; [rewrite Hw1; reflexivity |].
  split; [rewrite Hw1; reflexivity |].
  split.
  { apply execute_no_connection. unfold get_connection.
    replace (available_ (db w1)) with (@nil ConnectionPtr) by (rewrite Hw1; reflexivity).
    fold w1 in Hwait. rewrite Hwait. reflexivity. }
  split; [exact Hi2 |]. split; [exact Hq2 |].
  assert (Hget : get_connection can_connect connect_error wait_for w2 =
                 (Returned conn, set_available [] w2)).
  { unfold get_connection, take_front. rewrite Hq2.
    replace (is_open (set_available [] w2) conn) with (is_open w2 conn) by reflexivity.
    rewrite Ho2. reflexivity. }
  destruct (func conn (set_available [] w2)) as [r w3] eqn:Hf.
  rewrite (execute_unfold can_connect connect_error wait_for func w2 _ w3 conn r Hget Hf).
  reflexivity.
Qed.

End PoolFailures.
Section PoolUse.
Import Database.
Open Scope list_scope.
Variable can_connect : string -> bool.
Variable connect_error : string -> option exception.
Variable wait_for : World -> World.

Lemma rotate_cons_S {A : Type} (k : nat) (c : A) (rest : list A) :
  rotate (S k) (c :: rest) = rotate k (rest ++ [c]).
Proof.
  unfold rotate. rewrite length_app. simpl length.
  replace (length rest + 1)%nat with (S (length rest)) by lia.
  remember (S (length rest)) as n eqn:Hn.
  assert (Hm : (k mod n < n)%nat) by (apply Nat.mod_upper_bound; lia).
  assert (HS : (S k mod n = S (k mod n) mod n)%nat).
  { replace (S k) with (1 + k)%nat by lia. replace (S (k mod n)) with (1 + k mod n)%nat by lia.
    rewrite Nat.Div0.add_mod_idemp_r. reflexivity. }
  rewrite HS.
  destruct (decide (k mod n < length rest)%nat) as [Hlt | Hge].
  - rewrite (Nat.mod_small (S (k mod n)) n) by lia.
    simpl. rewrite drop_app_le, take_app_le by lia.
    rewrite <- app_assoc. reflexivity.
  - assert (Heq : (k mod n)%nat = length rest) by lia.
    rewrite Heq, <- Hn, Nat.Div0.mod_same. simpl.
    rewrite drop_app_length, take_app_length, app_nil_r. reflexivity.
Qed.

Lemma lookup_cons_S_mod {A : Type} (j : nat) (c : A) (rest : list A) :
  (rest ++ [c]) !! (j mod length (rest ++ [c]))%nat =
  (c :: rest) !! (S j mod length (c :: rest))%nat.
Proof.
  rewrite length_app. simpl length.
  replace (length rest + 1)%nat with (S (length rest)) by lia.
  remember (S (length rest)) as n eqn:Hn.
  assert (Hm : (j mod n < n)%nat) by (apply Nat.mod_upper_bound; lia).
  assert (HS : (S j mod n = S (j mod n) mod n)%nat).
  { replace (S j) with (1 + j)%nat by lia. replace (S (j mod n)) with (1 + j mod n)%nat by lia.
    rewrite Nat.Div0.add_mod_idemp_r. reflexivity. }
  rewrite HS.
  destruct (decide (j mod n < length rest)%nat) as [Hlt | Hge].
  - rewrite (Nat.mod_small (S (j mod n)) n) by lia.
    simpl. apply lookup_app_l. exact Hlt.
  - assert (Heq : (j mod n)%nat = length rest) by lia.
    rewrite Heq, <- Hn, Nat.Div0.mod_same. simpl.
    apply list_lookup_middle. reflexivity.
Qed.

(** One call of [execute] on a queue whose front is open, for a callback that
    leaves the world as it is. *)
Lemma execute_front_open {R : Type} (func : ConnectionPtr -> M R) (w : World) conn rest :
  available_ (db w) = conn :: rest ->
  is_open w conn = true ->
  (forall c w1, snd (func c w1) = w1) ->
  snd (execute can_connect connect_error wait_for func w) =
    {| db := {| connection_string_ := connection_string_ (db w);
                pool_size_ := pool_size_ (db w);
                initialized_ := initialized_ (db w);
                available_ := rest ++ [conn];
                all_connections_ := all_connections_ (db w) |};
       open_connections := open_connections w;
       next_connection := next_connection w;
       returned := returned w ++ [conn] |}.
Proof.
  intros Hq Hopen Hpure.
  assert (Hget : get_connection can_connect connect_error wait_for w =
                 (Returned conn, set_available rest w)).
  { unfold get_connection, take_front. rewrite Hq.
    replace (is_open (set_available rest w) conn) with (is_open w conn) by reflexivity.
    rewrite Hopen. reflexivity. }
  destruct (func conn (set_available rest w)) as [r w2] eqn:Hf.
  rewrite (execute_unfold can_connect connect_error wait_for func w _ w2 conn r Hget Hf).
  pose proof (Hpure conn (set_available rest w)) as Hw2. rewrite Hf in Hw2. simpl in Hw2.
  subst w2. simpl. unfold return_connection.
  match goal with |- context [is_open ?w0 conn] =>
    replace (is_open w0 conn) with (is_open w conn) by reflexivity end.
  rewrite Hopen. reflexivity.
Qed.

(** X10: calls of [execute] made one after the other, with callbacks that
    leave the world as it is, on a queue of open connections that is not
    empty, go round the queue: call number [i] is served with the connection
    at position [i mod n] of the queue of [n] connections and gives it back,
    no connection is created, and after [k] calls the queue is the one before
    rotated by [k] places. *)
Theorem execute_round_robin {R : Type} (funcs : list (ConnectionPtr -> M R)) (w : World) :
  available_ (db w) <> [] ->
  Forall (fun conn => is_open w conn = true) (available_ (db w)) ->
  Forall (fun func => forall conn w1, snd (func conn w1) = w1) funcs ->
  let q := available_ (db w) in
  let w' := snd (execute_each can_connect connect_error wait_for funcs w) in
  available_ (db w') = rotate (length funcs) q /\
  (exists served,
     returned w' = returned w ++ served /\ length served = length funcs /\
     forall i, (i < length funcs)%nat -> served !! i = q !! (i mod length q)%nat) /\
  open_connections w' = open_connections w /\
  next_connection w' = next_connection w /\
  all_connections_ (db w') = all_connections_ (db w).
Proof.
  revert w. induction funcs as [| func funcs IH]; intros w Hne Hopen Hpure q w'.
  - subst w' q. simpl. split; [| split; [| auto]].
    + unfold rotate. simpl. rewrite Nat.Div0.mod_0_l. simpl. rewrite app_nil_r. reflexivity.
    + exists []. rewrite app_nil_r. split; [reflexivity |]. split; [reflexivity |].
      intros i Hi. simpl in Hi. lia.
  - destruct (available_ (db w)) as [| conn rest] eqn:Hq; [congruence |].
    apply Forall_cons in Hopen. destruct Hopen as [Hc Hrest].
    apply Forall_cons in Hpure. destruct Hpure as [Hf Hfs].
    pose proof (execute_front_open func w conn rest Hq Hc Hf) as Hstep.
    subst w' q. cbn [execute_each].
    destruct (execute can_connect connect_error wait_for func w) as [r w1] eqn:He.
    cbn [snd] in Hstep.
    destruct (execute_each can_connect connect_error wait_for funcs w1) as [rs w2] eqn:Hrest2.
    cbn [snd].
    assert (Hq1 : available_ (db w1) = rest ++ [conn]) by (rewrite Hstep; reflexivity).
    assert (Hne1 : available_ (db w1) <> []).
    { rewrite Hq1. destruct rest; discriminate. }
    assert (Hopen1 : Forall (fun c => is_open w1 c = true) (available_ (db w1))).
    { rewrite Hq1. apply Forall_app. split.
      - eapply Forall_impl; [exact Hrest |]. intros c Hco.
        rewrite Hstep. exact Hco.
      - apply Forall_singleton. rewrite Hstep. exact Hc. }
    specialize (IH w1 Hne1 Hopen1 Hfs). rewrite Hrest2 in IH. cbn [snd] in IH.
    destruct IH as (Hav & (served & Hlog & Hlen & Hserved) & Ho & Hn & Hall).
    split; [| split; [| split; [| split]]].
    + rewrite Hav, Hq1. symmetry. apply rotate_cons_S.
    + exists (conn :: served). split; [| split].
      * rewrite Hlog, Hstep. simpl. rewrite <- app_assoc. reflexivity.
      * simpl. rewrite Hlen. reflexivity.
      * intros [| j] Hi.
        -- rewrite Nat.Div0.mod_0_l. reflexivity.
        -- rewrite <- lookup_cons_S_mod. simpl. rewrite <- Hq1. apply Hserved.
           simpl in Hi. lia.
    + rewrite Ho, Hstep. reflexivity.
    + rewrite Hn, Hstep. reflexivity.
    + rewrite Hall, Hstep. reflexivity.
Qed.

End PoolUse.
Section PoolExamples.
Import Database Examples.
Open Scope list_scope.

Lemma initialize_builds_pool_witness :
  let can_connect := fun _ : string => true in
  let connect_error := fun _ : string => @None exception in
  let w' := snd (initialize can_connect connect_error Config.default_DatabaseConfig fresh) in
  fst (initialize can_connect connect_error Config.default_DatabaseConfig fresh) =
    Returned tt /\
  initialized_ (db w') = true /\
  available_connections w' = 20.
Proof.
  intros can_connect connect_error w'.
  assert (Hsize : 0 <= Config.db_pool_size Config.default_DatabaseConfig < 2 ^ 31).
  { simpl. lia. }
  destruct (initialize_builds_pool can_connect connect_error Config.default_DatabaseConfig
              Config.default_DatabaseConfig fresh eq_refl Hsize eq_refl)
    as (H1 & H2 & H3 & H4 & _).
  fold w' in H2, H3, H4.
  split; [exact H1 |]. split; [exact H2 |].
  rewrite H4, H3. reflexivity.
Defined.

Lemma initialize_refused_witness :
  let can_connect := fun _ : string => false in
  let connect_error := fun _ : string =>
    Some (std_exception "could not connect to server: Connection refused") in
  fst (initialize can_connect connect_error Config.default_DatabaseConfig fresh) =
    Thrown (std_exception
      "Failed to create connection pool: could not connect to server: Connection refused") /\
  initialized_ (db (snd (initialize can_connect connect_error Config.default_DatabaseConfig
                           fresh))) = false.
Proof.
  intros can_connect connect_error.
  assert (Hsize : - 2 ^ 31 <= Config.db_pool_size Config.default_DatabaseConfig < 2 ^ 31).
  { simpl. lia. }
  destruct (initialize_refused can_connect connect_error Config.default_DatabaseConfig fresh
              eq_refl Hsize eq_refl) as (H1 & _ & H2 & _).
  split; [exact H1 | exact H2].
Defined.

(** The example pool after the server has closed both connections. *)
Lemma closed_connections_drain_pool_witness :
  let can_connect := fun _ : string => false in
  let connect_error := fun _ : string =>
    Some (std_exception "could not connect to server: Connection refused") in
  let wait_for := fun w : World => w in
  let w := {| db := db example_pool; open_connections := ∅;
              next_connection := next_connection example_pool;
              returned := returned example_pool |} in
  execute_each can_connect connect_error wait_for [failing_query; failing_query] w =
    ([Thrown (std_exception "could not connect to server: Connection refused");
      Thrown (std_exception "could not connect to server: Connection refused")],
     set_available [] w).
Proof.
  intros can_connect connect_error wait_for w.
  apply (closed_connections_drain_pool can_connect connect_error wait_for
           [failing_query; failing_query] w).
  - reflexivity.
  - repeat constructor.
  - simpl. lia.
Defined.

Lemma execute_round_robin_witness :
  let can_connect := fun _ : string => true in
  let connect_error := fun _ : string => @None exception in
  let wait_for := fun w : World => w in
  let w' := snd (execute_each can_connect connect_error wait_for
                   [counting_query; counting_query; counting_query] example_pool) in
  available_ (db w') = [1%nat; 0%nat] /\
  open_connections w' = open_connections example_pool.
Proof.
  intros can_connect connect_error wait_for w'.
  assert (Hne : available_ (db example_pool) <> []) by discriminate.
  assert (Hopen : Forall (fun conn => is_open example_pool conn = true)
                    (available_ (db example_pool))).
  { repeat constructor. }
  assert (Hpure : Forall (fun func : ConnectionPtr -> M Z =>
                            forall conn w1, snd (func conn w1) = w1)
                    [counting_query; counting_query; counting_query]).
  { repeat constructor. }
  destruct (execute_round_robin can_connect connect_error wait_for
              [counting_query; counting_query; counting_query] example_pool
              Hne Hopen Hpure) as (H1 & _ & H3 & _).
  fold w' in H1, H3. split; [exact H1 | exact H3].
Defined.

Lemma shutdown_then_execute_witness :
  let can_connect := fun _ : string => true in
  let connect_error := fun _ : string => @None exception in
  let wait_for := fun w : World => w in
  let w1 := snd (shutdown example_pool) in
  execute can_connect connect_error wait_for failing_query w1 =
    (Thrown (std_exception "Connection pool timeout - no connections available"), w1) /\
  fst (execute can_connect connect_error wait_for failing_query
         (snd (return_connection 0%nat w1))) =
    Thrown (std_exception "relation does not exist").
Proof.
  intros can_connect connect_error wait_for w1.
  destruct (shutdown_then_execute can_connect connect_error wait_for failing_query
              example_pool 0%nat eq_refl eq_refl eq_refl)
    as (_ & _ & _ & _ & H5 & _ & _ & H8).
  split; [exact H5 | exact H8].
Defined.

End PoolExamples.

(** ** The Redis client: life cycle *)

Section RedisLifeCycle.
Import Redis.

Lemma after_calls_connected (calls : list LifeCycleCall) :
  forall c, connected_if_initialized c -> connected_if_initialized (after_calls calls c).
Proof.
  induction calls as [| member calls IH]; intros c Hc; [exact Hc |].
  apply IH. destruct member as [make_redis config |].
  - apply initialize_connected. exact Hc.
  - apply shutdown_connected.
Qed.

(** An operation on a client that owns a connection object returns. *)
Lemma perform_connected_returns (c : RedisClient) (r : Redis) (req : Request) :
  redis_ c = Some r -> exists v, perform c req = Returns v.
Proof.
  intros Hr.
  destruct req;
    unfold perform, Redis.set, set_ttl, get, del, exists_, hset, hget, hgetall, hdel,
      lpush, rpush, lpop, rpop, llen, sadd, sismember, smembers, zadd, zrange, ping,
      incr, decr, expire, publish;
    rewrite Hr; destruct (initialized_ c); simpl; try (eexists; reflexivity);
    match goal with
    | |- context [call ?o] => destruct o as [[] | ]; simpl; eexists; reflexivity
    | |- context [call ?o] => destruct o; simpl; eexists; reflexivity
    end.
Qed.

(** X11: whatever sequence of [initialize] and [shutdown] calls is made on
    a client, with whatever configurations and whether or not the server
    answers, every operation called afterwards returns a value: none
    dereferences a null [redis_], and none lets an exception out. *)
Theorem operations_always_return (calls : list LifeCycleCall) (req : Request) :
  exists v, perform (after_calls calls fresh) req = Returns v.
Proof.
  pose proof (after_calls_connected calls fresh fresh_connected) as Hinv.
  destruct (initialized_ (after_calls calls fresh)) eqn:Hi.
  - destruct (Hinv Hi) as [r Hr]. apply (perform_connected_returns _ r). exact Hr.
  - exists (failure_default req). apply perform_uninitialized. exact Hi.
Qed.



End RedisLifeCycle.

(** ** The HTTP API server *)

Section HttpServerProperties.
Import HttpServer.
Open Scope list_scope.

Lemma rounds_snoc (k : nat) host port :
  rounds k host port ++ [Listen host port; ServerStop] = rounds (S k) host port.
Proof.
  unfold rounds. induction k as [| k IH]; [reflexivity |].
  change (mjoin (replicate (S k) [Listen host port; ServerStop]))
    with ([Listen host port; ServerStop] ++ mjoin (replicate k [Listen host port; ServerStop])).
  rewrite <- app_assoc, IH. reflexivity.
Qed.

Lemma step_paired host port (w : World) (c : Call) :
  paired host port w -> paired host port (step w c).
Proof.
  intros (Hh & Hp & k & Ht).
  destruct c as [| | s | s]; simpl.
  - unfold start. destruct (running_ (server w)) eqn:Hr.
    + split; [exact Hh |]. split; [exact Hp |]. exists k. rewrite Hr. exact Ht.
    + split; [exact Hh |]. split; [exact Hp |]. exists k.
      unfold listen, set_running. cbn [trace server running_ host_ port_].
      rewrite Ht, Hh, Hp, app_nil_r. reflexivity.
  - unfold stop. destruct (running_ (server w)) eqn:Hr; cbn [negb].
    + split; [exact Hh |]. split; [exact Hp |]. exists (S k).
      unfold set_running, server_stop. cbn [trace server running_ host_ port_].
      rewrite Ht, <- app_assoc, app_nil_r. simpl. apply rounds_snoc.
    + split; [exact Hh |]. split; [exact Hp |]. exists k. rewrite Hr. exact Ht.
  - split; [exact Hh |]. split; [exact Hp |]. exists k. exact Ht.
  - split; [exact Hh |]. split; [exact Hp |]. exists k. exact Ht.
Qed.

Lemma run_paired host port (cs : list Call) :
  forall w, paired host port w -> paired host port (run w cs).
Proof.
  induction cs as [| c cs IH]; intros w Hw; [exact Hw |].
  apply IH, step_paired, Hw.
Qed.

(** X13: whatever calls of [start], [stop] and the two registration
    functions are made one after the other on a server after its
    construction, each after the one before has returned, the calls the
    object makes on its [httplib::Server] alternate: [listen], always on the
    address given to the constructor, then [stop], and so on, with a last
    [listen] not yet followed by a [stop] exactly when [running_] is set.
    So a [start] after a [listen] that has returned does not listen again
    until [stop] is called.  The destructor calls [stop]: once the object is
    destroyed every [listen] has been followed by its [stop]. *)
Theorem listen_and_stop_alternate (host : string) (port : Z) (cs : list Call) :
  let w := run (construct host port) cs in
  (exists k, trace w =
     rounds k host port ++ (if running_ (server w) then [Listen host port] else [])) /\
  (exists k, trace (destroy w) = rounds k host port) /\
  running_ (server (destroy w)) = false.
Proof.
  intros w.
  assert (Hw : paired host port w).
  { apply run_paired. split; [reflexivity |]. split; [reflexivity |].
    exists 0%nat. reflexivity. }
  split; [exact (proj2 (proj2 Hw)) |].
  pose proof (step_paired host port w CallStop Hw) as (_ & _ & k & Hk).
  change (step w CallStop) with (destroy w) in Hk.
  assert (Hr : running_ (server (destroy w)) = false).
  { unfold destroy, stop. destruct (running_ (server w)) eqn:Hrun; simpl; [reflexivity | exact Hrun]. }
  split; [| exact Hr].
  exists k. rewrite Hk, Hr. apply app_nil_r.
Qed.

End HttpServerProperties.

(** ** The production logger and the CDR manager *)

Section ProductionLoggerProperties.
Import ProductionLogger.
Open Scope list_scope.
Variable open_error : string -> option string.
Variable format_fixed : nat -> SpecFloat.spec_float -> string.

(** *** The CDR line *)

Lemma split_commas_field (a rest : string) :
  comma_free a = true ->
  split_commas (a +:+ String "," rest) = a :: split_commas rest.
Proof.
  induction a as [| c a IH]; simpl; intros H; [reflexivity |].
  apply andb_prop in H. destruct H as [Hc Ha].
  destruct (Ascii.eqb c ","); [discriminate |].
  rewrite (IH Ha). reflexivity.
Qed.

Lemma split_commas_field' (a rest : string) :
  comma_free a = true ->
  split_commas (a +:+ "," +:+ rest) = a :: split_commas rest.
Proof. apply split_commas_field. Qed.

Lemma append_quote (q : ascii) (rest : string) (t : string) :
  t +:+ String q ("," +:+ rest) = (t +:+ String q "") +:+ String "," rest.
Proof.
  induction t as [| c t IH]; [reflexivity |].
  change (String c (t +:+ String q ("," +:+ rest)) =
          String c ((t +:+ String q "") +:+ String "," rest)).
  rewrite IH. reflexivity.
Qed.

Lemma split_commas_quoted (q : ascii) (t rest : string) :
  comma_free (String q (t +:+ String q "")) = true ->
  split_commas (String q (t +:+ String q ("," +:+ rest))) =
    String q (t +:+ String q "") :: split_commas rest.
Proof.
  intros H. rewrite append_quote.
  apply (split_commas_field (String q (t +:+ String q "")) rest H).
Qed.

Lemma split_commas_last (a : string) :
  comma_free a = true -> split_commas a = [a].
Proof.
  induction a as [| c a IH]; simpl; intros H; [reflexivity |].
  apply andb_prop in H. destruct H as [Hc Ha].
  destruct (Ascii.eqb c ","); [discriminate |].
  rewrite (IH Ha). reflexivity.
Qed.

Lemma comma_free_app (a b : string) :
  comma_free (a +:+ b) = comma_free a && comma_free b.
Proof.
  induction a as [| c a IH]; simpl; [reflexivity |].
  rewrite IH, andb_assoc. reflexivity.
Qed.

Lemma dec_digit_no_comma (d : Z) : Ascii.eqb (Format.dec_digit d) "," = false.
Proof.
  unfold Format.dec_digit.
  destruct d as [| p | p]; try reflexivity.
  do 4 (destruct p as [p | p |]; try reflexivity).
Qed.

Lemma dec_digits_comma_free (fuel : nat) :
  forall n acc, comma_free acc = true -> comma_free (Format.dec_digits fuel n acc) = true.
Proof.
  induction fuel as [| fuel IH]; intros n acc Hacc; simpl; [exact Hacc |].
  assert (H : comma_free (String (Format.dec_digit (n mod 10)) acc) = true).
  { simpl. rewrite dec_digit_no_comma, Hacc. reflexivity. }
  destruct (n / 10 =? 0)%Z; [exact H | apply IH, H].
Qed.

Lemma to_string_comma_free (v : Z) : comma_free (Format.to_string v) = true.
Proof.
  unfold Format.to_string. destruct (v <? 0)%Z.
  - change (comma_free (Format.dec_digits 20 (- v) "") = true).
    apply dec_digits_comma_free. reflexivity.
  - apply dec_digits_comma_free. reflexivity.
Qed.

(** X14: a line of the CDR file cut at its commas gives back the twenty
    fields of the record, in the order of the structure, with the message
    text between double quotes and the cost in fixed notation, provided that
    no text field of the record, and not the text of the cost, holds a comma.
    The numbers never do. *)
Theorem format_cdr_record_fields (cdr : CDRRecord) :
  forallb comma_free
    [message_id cdr; campaign_id cdr; customer_id cdr; msisdn cdr; sender_id cdr;
     message_text cdr; submit_time cdr; delivery_time cdr; status cdr; error_code cdr;
     smsc_id cdr; route_id cdr; format_fixed 4 (cost cdr); operator_name cdr;
     country_code cdr; final_status cdr] = true ->
  split_commas (format_cdr_record format_fixed cdr) =
    [message_id cdr; campaign_id cdr; customer_id cdr; msisdn cdr; sender_id cdr;
     String (ascii_of_nat 34) (message_text cdr +:+ String (ascii_of_nat 34) "");
     Format.to_string (message_length cdr); Format.to_string (message_parts cdr);
     submit_time cdr; delivery_time cdr; status cdr; error_code cdr; smsc_id cdr;
     route_id cdr; format_fixed 4 (cost cdr); operator_name cdr; country_code cdr;
     Format.to_string (retry_count cdr); final_status cdr;
     Format.to_string (processing_time_ms cdr)].
Proof.
  intros H. cbn [forallb] in H.
  repeat (apply andb_prop in H; destruct H as [?H H]).
  assert (Hq : comma_free (String (ascii_of_nat 34)
                 (message_text cdr +:+ String (ascii_of_nat 34) "")) = true).
  { change (comma_free (message_text cdr +:+ String (ascii_of_nat 34) "") = true).
    rewrite comma_free_app. rewrite H5. reflexivity. }
  pose proof to_string_comma_free as Hn.
  unfold format_cdr_record.
  repeat first
    [ rewrite split_commas_field' by (assumption || apply Hn)
    | rewrite split_commas_quoted by exact Hq ].
  rewrite split_commas_last by apply Hn. reflexivity.
Qed.

(** *** The CDR manager *)

(** X15: [update_delivery_status], called by a thread that does not hold
    [cdr_mutex_].  For a message that is pending while the CDR logger exists,
    the call locks the mutex, and [log_cdr] hands the record to
    [record_message], which locks the same mutex again: the behaviour is
    undefined, and this is the only such case.  A call that returns has
    written nothing: either the message was not pending, or there is no CDR
    logger and the record is erased with its delivery status unlogged. *)
Theorem update_delivery_status_cases (id status delivery_time : string) (w : World) :
  cdr_mutex_ (cdr_manager w) = false ->
  (update_delivery_status format_fixed id status delivery_time w = None <->
   is_Some (pending_cdrs_ (cdr_manager w) !! id) /\
   is_Some (cdr_logger_ (production_logger w))) /\
  (forall w', update_delivery_status format_fixed id status delivery_time w = Some w' ->
     files w' = files w /\ cerr w' = cerr w /\ registry w' = registry w /\
     production_logger w' = production_logger w /\
     cdr_mutex_ (cdr_manager w') = false /\
     pending_cdrs_ (cdr_manager w') = delete id (pending_cdrs_ (cdr_manager w))).
Proof.
  intros Hfree.
  unfold update_delivery_status, with_cdr_mutex. rewrite Hfree.
  cbn [set_cdr_manager cdr_manager pending_cdrs_].
  destruct (pending_cdrs_ (cdr_manager w) !! id) as [cdr |] eqn:Hp.
  - unfold log_cdr. cbn [set_pending set_cdr_manager production_logger cdr_manager].
    destruct (cdr_logger_ (production_logger w)) as [l |] eqn:Hl.
    + unfold record_message, with_cdr_mutex, log.
      destruct (level_value (logger_level l) <=? level_value info)%Z;
        cbn [cdr_manager cdr_mutex_]; (split; [| discriminate]);
        (split; [intros _; split; eexists; reflexivity | reflexivity]).
    + cbn. split.
      * split; [discriminate |]. intros [_ [l Hl']]. discriminate Hl'.
      * intros w' [= <-]. cbn. repeat split; try reflexivity.
        rewrite delete_insert_eq. reflexivity.
  - cbn. split.
    + split; [discriminate |]. intros [[cdr Hc] _]. discriminate Hc.
    + intros w' [= <-]. cbn. repeat split; try reflexivity.
      symmetry. apply delete_id. exact Hp.
Qed.

(** *** Runs of the public interface *)

Lemma written_log_other (l : Logger) level fmt args (w : World) file :
  file <> logger_file l -> written file (log l level fmt args w) = written file w.
Proof.
  intros Hne. unfold log. destruct (_ <=? _)%Z; [| reflexivity].
  unfold written. cbn [files]. rewrite lookup_insert_ne by congruence. reflexivity.
Qed.

Lemma written_log_same (l : Logger) level fmt args (w : World) :
  written (logger_file l) (log l level fmt args w) =
    if (level_value (logger_level l) <=? level_value level)%Z
    then written (logger_file l) w ++ [mkEntry level fmt args]
    else written (logger_file l) w.
Proof.
  unfold log. destruct (_ <=? _)%Z; [| reflexivity].
  unfold written at 1. cbn [files]. rewrite lookup_insert_eq. reflexivity.
Qed.

Lemma log_members (l : Logger) level fmt args (w : World) :
  production_logger (log l level fmt args w) = production_logger w /\
  cdr_manager (log l level fmt args w) = cdr_manager w /\
  registry (log l level fmt args w) = registry w /\
  cerr (log l level fmt args w) = cerr w.
Proof. unfold log. destruct (_ <=? _)%Z; repeat split; reflexivity. Qed.

Lemma log_sound (l : Logger) level fmt args (w : World) :
  (level_value info <= level_value (logger_level l))%Z ->
  sound w -> sound (log l level fmt args w).
Proof.
  intros Hl (Hm & Hc & Hlv & He).
  destruct (log_members l level fmt args w) as (Hp & Hcm & _ & _).
  unfold sound. rewrite Hp, Hcm.
  split; [exact Hm |]. split; [exact Hc |]. split; [exact Hlv |].
  intros file e Hin.
  destruct (decide (file = logger_file l)) as [-> | Hne].
  - rewrite written_log_same in Hin.
    destruct (level_value (logger_level l) <=? level_value level)%Z eqn:Hle.
    + apply in_app_or in Hin. destruct Hin as [Hin | [<- | []]].
      * apply (He _ _ Hin).
      * apply Z.leb_le in Hle. cbn [entry_level]. lia.
    + apply (He _ _ Hin).
  - rewrite written_log_other in Hin by exact Hne. apply (He _ _ Hin).
Qed.

Lemma log_if_sound (ptr : option Logger) level fmt args (w : World) :
  level_at_least_info ptr -> sound w -> sound (log_if ptr level fmt args w).
Proof.
  intros Hptr Hw. destruct ptr as [l |]; [| exact Hw].
  apply log_sound; [apply Hptr; reflexivity | exact Hw].
Qed.

Lemma log_if_members (ptr : option Logger) level fmt args (w : World) :
  production_logger (log_if ptr level fmt args w) = production_logger w.
Proof. destruct ptr as [l |]; [apply log_members | reflexivity]. Qed.

Lemma info_sound fmt args (w : World) : sound w -> sound (info_ fmt args w).
Proof. intros Hw. apply log_if_sound; [apply Hw | exact Hw]. Qed.

Lemma debug_sound fmt args (w : World) : sound w -> sound (debug_ fmt args w).
Proof. intros Hw. apply log_if_sound; [apply Hw | exact Hw]. Qed.

Lemma warning_sound fmt args (w : World) : sound w -> sound (warning fmt args w).
Proof. intros Hw. apply log_if_sound; [apply Hw | exact Hw]. Qed.

Lemma alarm_sound fmt args (w : World) : sound w -> sound (alarm fmt args w).
Proof.
  intros Hw. unfold alarm.
  assert (H1 : sound (log_if (alarm_logger_ (production_logger w)) critical fmt args w)).
  { apply log_if_sound; [apply Hw | exact Hw]. }
  apply log_if_sound; [apply H1 | exact H1].
Qed.

Lemma set_initialized_sound b (w : World) : sound w -> sound (set_initialized b w).
Proof. intros Hw. exact Hw. Qed.

Lemma create_loggers_sound log_dir (w : World) :
  sound w -> sound (create_loggers open_error log_dir w).
Proof.
  intros (Hm & (C1 & C2 & C3 & C4 & C5) & (L1 & L2 & L3 & L4 & L5 & L6) & He).
  assert (Hleaf : forall w1 : World,
            cdr_manager w1 = cdr_manager w -> files w1 = files w ->
            created_in_order (production_logger w1) ->
            (level_at_least_info (app_logger_ (production_logger w1)) /\
             level_at_least_info (warning_logger_ (production_logger w1)) /\
             level_at_least_info (alarm_logger_ (production_logger w1)) /\
             level_at_least_info (system_logger_ (production_logger w1)) /\
             level_at_least_info (cdr_logger_ (production_logger w1)) /\
             level_at_least_info (security_logger_ (production_logger w1))) ->
            sound w1).
  { intros w1 Hcm Hf Hc Hl. unfold sound. rewrite Hcm.
    split; [exact Hm |]. split; [exact Hc |]. split; [exact Hl |].
    intros file e. unfold written. rewrite Hf. apply He. }
  unfold create_loggers.
  repeat (unfold creating at 1; unfold create_file_logger at 1;
          match goal with
          | |- context [open_error ?f] => destruct (open_error f)
          end;
          [| match goal with
             | |- context [bool_decide ?P] => destruct (bool_decide P)
             end;
             [| cbv beta iota;
                cbn [set_app_logger set_warning_logger set_alarm_logger set_system_logger
                     set_cdr_logger set_security_logger set_level set_production_logger
                     production_logger cdr_manager registry files cerr
                     app_logger_ warning_logger_ alarm_logger_ system_logger_ cdr_logger_
                     security_logger_ current_metrics_ initialized_
                     logger_name logger_file logger_level]]]).
  all: (apply Hleaf; [reflexivity | reflexivity | |]; cbn;
    repeat split;
    try assumption;
    try (intros _; eexists; reflexivity);
    try (intros l [= <-]; cbn; lia)).
Qed.

Lemma log_system_metrics_sound metrics (w : World) :
  sound w -> sound (log_system_metrics format_fixed metrics w).
Proof.
  intros Hw. unfold log_system_metrics.
  destruct (system_logger_ (production_logger w)) as [l |] eqn:Hl; [| exact Hw].
  apply log_sound; [| exact Hw].
  destruct Hw as (_ & _ & (_ & _ & _ & L4 & _) & _). apply L4. exact Hl.
Qed.

Lemma initialize_sound s log_dir (w : World) :
  sound w -> sound (initialize open_error format_fixed s log_dir w).
Proof.
  intros Hw. unfold initialize.
  destruct (initialized_ (production_logger w)); [exact Hw |].
  unfold get_current_metrics.
  apply log_system_metrics_sound.
  match goal with
  | |- sound (set_current_metrics ?m ?w0) => change (sound w0)
  end.
  apply info_sound.
  apply set_initialized_sound, create_loggers_sound, Hw.
Qed.

Lemma shutdown_sound (w : World) : sound w -> sound (shutdown w).
Proof.
  intros Hw. unfold shutdown.
  destruct (negb (initialized_ (production_logger w))); [exact Hw |].
  pose proof (info_sound "Production Logger shutting down" [] w Hw) as H1.
  exact H1.
Qed.

Lemma record_message_sound cdr (w : World) :
  sound w -> exists w', record_message cdr w = Some w' /\ sound w'.
Proof.
  intros Hw. unfold record_message, with_cdr_mutex.
  destruct Hw as (Hm & Hrest). rewrite Hm.
  eexists. split; [reflexivity |]. split; [reflexivity | exact Hrest].
Qed.

Lemma log_cdr_sound cdr (w : World) :
  sound w -> exists w', log_cdr format_fixed cdr w = Some w' /\ sound w'.
Proof.
  intros Hw. unfold log_cdr.
  destruct (cdr_logger_ (production_logger w)) as [l |] eqn:Hl.
  - apply record_message_sound, log_sound; [| exact Hw].
    destruct Hw as (_ & _ & (_ & _ & _ & _ & L5 & _) & _). apply L5. exact Hl.
  - exists w. split; [reflexivity | exact Hw].
Qed.

Lemma log_performance_sound operation duration_ms success (w : World) :
  sound w -> sound (log_performance operation duration_ms success w).
Proof.
  intros Hw. unfold log_performance.
  destruct (1000 <? duration_ms)%Z; [apply warning_sound | apply debug_sound]; exact Hw.
Qed.

Lemma log_security_event_sound event_type user ip_address details (w : World) :
  sound w -> sound (log_security_event event_type user ip_address details w).
Proof.
  intros Hw. unfold log_security_event.
  destruct (security_logger_ (production_logger w)) as [l |] eqn:Hl; [| exact Hw].
  assert (H1 : forall text, sound (log l warn text [] w)).
  { intros text. apply log_sound; [| exact Hw].
    destruct Hw as (_ & _ & (_ & _ & _ & _ & _ & L6) & _). apply L6. exact Hl. }
  destruct (is_critical_event event_type); [apply alarm_sound |]; apply H1.
Qed.

Lemma step_sound (c : Call) (w : World) :
  sound w -> exists w', step open_error format_fixed c w = Some w' /\ sound w'.
Proof.
  intros Hw.
  destruct c; cbn [step];
    try (eexists; split; [reflexivity |]).
  - apply initialize_sound, Hw.
  - apply shutdown_sound, Hw.
  - apply info_sound, Hw.
  - apply debug_sound, Hw.
  - apply warning_sound, Hw.
  - apply alarm_sound, Hw.
  - apply log_system_metrics_sound, Hw.
  - apply log_cdr_sound, Hw.
  - apply info_sound, Hw.
  - apply log_performance_sound, Hw.
  - apply log_security_event_sound, Hw.
  - exact Hw.
Qed.

Lemma run_sound (cs : list Call) :
  forall w, sound w -> exists w', run open_error format_fixed cs w = Some w' /\ sound w'.
Proof.
  induction cs as [| c cs IH]; intros w Hw; cbn [run].
  - exists w. split; [reflexivity | exact Hw].
  - destruct (step_sound c w Hw) as (w1 & Hs & Hw1). rewrite Hs. apply IH, Hw1.
Qed.

Lemma fresh_sound : sound fresh.
Proof.
  split; [reflexivity |]. split.
  - repeat split; intros [l Hl]; discriminate Hl.
  - split; [repeat split; intros l Hl; discriminate Hl |].
    intros file e Hin. unfold written, fresh in Hin. cbn [files] in Hin.
    rewrite lookup_empty in Hin. destruct Hin.
Qed.

(** X16: after any calls of the public member functions of
    [ProductionLogger] in a process that starts with the singletons as
    constructed, the calls have all returned, and the logger members that are
    set are the first ones in the order of [create_loggers]: application,
    warning, alarm, system, CDR, security.  So an alarm that is written is
    written to the application log as well, and [initialized_] can be set
    with no logger at all. *)
Theorem loggers_created_in_order (cs : list Call) :
  exists w', run open_error format_fixed cs fresh = Some w' /\
    let p := production_logger w' in
    (is_Some (security_logger_ p) -> is_Some (cdr_logger_ p)) /\
    (is_Some (cdr_logger_ p) -> is_Some (system_logger_ p)) /\
    (is_Some (system_logger_ p) -> is_Some (alarm_logger_ p)) /\
    (is_Some (alarm_logger_ p) -> is_Some (warning_logger_ p)) /\
    (is_Some (warning_logger_ p) -> is_Some (app_logger_ p)).
Proof.
  destruct (run_sound cs fresh fresh_sound) as (w' & Hrun & _ & (C1 & C2 & C3 & C4 & C5) & _).
  exists w'. split; [exact Hrun |]. cbn zeta. auto.
Qed.

(** X17: after any calls of the public member functions of
    [ProductionLogger] in a process that starts with the singletons as
    constructed, no log file holds an entry below the level [info]: every
    logger is left at its default level or raised above it.  So [debug]
    writes nothing, and [log_performance] leaves no trace of an operation
    that took 1000 ms or less. *)
Theorem nothing_logged_below_info (cs : list Call) :
  exists w', run open_error format_fixed cs fresh = Some w' /\
    (forall file e, In e (written file w') ->
       (level_value info <= level_value (entry_level e))%Z) /\
    (forall fmt args, debug_ fmt args w' = w') /\
    (forall operation duration_ms success, (duration_ms <= 1000)%Z ->
       log_performance operation duration_ms success w' = w').
Proof.
  destruct (run_sound cs fresh fresh_sound)
    as (w' & Hrun & _ & _ & (L1 & _) & He).
  exists w'. split; [exact Hrun |]. split; [exact He |].
  assert (Hdebug : forall fmt args, debug_ fmt args w' = w').
  { intros fmt args. unfold debug_, log_if.
    destruct (app_logger_ (production_logger w')) as [l |] eqn:Hl; [| reflexivity].
    unfold log. specialize (L1 l eq_refl). cbn in L1.
    destruct (Z.leb_spec (level_value (logger_level l)) (level_value debug)) as [Hle | Hgt];
      [cbn in Hle; lia | reflexivity]. }
  split; [exact Hdebug |].
  intros operation duration_ms success Hd. unfold log_performance.
  destruct (Z.ltb_spec 1000 duration_ms); [lia | apply Hdebug].
Qed.

End ProductionLoggerProperties.
(** ** The logger *)

Section LoggerProperties.
Import ProductionLogger Logger.
Open Scope list_scope.
Variable open_error : string -> option string.

(** X18: the constructor of [Logger] lets no [spdlog_ex] out.  When the log
    file cannot be opened it reports on [std::cerr] and leaves [logger_] null,
    and every member function called on the object afterwards dereferences
    the null pointer; when it can, [logger_] is set, also for a name that is
    registered already, and every member function returns. *)
Theorem logger_usable_iff_file_opens (name : string) (w : World) :
  let l := fst (construct open_error name w) in
  let w' := snd (construct open_error name w) in
  match open_error log_file with
  | Some text =>
      logger_ l = None /\
      w' = report text w /\
      forall c w2, perform c l w2 = None
  | None =>
      is_Some (logger_ l) /\
      (name ∈ registry w -> registry w' = registry w /\ length (cerr w') = S (length (cerr w))) /\
      forall c w2, is_Some (perform c l w2)
  end.
Proof.
  intros l w'. unfold l, w', construct.
  destruct (open_error log_file) as [text |].
  - cbn. repeat split.
  - destruct (bool_decide (name ∈ registry w)) eqn:Hreg; cbn.
    + split; [eexists; reflexivity |]. split.
      * intros _. split; [reflexivity |]. rewrite length_app. simpl. lia.
      * intros c w2. destruct c; eexists; reflexivity.
    + split; [eexists; reflexivity |]. split.
      * intros Hin. apply bool_decide_eq_false in Hreg. contradiction.
      * intros c w2. destruct c; eexists; reflexivity.
Qed.




End LoggerProperties.
Section LoggingExamples.
Import ProductionLogger LoggingExamples.
Open Scope list_scope.

Lemma update_delivery_status_cases_witness :
  update_delivery_status example_format_fixed "msg-1001" "DELIVERED"
    "2024-05-01T10:00:03Z" example_logging = None /\
  exists w', update_delivery_status example_format_fixed "msg-404" "DELIVERED"
               "2024-05-01T10:00:03Z" example_logging = Some w' /\
             files w' = files example_logging.
Proof.
  split.
  - destruct (update_delivery_status_cases example_format_fixed "msg-1001" "DELIVERED"
                "2024-05-01T10:00:03Z" example_logging eq_refl) as [Hiff _].
    apply Hiff. split; eexists; vm_compute; reflexivity.
  - destruct (update_delivery_status_cases example_format_fixed "msg-404" "DELIVERED"
                "2024-05-01T10:00:03Z" example_logging eq_refl) as [_ Hret].
    eexists. split; [vm_compute; reflexivity |].
    apply Hret. vm_compute. reflexivity.
Defined.

Lemma format_cdr_record_fields_witness :
  length (split_commas (format_cdr_record example_format_fixed example_cdr)) = 20%nat /\
  nth 5 (split_commas (format_cdr_record example_format_fixed example_cdr)) "" =
    String (ascii_of_nat 34) ("Your code is 4711" +:+ String (ascii_of_nat 34) "").
Proof.
  rewrite (format_cdr_record_fields example_format_fixed example_cdr).
  - split; reflexivity.
  - vm_compute. reflexivity.
Defined.

End LoggingExamples.

Section LoggerExamples.
Import ProductionLogger Logger.
Open Scope list_scope.


End LoggerExamples.

(** ** System metrics *)

Section SystemMetricsProperties.
Import ProductionLogger.

(** X20: the disk figures.  When [statvfs] succeeds on a file system whose
    size in bytes fits an [unsigned long], with no more blocks available
    than there are, [get_current_metrics] reports the used and the available
    space without wrap-around, in whole MiB rounded down: together they are
    the total, rounded down, or one less.  [SystemMonitor::get_disk_usage]
    reports the same used space.  The connections, the queue depth and the
    messages per second reported are always 0, and the metrics returned are
    the ones stored in [current_metrics_]. *)
Theorem disk_figures (s : Sample) (st : StatVfs) (w : World) :
  statvfs s = Some st ->
  0 <= f_bavail st <= f_blocks st ->
  0 <= f_frsize st ->
  f_blocks st * f_frsize st < 2 ^ 64 ->
  let m := fst (get_current_metrics s w) in
  let total_mb := f_blocks st * f_frsize st / 2 ^ 20 in
  disk_usage_mb m = (f_blocks st - f_bavail st) * f_frsize st / 2 ^ 20 /\
  disk_available_mb m = f_bavail st * f_frsize st / 2 ^ 20 /\
  get_disk_usage s = disk_usage_mb m /\
  0 <= disk_usage_mb m /\ 0 <= disk_available_mb m /\
  total_mb - 1 <= disk_usage_mb m + disk_available_mb m <= total_mb /\
  active_connections m = 0 /\ queue_depth m = 0 /\ messages_per_second m = 0 /\
  current_metrics_ (production_logger (snd (get_current_metrics s w))) = m.
Proof.
  intros Hst Hav Hfr Htot m total_mb.
  assert (Hbav : 0 <= f_bavail st * f_frsize st <= f_blocks st * f_frsize st) by nia.
  assert (Ha : unsigned_long (f_bavail st * f_frsize st) = f_bavail st * f_frsize st).
  { unfold unsigned_long. apply Z.mod_small. lia. }
  assert (Ht : unsigned_long (f_blocks st * f_frsize st) = f_blocks st * f_frsize st).
  { unfold unsigned_long. apply Z.mod_small. lia. }
  assert (Hd : unsigned_long (f_blocks st * f_frsize st - f_bavail st * f_frsize st) =
               (f_blocks st - f_bavail st) * f_frsize st).
  { unfold unsigned_long. rewrite Z.mod_small by lia. ring. }
  assert (Hu : disk_usage_mb m = (f_blocks st - f_bavail st) * f_frsize st / 2 ^ 20).
  { unfold m, get_current_metrics. rewrite Hst. cbn [fst disk_usage_mb].
    rewrite Ha, Ht, Hd. reflexivity. }
  assert (Hv : disk_available_mb m = f_bavail st * f_frsize st / 2 ^ 20).
  { unfold m, get_current_metrics. rewrite Hst. cbn [fst snd disk_available_mb].
    rewrite Ha. reflexivity. }
  split; [exact Hu |]. split; [exact Hv |].
  split.
  { rewrite Hu. unfold get_disk_usage. rewrite Hst, Ha, Ht, Hd. reflexivity. }
  rewrite Hu, Hv. unfold total_mb.
  set (used := (f_blocks st - f_bavail st) * f_frsize st).
  set (avail := f_bavail st * f_frsize st) in *.
  assert (Hsum : f_blocks st * f_frsize st = used + avail) by (unfold used, avail; ring).
  rewrite Hsum.
  assert (Hused : 0 <= used) by (unfold used; nia).
  pose proof (Z.div_mod used (2 ^ 20) ltac:(lia)) as E1.
  pose proof (Z.div_mod avail (2 ^ 20) ltac:(lia)) as E2.
  pose proof (Z.div_mod (used + avail) (2 ^ 20) ltac:(lia)) as E3.
  pose proof (Z.mod_pos_bound used (2 ^ 20) ltac:(lia)) as B1.
  pose proof (Z.mod_pos_bound avail (2 ^ 20) ltac:(lia)) as B2.
  pose proof (Z.mod_pos_bound (used + avail) (2 ^ 20) ltac:(lia)) as B3.
  pose proof (Z.div_pos used (2 ^ 20) Hused ltac:(lia)) as P1.
  pose proof (Z.div_pos avail (2 ^ 20) ltac:(lia) ltac:(lia)) as P2.
  repeat split; try reflexivity; try lia.
Qed.

Lemma disk_figures_witness :
  let s := {| now := 1714557600; get_cpu_usage := SpecFloat.S754_zero false;
              get_memory_usage_mb := SpecFloat.S754_zero false;
              get_memory_usage_percent := SpecFloat.S754_zero false;
              statvfs := Some {| f_blocks := 26214400; f_frsize := 4096;
                                 f_bavail := 13107200 |};
              uninitialized := zero_metrics |} in
  disk_usage_mb (fst (get_current_metrics s fresh)) = 51200 /\
  get_disk_usage s = 51200.
Proof.
  intros s.
  destruct (disk_figures s {| f_blocks := 26214400; f_frsize := 4096; f_bavail := 13107200 |}
              fresh eq_refl ltac:(simpl; lia) ltac:(simpl; lia) ltac:(simpl; lia))
    as (H1 & _ & H3 & _).
  split; [rewrite H1; reflexivity | rewrite H3, H1; reflexivity].
Defined.

End SystemMetricsProperties.
